(** * OceanPuzzle: a shallow embedding of [puzzle.js]

    The development follows the second (current) [OceanPuzzle] class of
    [src/new/puzzle.js]: the shared edge tables, the piece catalogue, the
    cluster registry ([groups] and [pieceToGroup]), hit-testing, the drag
    update and the snap-and-merge performed on pointer release, followed by
    the layout of [init], [shuffle] and [_separateGroups], [_draw] and whole
    sessions of events.  The first version of the class, which the file also
    holds, is the subject of the module [Legacy].

    Numbers.  Every coordinate the program stores is an integer: cell sizes
    and the board origin go through [Math.floor], cluster offsets and drag
    targets through [Math.round].  They are modelled as [Z].  The operations
    that leave the integers ([Math.sin], [Math.hypot], the easing factor) are
    modelled over the real numbers [R], i.e. IEEE rounding of intermediate
    results is idealised away; [Math.round] is [floor (x + 1/2)].  Pointer
    coordinates, which may be fractional, are rationals [Q]. *)

From Stdlib Require Import ZArith QArith Qround Reals Lra Lia Psatz.
From Stdlib Require Import Zfloor Machin Rtrigo_alt R_sqrt.
From stdpp Require Import gmap strings list.
Close Scope Q_scope.

(** ** Numeric primitives *)

(** [Math.round]: the nearest integer, ties towards plus infinity. *)
Definition js_round (x : R) : Z := Zfloor (x + / 2).

(** [Math.floor]. *)
Definition js_floor (x : R) : Z := Zfloor x.

(** [Math.hypot(dx,dy) <= s] on integer [dx], [dy] and an integer threshold:
    the square root is monotone, so the test is a comparison of squares
    (and it fails for a negative threshold). *)
Definition hypot_le (dx dy s : Z) : bool :=
  ((0 <=? s) && (dx * dx + dy * dy <=? s * s))%Z.

Record Pt := mkPt { px : Z; py : Z }.

#[global] Instance Pt_eq_dec : EqDecision Pt.
Proof. solve_decision. Defined.

Definition pt_add (a b : Pt) : Pt := mkPt (px a + px b) (py a + py b).
Definition pt_sub (a b : Pt) : Pt := mkPt (px a - px b) (py a - py b).

(** ** Board layout *)

(** [rows], [cols], [cell] and [bounds] as [init] leaves them. *)
Record Board := mkBoard {
  rows : nat;
  cols : nat;
  cellW : Z;
  cellH : Z;
  boundsX : Z;
  boundsY : Z
}.

(** ** Shared edge tables: [_buildSharedEdges] *)

Module Edges.

(** [const N = 12]: segments per edge, so [N + 1] points. *)
Definition N : nat := 12.

(** [Math.max(4, Math.floor(d * 0.08))] *)
Definition amp (d : Z) : Z := Z.max 4 (js_floor (IZR d * (8 / 100))).

(** [t = i / N] *)
Definition param (i : nat) : R := (INR i / INR N)%R.

(** [Math.round(Math.sin((t*2*Math.PI) + seed) * a)] *)
Definition wave (t : R) (seed : nat) (a : Z) : Z :=
  js_round (sin (t * 2 * PI + INR seed) * IZR a).

(** Point [i] of the horizontal edge [(r,c)]. *)
Definition hPoint (b : Board) (r c i : nat) : Pt :=
  let isBorder := (r =? 0) || (r =? rows b) in
  let t := param i in
  {| px := js_round (t * IZR (cellW b));
     py := if isBorder then 0%Z
           else wave t (r * 31 + c * 17) (amp (cellH b)) |}.

(** Point [i] of the vertical edge [(c,r)]. *)
Definition vPoint (b : Board) (c r i : nat) : Pt :=
  let isBorder := (c =? 0) || (c =? cols b) in
  let t := param i in
  {| px := if isBorder then 0%Z
           else wave t (c * 37 + r * 19) (amp (cellW b));
     py := js_round (t * IZR (cellH b)) |}.

(** [for (let i=0;i<=N;i++) poly.push({x,y})] *)
Definition hPoly (b : Board) (r c : nat) : list Pt :=
  hPoint b r c <$> seq 0 (S N).

Definition vPoly (b : Board) (c r : nat) : list Pt :=
  vPoint b c r <$> seq 0 (S N).

(** The two tables: [hEdges[r][c]] for [r = 0..rows], [c < cols] and
    [vEdges[c][r]] for [c = 0..cols], [r < rows]. *)
Record Tables := mkTables {
  hEdges : list (list (list Pt));
  vEdges : list (list (list Pt))
}.

Definition buildSharedEdges (b : Board) : Tables :=
  {| hEdges := (fun r => hPoly b r <$> seq 0 (cols b)) <$> seq 0 (S (rows b));
     vEdges := (fun c => vPoly b c <$> seq 0 (rows b)) <$> seq 0 (S (cols b)) |}.

(** Array reads [tbl[i][j]]; [None] stands for [undefined]. *)
Definition at2 (tbl : list (list (list Pt))) (i j : nat) : option (list Pt) :=
  tbl !! i ≫= (fun row => row !! j).

(** The four reads of [pathFn] for the piece at [(r,c)]. *)
Definition readTop (e : Tables) (r c : nat) := at2 (hEdges e) r c.
Definition readRight (e : Tables) (r c : nat) := at2 (vEdges e) (c + 1) r.
Definition readBottom (e : Tables) (r c : nat) := at2 (hEdges e) (r + 1) c.
Definition readLeft (e : Tables) (r c : nat) := at2 (vEdges e) c r.

(** The points [pathFn] hands to [moveTo]/[lineTo], in order, in the
    piece's local frame.  Top runs over [poly[0..]], right over
    [poly[1..]] shifted by the cell width, bottom over
    [poly[length-2..0]] shifted by the cell height, left over
    [poly[length-2..0]]. *)
Definition pathTop (poly : list Pt) : list Pt := poly.
Definition pathRight (b : Board) (poly : list Pt) : list Pt :=
  (fun p => mkPt (cellW b + px p) (py p)) <$> drop 1 poly.
Definition pathBottom (b : Board) (poly : list Pt) : list Pt :=
  (fun p => mkPt (px p) (cellH b + py p)) <$> reverse (take (length poly - 1) poly).
Definition pathLeft (poly : list Pt) : list Pt :=
  reverse (take (length poly - 1) poly).

Definition pathFn (b : Board) (e : Tables) (r c : nat) : option (list Pt) :=
  top ← readTop e r c;
  _ ← top !! 0%nat;
  right ← readRight e r c;
  bottom ← readBottom e r c;
  left ← readLeft e r c;
  Some (pathTop top ++ pathRight b right ++ pathBottom b bottom ++ pathLeft left).

End Edges.

(** ** Piece catalogue: [_createPieces] *)

Record Piece := mkPiece {
  id : nat;
  pr : nat;
  pc : nat;
  target : Pt;
  sizeW : Z;
  sizeH : Z
}.

#[global] Instance Piece_eq_dec : EqDecision Piece.
Proof. solve_decision. Defined.

(** The cells in the order of the two nested loops (row-major). *)
Definition cells (b : Board) : list (nat * nat) :=
  flat_map (fun r => pair r <$> seq 0 (cols b)) (seq 0 (rows b)).

(** [id: id++]: the id is the position in push order. *)
Definition createPieces (b : Board) : list Piece :=
  imap (fun k rc =>
          {| id := k; pr := rc.1; pc := rc.2;
             target := mkPt (boundsX b + Z.of_nat rc.2 * cellW b)
                            (boundsY b + Z.of_nat rc.1 * cellH b);
             sizeW := cellW b; sizeH := cellH b |})
       (cells b).

(** ** Cluster registry *)

(** Cluster identifiers are the strings of [crypto.randomUUID()]. *)
Definition Gid := string.

Record Group := mkGroup {
  gid : Gid;
  members : list nat;   (* a JS [Set]: insertion order, no duplicates *)
  pos : Pt
}.

#[global] Instance Group_eq_dec : EqDecision Group.
Proof. solve_decision. Defined.

Record Drag := mkDrag {
  groupId : Gid;
  offsetX : Q;
  offsetY : Q;
  dragTarget : Pt
}.

(** The mutable fields of the [OceanPuzzle] instance.  [groups] is the JS
    [Map] in insertion order; each entry is stored under its own [gid]
    (every [groups.set] of the source uses the object's [id] as key). *)
Record Puzzle := mkPuzzle {
  board : Board;
  edges : Edges.Tables;
  pieces : list Piece;
  groups : list Group;
  pieceToGroup : gmap nat Gid;
  drag : option Drag
}.

Record Options := mkOptions {
  snapDistance : Z;
  lockOnSnap : bool
}.

Record Easing := mkEasing {
  maxStepPerFrame : R;
  dragLerp : R
}.

Definition with_groups (st : Puzzle) (gs : list Group) : Puzzle :=
  mkPuzzle (board st) (edges st) (pieces st) gs (pieceToGroup st) (drag st).

Definition with_registry (st : Puzzle) (gs : list Group) (m : gmap nat Gid) : Puzzle :=
  mkPuzzle (board st) (edges st) (pieces st) gs m (drag st).

Definition with_drag (st : Puzzle) (d : option Drag) : Puzzle :=
  mkPuzzle (board st) (edges st) (pieces st) (groups st) (pieceToGroup st) d.

(** A computation that may throw a [TypeError] (a property read on
    [undefined]); [None] is the exception. *)
Definition Exc (A : Type) := option A.

(** *** [Map] and [Set] operations *)

(** [groups.get(k)] *)
Definition reg_get (k : Gid) (gs : list Group) : option Group :=
  List.find (fun g => bool_decide (gid g = k)) gs.

(** [groups.delete(k)] *)
Definition reg_delete (k : Gid) (gs : list Group) : list Group :=
  filter (fun g => gid g ≠ k) gs.

(** [groups.set(g.id, g)]: an existing key keeps its place in the order. *)
Definition reg_set (g : Group) (gs : list Group) : list Group :=
  match reg_get (gid g) gs with
  | Some _ => (fun h => if decide (gid h = gid g) then g else h) <$> gs
  | None => gs ++ [g]
  end.

(** A field assignment on a cluster object ([g.pos.x = ...],
    [g.members.add(...)]).  The object is the registry's entry for its id
    as long as that id is registered, so the write shows there; once the id
    has been deleted the object is only reachable from the local variable
    holding it and the registry is unaffected. *)
Definition reg_store (g : Group) (gs : list Group) : list Group :=
  (fun h => if decide (gid h = gid g) then g else h) <$> gs.

(** [s.add(x)] *)
Definition set_add (s : list nat) (x : nat) : list nat :=
  if decide (x ∈ s) then s else s ++ [x].

(** *** [_createGroups] *)

(** [fresh k] is the identifier drawn for the [k]-th piece. *)
Definition createGroups_step (fresh : nat -> Gid)
    (acc : list Group * gmap nat Gid) (kp : nat * Piece) : list Group * gmap nat Gid :=
  let g := fresh kp.1 in
  (reg_set (mkGroup g [id kp.2] (mkPt 0 0)) acc.1, <[id kp.2 := g]> acc.2).

Definition createGroups (fresh : nat -> Gid) (st : Puzzle) : Puzzle :=
  let r := foldl (createGroups_step fresh) ([], ∅) (imap pair (pieces st)) in
  with_registry st r.1 r.2.

(** [init], after the assets are loaded and the layout [b] is computed. *)
Definition init (fresh : nat -> Gid) (b : Board) : Puzzle :=
  createGroups fresh
    (mkPuzzle b (Edges.buildSharedEdges b) (createPieces b) [] ∅ None).

(** *** [reset] *)
Definition reset (st : Puzzle) : Puzzle :=
  with_groups st ((fun g => mkGroup (gid g) (members g) (mkPt 0 0)) <$> groups st).

(** *** Lookups *)

(** [_pieceById] *)
Definition pieceById (st : Puzzle) (i : nat) : option Piece :=
  List.find (fun p => (id p =? i)%nat) (pieces st).

(** [_getPiece] *)
Definition getPiece (st : Puzzle) (r c : Z) : option Piece :=
  if ((r <? 0) || (c <? 0) || (r >=? Z.of_nat (rows (board st)))
      || (c >=? Z.of_nat (cols (board st))))%Z
  then None
  else pieces st !! Z.to_nat (r * Z.of_nat (cols (board st)) + c).

(** [_pieceWorldPos] *)
Definition pieceWorldPos (st : Puzzle) (i : nat) : Exc Pt :=
  p ← pieceById st i;
  k ← pieceToGroup st !! i;
  g ← reg_get k (groups st);
  Some (pt_add (target p) (pos g)).

(** *** [_mergeGroups]

    [gA] and [gB] are the contents of the two objects.  The loop over
    [add.members] adds each id to [base.members] and points its index entry
    to [base.id]; the two updates do not depend on each other and are
    written as two folds.  The result is the new state and the contents of
    the object [gA] after the call (it has grown when it is the base). *)
Definition mergeGroups (st : Puzzle) (gA gB : Group) : Puzzle * Group :=
  let baseIsB := (length (members gA) <=? length (members gB))%nat in
  let base := if baseIsB then gB else gA in
  let add := if baseIsB then gA else gB in
  let base' := mkGroup (gid base) (foldl set_add (members base) (members add)) (pos base) in
  let idx := foldl (fun m pid => <[pid := gid base]> m) (pieceToGroup st) (members add) in
  (with_registry st (reg_delete (gid add) (reg_store base' (groups st))) idx,
   if baseIsB then gA else base').

(** *** [_trySnapAndMerge] *)

(** The neighbour array of [p]: left, right, up, down, without the
    out-of-range ones ([filter(Boolean)]). *)
Definition neighbours (st : Puzzle) (p : Piece) : list Piece :=
  let r := Z.of_nat (pr p) in
  let c := Z.of_nat (pc p) in
  omap (fun o : option Piece => o)
    [getPiece st r (c - 1); getPiece st r (c + 1);
     getPiece st (r - 1) c; getPiece st (r + 1) c]%Z.

(** The offset the source calls [ideal] for the pair [(p,q)]. *)
Definition idealOffset (p q : Piece) (gQ : Group) : Pt :=
  mkPt (px (target q) + px (pos gQ) - px (target p))
       (py (target q) + py (pos gQ) - py (target p)).

(** [Math.hypot(dx,dy) <= this.snapDistance] for the moved cluster. *)
Definition closeEnough (o : Options) (mg : Group) (ideal : Pt) : bool :=
  hypot_le (px ideal - px (pos mg)) (py ideal - py (pos mg)) (snapDistance o).

(** The inner loop [for (const q of neigh)].  The result carries the state,
    the contents of the [movedG] object and whether this loop merged. *)
Fixpoint scanNeigh (o : Options) (st : Puzzle) (mg : Group) (p : Piece)
    (neigh : list Piece) : Exc (Puzzle * Group * bool) :=
  match neigh with
  | [] => Some (st, mg, false)
  | q :: rest =>
    match pieceToGroup st !! id q with
    | None => None
    | Some gidQ =>
      if decide (gidQ = gid mg) then scanNeigh o st mg p rest
      else
        gQ ← reg_get gidQ (groups st);
        let ideal := idealOffset p q gQ in
        if closeEnough o mg ideal then
          let mg1 := mkGroup (gid mg) (members mg) ideal in
          let st1 := with_groups st (reg_store mg1 (groups st)) in
          Some (mergeGroups st1 mg1 gQ, true)
        else scanNeigh o st mg p rest
    end
  end.

(** The outer loop [for (const pid of movedG.members)].  A JS [Set] iterator
    is live: ids added to [movedG.members] during the loop are visited too,
    so the loop is driven by an index into the current member list.  [None]
    is a thrown exception or exhausted fuel. *)
Fixpoint scanMembers (fuel : nat) (o : Options) (st : Puzzle) (mg : Group)
    (i : nat) (merged : bool) : Exc Puzzle :=
  match fuel with
  | O => None
  | S fuel' =>
    match members mg !! i with
    | None => Some st
    | Some pid =>
      p ← pieceById st pid;
      '(st', mg', m) ← scanNeigh o st mg p (neighbours st p);
      let merged' := merged || m in
      if merged' && lockOnSnap o then Some st'
      else scanMembers fuel' o st' mg' (S i) merged'
    end
  end.

(** Every visited member was in [movedG] at the start or came from a
    registered cluster, which bounds the number of iterations. *)
Definition scanFuel (st : Puzzle) (mg : Group) : nat :=
  S (length (members mg) + sum_list (length ∘ members <$> groups st)).

Definition trySnapAndMerge (o : Options) (st : Puzzle) (mg : Group) : Exc Puzzle :=
  scanMembers (scanFuel st mg) o st mg 0 false.

(** *** Pointer handlers *)

(** The registry part of [_handleDown]: the hit cluster is deleted and
    re-inserted, which moves it to the end of the iteration order. *)
Definition promote (k : Gid) (st : Puzzle) : Exc Puzzle :=
  g ← reg_get k (groups st);
  Some (with_groups st
          (reg_set (mkGroup k (members g) (pos g)) (reg_delete k (groups st)))).

(** [_handleUp] *)
Definition handleUp (o : Options) (st : Puzzle) : Exc Puzzle :=
  match drag st with
  | None => Some st
  | Some d =>
    movedG ← reg_get (groupId d) (groups st);
    st' ← trySnapAndMerge o st movedG;
    Some (with_drag st' None)
  end.

(** A whole drag gesture as far as the registry is concerned: the pointer
    goes down on a piece of cluster [k] ([promote]), the frames of [update]
    bring the cluster to the offset [p], and the state is the one
    [_handleUp] finds.  The pointer-to-cluster offset plays no part on
    release. *)
Definition dragTo (k : Gid) (p : Pt) (st : Puzzle) : Exc Puzzle :=
  st1 ← promote k st;
  g ← reg_get k (groups st1);
  Some (with_drag
          (with_groups st1 (reg_store (mkGroup k (members g) p) (groups st1)))
          (Some (mkDrag k 0 0 p))).

Definition dragAndRelease (o : Options) (k : Gid) (p : Pt) (st : Puzzle) : Exc Puzzle :=
  dragTo k p st ≫= handleUp o.


(** *** [_update]: the drag easing *)

(** The step [(dx,dy)] after easing and clamping. *)
Definition easedStep (e : Easing) (p t : Pt) : R * R :=
  let dx := (IZR (px t - px p) * dragLerp e)%R in
  let dy := (IZR (py t - py p) * dragLerp e)%R in
  let len := sqrt (dx * dx + dy * dy) in
  if Rlt_dec (maxStepPerFrame e) len then
    let s := (maxStepPerFrame e / (if Req_EM_T len 0 then 1 else len))%R in
    ((dx * s)%R, (dy * s)%R)
  else (dx, dy).

Definition update (e : Easing) (st : Puzzle) : Exc Puzzle :=
  match drag st with
  | None => Some st
  | Some d =>
    g ← reg_get (groupId d) (groups st);
    let s := easedStep e (pos g) (dragTarget d) in
    let p' := mkPt (js_round (IZR (px (pos g)) + s.1))
                   (js_round (IZR (py (pos g)) + s.2)) in
    Some (with_groups st (reg_store (mkGroup (gid g) (members g) p') (groups st)))
  end.

(** [Math.round] on a rational. *)
Definition js_roundQ (q : Q) : Z := Qfloor (q + (1 # 2))%Q.

(** [_handleMove] at the canvas point [(x,y)]. *)
Definition handleMove (st : Puzzle) (x y : Q) : Puzzle :=
  match drag st with
  | None => st
  | Some d =>
    with_drag st
      (Some (mkDrag (groupId d) (offsetX d) (offsetY d)
               (mkPt (js_roundQ (x - offsetX d)) (js_roundQ (y - offsetY d)))))
  end.

(** *** [_hitTest] *)

Definition Qltb (a b : Q) : bool := negb (Qle_bool b a).

(** [x < wx || y < wy || x > wx + p.size.w || y > wy + p.size.h] *)
Definition outsideBox (x y : Q) (w : Pt) (p : Piece) : bool :=
  Qltb x (inject_Z (px w)) || Qltb y (inject_Z (py w))
  || Qltb (inject_Z (px w + sizeW p)) x || Qltb (inject_Z (py w + sizeH p)) y.

Section HitTest.

(** The canvas primitive [isPointInPath(.., 'nonzero')], as a function of
    the translation in force while the path was built, of the points
    handed to the path, and of the query point. *)
Variable isPointInPath : Pt -> list Pt -> Q -> Q -> bool.

(** The inner loop, over the members of [g] from last to first. *)
Fixpoint hitMembers (st : Puzzle) (g : Group) (ms : list nat) (x y : Q)
    : Exc (option Piece) :=
  match ms with
  | [] => Some None
  | pid :: rest =>
    p ← pieceById st pid;
    let w := pt_add (target p) (pos g) in
    if outsideBox x y w p then hitMembers st g rest x y
    else
      path ← Edges.pathFn (board st) (edges st) (pr p) (pc p);
      if isPointInPath w path (x - inject_Z (px w))%Q (y - inject_Z (py w))%Q
      then Some (Some p)
      else hitMembers st g rest x y
  end.

(** The outer loop, over the clusters from last to first. *)
Fixpoint hitGroups (st : Puzzle) (gs : list Group) (x y : Q) : Exc (option Piece) :=
  match gs with
  | [] => Some None
  | g :: rest =>
    r ← hitMembers st g (reverse (members g)) x y;
    match r with
    | Some p => Some (Some p)
    | None => hitGroups st rest x y
    end
  end.

Definition hitTest (st : Puzzle) (x y : Q) : Exc (option Piece) :=
  hitGroups st (reverse (groups st)) x y.

(** [_handleDown] at the canvas point [(x,y)]: the hit piece's cluster
    becomes the dragged one and is re-inserted last in the registry. *)
Definition handleDown (st : Puzzle) (x y : Q) : Exc Puzzle :=
  hit ← hitTest st x y;
  match hit with
  | None => Some st
  | Some p =>
    k ← pieceToGroup st !! id p;
    g ← reg_get k (groups st);
    world ← pieceWorldPos st (id p);
    let d := mkDrag k (x - inject_Z (px world))%Q (y - inject_Z (py world))%Q (pos g) in
    Some (with_drag
            (with_groups st
               (reg_set (mkGroup k (members g) (pos g)) (reg_delete k (groups st))))
            (Some d))
  end.

End HitTest.

(** ** The registry invariant *)

Definition pieceIds (st : Puzzle) : list nat := id <$> pieces st.

(** Keys are unique (a [Map]), member lists are duplicate-free (a [Set]),
    every member is a piece whose index entry names the cluster holding it,
    and every piece is a member of some registered cluster. *)
Definition Inv (st : Puzzle) : Prop :=
  NoDup (gid <$> groups st)
  ∧ Forall (fun g => NoDup (members g)) (groups st)
  ∧ Forall (fun g =>
              Forall (fun i => pieceToGroup st !! i = Some (gid g) ∧ i ∈ pieceIds st)
                     (members g))
           (groups st)
  ∧ Forall (fun i => Exists (fun g => i ∈ members g) (groups st)) (pieceIds st).

#[global] Instance Inv_dec st : Decision (Inv st).
Proof. unfold Inv. apply _. Defined.

(** The catalogue and the tables are the ones [init] builds. *)
Definition Catalogued (st : Puzzle) : Prop :=
  pieces st = createPieces (board st)
  ∧ edges st = Edges.buildSharedEdges (board st).

(** The total number of members over all clusters. *)
Definition memberCount (st : Puzzle) : nat :=
  sum_list (length ∘ members <$> groups st).

(** The test [_trySnapAndMerge] performs on the pair [(p,q)]: [None] if it
    throws, [Some false] if [q] is skipped, [Some true] if it snaps. *)
Definition snapTest (o : Options) (st : Puzzle) (mg : Group) (p q : Piece) : Exc bool :=
  k ← pieceToGroup st !! id q;
  if decide (k = gid mg) then Some false
  else gQ ← reg_get k (groups st); Some (closeEnough o mg (idealOffset p q gQ)).

(** No neighbour of the member [i] snaps. *)
Definition quiet (o : Options) (st : Puzzle) (mg : Group) (i : nat) : Prop :=
  ∃ p, pieceById st i = Some p
       ∧ Forall (fun q => snapTest o st mg p q = Some false) (neighbours st p).


(** An edge polyline whose lateral offset ([lat] is [py] for a horizontal
    edge, [px] for a vertical one) vanishes at its first and last point. *)
Definition lateralPinned (lat : Pt -> Z) (poly : list Pt) : Prop :=
  ∃ a z, poly !! 0%nat = Some a ∧ poly !! Edges.N = Some z
         ∧ lat a = 0%Z ∧ lat z = 0%Z.

(** The coordinate [along] never decreases from one point to the next. *)
Definition monotoneAlong (along : Pt -> Z) (poly : list Pt) : Prop :=
  ∀ i j p q, i ≤ j -> poly !! i = Some p -> poly !! j = Some q ->
             (along p <= along q)%Z.

(** First and last point sit at [0] and at the cell size along the edge. *)
Definition spansCell (along : Pt -> Z) (size : Z) (poly : list Pt) : Prop :=
  ∃ a z, poly !! 0%nat = Some a ∧ poly !! Edges.N = Some z
         ∧ along a = 0%Z ∧ along z = size.

(** ** Outlines *)

(** The closed outline [pathFn] traces: a segment from each point to the
    next ([lineTo]) and one from the last point back to the first
    ([closePath]). *)
Definition outlineEdges (path : list Pt) : list (Pt * Pt) :=
  zip path (drop 1 path ++ take 1 path).

(** [q] lies on the segment from [a] to [b]: the three points are
    collinear and [q] is inside the segment's bounding box. *)
Definition onSegment (a b q : Pt) : bool :=
  (((px b - px a) * (py q - py a) - (py b - py a) * (px q - px a) =? 0)
   && (Z.min (px a) (px b) <=? px q) && (px q <=? Z.max (px a) (px b))
   && (Z.min (py a) (py b) <=? py q) && (py q <=? Z.max (py a) (py b)))%Z.

(** [q] lies on the outline of a piece drawn with its corner at [origin]
    ([ctx.translate(wx, wy)] before [pathFn]). *)
Definition onOutline (path : list Pt) (origin q : Pt) : bool :=
  existsb (fun ab => onSegment (pt_add origin ab.1) (pt_add origin ab.2) q)
          (outlineEdges path).

(** ** Sample boards *)

(** Six distinct cluster identifiers, standing for six UUID draws. *)
Definition sampleId (k : nat) : Gid :=
  match k with
  | 0 => "g0" | 1 => "g1" | 2 => "g2" | 3 => "g3" | 4 => "g4" | _ => "g5"
  end%string.

(** A row of [n] cells of 100x100 pixels with the board origin at [(0,0)],
    right after [init]: piece [k] is alone in cluster [sampleId k]. *)
Definition rowBoard (n : nat) : Board := mkBoard 1 n 100 100 0 0.
Definition rowPuzzle (n : nat) : Puzzle := init sampleId (rowBoard n).

(** The default options, and the same with [lockOnSnap] off. *)
Definition defaultOptions : Options := mkOptions 14 true.
Definition multiSnapOptions : Options := mkOptions 14 false.

(** The state a run of gestures ends in (the empty board if it threw). *)
Definition stateOf (r : Exc Puzzle) : Puzzle := default (rowPuzzle 0) r.

(** A row of two: piece 1 has been dragged to three pixels from the offset
    at which it snaps onto piece 0. *)
Definition pairDragged : Exc Puzzle := dragTo "g1" (mkPt (-95) 3) (rowPuzzle 2).

(** A row of two: piece 0 has been dragged three pixels to the right of and
    two pixels below the place where its right edge meets the left edge of
    piece 1. *)
Definition pairAligned : Exc Puzzle := dragTo "g0" (mkPt 3 2) (rowPuzzle 2).

(** A row of six with [lockOnSnap] off.  Three releases build the clusters
    [{0,1}], [{4,5}] and [{3,2}] (each time a piece is dropped on its
    neighbour).  Cluster [{3,2}] is parked 300 pixels below the row, cluster
    [{0,1}] is moved 200 pixels to the right into the free space (nothing
    snaps), and cluster [{3,2}] is then dragged to the offset [(100,0)],
    where piece 3 lies on piece 4 and piece 2 on piece 1. *)
Definition sixRowDragged : Exc Puzzle :=
  st ← dragAndRelease multiSnapOptions "g1" (mkPt (-100) 0) (rowPuzzle 6);
  st ← dragAndRelease multiSnapOptions "g5" (mkPt (-100) 0) st;
  st ← dragAndRelease multiSnapOptions "g2" (mkPt 100 0) st;
  st ← dragAndRelease multiSnapOptions "g3" (mkPt 0 300) st;
  st ← dragAndRelease multiSnapOptions "g0" (mkPt 200 0) st;
  dragTo "g3" (mkPt 100 0) st.

(** A row of two: piece 0 has been dragged onto piece 1, its right
    neighbour, three pixels to the left of and two pixels below the place
    of piece 1 itself. *)
Definition pairDraggedRight : Exc Puzzle := dragTo "g0" (mkPt 97 2) (rowPuzzle 2).

(** The default easing: [maxStepPerFrame = 10], [dragLerp = 0.2]. *)
Definition defaultEasing : Easing := mkEasing 10 (2 / 10).

(** A single piece at offset [(0,0)], grabbed at its corner, with the
    pointer then moved to [(100,100)]. *)
Definition pulledDiagonally : Puzzle :=
  handleMove (stateOf (dragTo "g0" (mkPt 0 0) (rowPuzzle 1))) 100 100.

(** Two rows, one column, 100x50 cells: the top piece has been parked 1000
    pixels to the right, the bottom piece is at its target. *)
Definition columnBoard : Board := mkBoard 2 1 100 50 0 0.
Definition columnApart : Exc Puzzle :=
  dragAndRelease defaultOptions "g0" (mkPt 1000 0) (init sampleId columnBoard).

(** A session: drag gestures, each a cluster and the offset it is released
    at, played one after the other. *)
Fixpoint play (o : Options) (gestures : list (Gid * Pt)) (st : Puzzle) : Exc Puzzle :=
  match gestures with
  | [] => Some st
  | kp :: rest => st' ← dragAndRelease o kp.1 kp.2 st; play o rest st'
  end.

(** ** Layout: the geometry [init] computes

    [canvas.width], [canvas.height] and the natural size of the image are
    integers; [viewPadding] is taken to be an integer number of pixels (its
    default is 24). *)

Record Canvas := mkCanvas { canvasW : Z; canvasH : Z }.
Record Image := mkImage { imageW : Z; imageH : Z }.

(** [innerW = canvas.width - viewPadding*2] *)
Definition innerW (cv : Canvas) (viewPadding : Z) : Z := canvasW cv - viewPadding * 2.
Definition innerH (cv : Canvas) (viewPadding : Z) : Z := canvasH cv - viewPadding * 2.

(** [scale = Math.min(innerW / image.width, innerH / image.height)] *)
Definition fitScale (cv : Canvas) (viewPadding : Z) (img : Image) : R :=
  Rmin (IZR (innerW cv viewPadding) / IZR (imageW img))
       (IZR (innerH cv viewPadding) / IZR (imageH img)).

(** [drawW = Math.round(image.width * scale)] *)
Definition drawW (cv : Canvas) (viewPadding : Z) (img : Image) : Z :=
  js_round (IZR (imageW img) * fitScale cv viewPadding img).
Definition drawH (cv : Canvas) (viewPadding : Z) (img : Image) : Z :=
  js_round (IZR (imageH img) * fitScale cv viewPadding img).

(** [cell] and [bounds] as [init] assigns them, for [nr] rows and [nc]
    columns. *)
Definition layout (cv : Canvas) (viewPadding : Z) (img : Image) (nr nc : nat) : Board :=
  {| rows := nr;
     cols := nc;
     cellW := js_floor (IZR (drawW cv viewPadding img) / INR nc);
     cellH := js_floor (IZR (drawH cv viewPadding img) / INR nr);
     boundsX := js_floor (IZR (canvasW cv - drawW cv viewPadding img) / 2);
     boundsY := js_floor (IZR (canvasH cv - drawH cv viewPadding img) / 2) |}.

(** [bounds.w] and [bounds.h]: [init] sets them to [cell.w * cols] and
    [cell.h * rows]. *)
Definition boundsW (b : Board) : Z := cellW b * Z.of_nat (cols b).
Definition boundsH (b : Board) : Z := cellH b * Z.of_nat (rows b).

(** ** [shuffle] and [_separateGroups] *)

(** [this._pieceById([...g.members][0])]: [None] when the member set is
    empty (the lookup gives [undefined] and the next property read
    throws). *)
Definition firstPiece (st : Puzzle) (g : Group) : Exc Piece :=
  i ← head (members g); pieceById st i.



(** One step of the innermost loop of [_separateGroups], on the array
    [arr] of cluster objects (the registry's own objects, in its order):
    clusters [i] and [j] are pushed apart along the line through their
    first pieces when these are closer than [minD] and do not coincide. *)
Definition pushPair (st : Puzzle) (arr : list Group) (i j : nat) : Exc (list Group) :=
  g1 ← arr !! i;
  g2 ← arr !! j;
  p1 ← firstPiece st g1;
  p2 ← firstPiece st g2;
  let dx := ((px (target p2) + px (pos g2)) - (px (target p1) + px (pos g1)))%Z in
  let dy := ((py (target p2) + py (pos g2)) - (py (target p1) + py (pos g1)))%Z in
  let d := sqrt (IZR dx * IZR dx + IZR dy * IZR dy) in
  let minD := (IZR (Z.min (cellW (board st)) (cellH (board st))) * (8 / 10))%R in
  if Rlt_dec d minD then
    if Rlt_dec 0 d then
      let push := ((minD - d) / 2)%R in
      let v := mkPt (js_round (IZR dx / d * push)) (js_round (IZR dy / d * push)) in
      Some (<[j := mkGroup (gid g2) (members g2) (pt_add (pos g2) v)]>
              (<[i := mkGroup (gid g1) (members g1) (pt_sub (pos g1) v)]> arr))
    else Some arr
  else Some arr.

(** The index pairs [(i,j)], [i < j < n], in the order of the two inner
    loops. *)
Definition separatePairs (n : nat) : list (nat * nat) :=
  flat_map (fun i => pair i <$> seq (S i) (n - S i)) (seq 0 n).

(** One round [k] of [_separateGroups]. *)
Definition separatePass (st : Puzzle) (arr : list Group) : Exc (list Group) :=
  foldl (fun acc ij => acc ≫= fun a => pushPair st a ij.1 ij.2)
        (Some arr) (separatePairs (length arr)).

Fixpoint separateLoop (iter : nat) (st : Puzzle) (arr : list Group) : Exc (list Group) :=
  match iter with
  | O => Some arr
  | S k => arr' ← separatePass st arr; separateLoop k st arr'
  end.

(** [_separateGroups(iter)] *)
Definition separateGroups (iter : nat) (st : Puzzle) : Exc Puzzle :=
  arr ← separateLoop iter st (groups st);
  Some (with_groups st arr).


(** The sum of the offsets of a list of clusters. *)
Definition offsetSum (gs : list Group) : Pt :=
  foldr (fun g acc => pt_add (pos g) acc) (mkPt 0 0) gs.

(** ** [_draw] *)

(** One iteration of the inner loop of [_draw]: the translation, the path
    the piece is clipped to, and the arguments of [drawImage]. *)
Record Paint := mkPaint {
  painted : Piece;
  origin : Pt;
  outline : list Pt;
  srcX : R;
  srcY : R;
  srcW : R;
  srcH : R;
  dstW : Z;
  dstH : Z
}.

Definition paintPiece (img : Image) (st : Puzzle) (g : Group) (pid : nat) : Exc Paint :=
  p ← pieceById st pid;
  path ← Edges.pathFn (board st) (edges st) (pr p) (pc p);
  let b := board st in
  Some {| painted := p;
          origin := pt_add (target p) (pos g);
          outline := path;
          srcX := (INR (pc p) * IZR (cellW b) / IZR (boundsW b) * IZR (imageW img))%R;
          srcY := (INR (pr p) * IZR (cellH b) / IZR (boundsH b) * IZR (imageH img))%R;
          srcW := (IZR (imageW img) / INR (cols b))%R;
          srcH := (IZR (imageH img) / INR (rows b))%R;
          dstW := cellW b;
          dstH := cellH b |}.

(** The pieces [_draw] paints, in order: clusters in registry order, the
    members of each in insertion order.  (Before them the board rectangle
    [bounds] is filled.) *)
Definition draw (img : Image) (st : Puzzle) : Exc (list Paint) :=
  calls ← mapM (fun g => mapM (paintPiece img st g) (members g)) (groups st);
  Some (mjoin calls).

(** ** Sessions *)

(** [n] calls of [_update] in a row. *)
Fixpoint frames (e : Easing) (n : nat) (st : Puzzle) : Exc Puzzle :=
  match n with
  | O => Some st
  | S k => st' ← update e st; frames e k st'
  end.



Section Session.

Variable isPointInPath : Pt -> list Pt -> Q -> Q -> bool.
Variables (o : Options) (e : Easing) (cv : Canvas) (img : Image) (noOverlap : bool).



End Session.


(** The cell at grid distance one: [q] is left, right, above or below [p]. *)
Definition adjacent (p q : Piece) : Prop :=
  (pr q = pr p ∧ (pc q = pc p + 1 ∨ pc p = pc q + 1))
  ∨ (pc q = pc p ∧ (pr q = pr p + 1 ∨ pr p = pr q + 1)).

(** Whether the piece of a paint call lies under the canvas point [(x,y)],
    by the two tests of [_hitTest]. *)
Definition covers (isPointInPath : Pt -> list Pt -> Q -> Q -> bool)
    (x y : Q) (c : Paint) : bool :=
  negb (outsideBox x y (origin c) (painted c))
  && isPointInPath (origin c) (outline c)
       (x - inject_Z (px (origin c)))%Q (y - inject_Z (py (origin c)))%Q.

(** The offset [_update] assigns to a dragged cluster at [p] whose drag
    target is [t]. *)
Definition easedPos (e : Easing) (p t : Pt) : Pt :=
  mkPt (js_round (IZR (px p) + (easedStep e p t).1))
       (js_round (IZR (py p) + (easedStep e p t).2)).

(** The city-block distance between two offsets. *)
Definition blockDist (p t : Pt) : Z := Z.abs (px t - px p) + Z.abs (py t - py p).

(** What the invariant sees of a cluster: its identifier and its members. *)
Definition clusterShape (g : Group) : Gid * list nat := (gid g, members g).

(** The vector from the first piece of [g1] to the first piece of [g2], in
    world coordinates. *)
Definition firstGap (p1 p2 : Piece) (g1 g2 : Group) : Pt :=
  mkPt ((px (target p2) + px (pos g2)) - (px (target p1) + px (pos g1)))
       ((py (target p2) + py (pos g2)) - (py (target p1) + py (pos g1))).

(** [minD = Math.min(cell.w, cell.h) * 0.8] *)
Definition minGap (b : Board) : R := (IZR (Z.min (cellW b) (cellH b)) * (8 / 10))%R.

(** A row of two whose second piece has been moved 50 pixels to the left:
    the first pieces of the two clusters are 50 pixels apart, closer than
    [minD = 80]. *)
Definition closePair : Puzzle :=
  with_groups (rowPuzzle 2)
    [mkGroup "g0" [0] (mkPt 0 0); mkGroup "g1" [1] (mkPt (-50) 0)].




(** ** The first version of the class

    [src/new/puzzle.js] opens with an earlier [OceanPuzzle] class, in which
    cluster offsets and drag targets are not rounded and every piece draws
    wavy edges of its own.  Its [_update] and the [pathFn] of its
    [_createPieces] are modelled here, with offsets over the reals. *)

Module Legacy.

Record Group := mkGroup { gid : Gid; members : list nat; pos : R * R }.

Record Drag := mkDrag {
  groupId : Gid;
  offsetX : R;
  offsetY : R;
  target : R * R
}.

(** The fields [_update] reads and writes. *)
Record State := mkState { groups : list Group; drag : option Drag }.

(** [groups.get(k)] *)
Definition get (k : Gid) (gs : list Group) : option Group :=
  List.find (fun g => bool_decide (gid g = k)) gs.

(** An assignment to the fields of a registered cluster object. *)
Definition store (g : Group) (gs : list Group) : list Group :=
  (fun h => if decide (gid h = gid g) then g else h) <$> gs.

(** The step [(dx,dy)] after easing and clamping. *)
Definition step (e : Easing) (p t : R * R) : R * R :=
  let dx := ((t.1 - p.1) * dragLerp e)%R in
  let dy := ((t.2 - p.2) * dragLerp e)%R in
  let len := sqrt (dx * dx + dy * dy) in
  if Rlt_dec (maxStepPerFrame e) len then
    let s := (maxStepPerFrame e / (if Req_EM_T len 0 then 1 else len))%R in
    ((dx * s)%R, (dy * s)%R)
  else (dx, dy).

(** [_update]: [g.pos.x += dx; g.pos.y += dy], with no rounding. *)
Definition update (e : Easing) (st : State) : Exc State :=
  match drag st with
  | None => Some st
  | Some d =>
    g ← get (groupId d) (groups st);
    let s := step e (pos g) (target d) in
    Some (mkState
            (store (mkGroup (gid g) (members g)
                      ((pos g).1 + s.1, (pos g).2 + s.2)%R) (groups st))
            (drag st))
  end.

Fixpoint frames (e : Easing) (n : nat) (st : State) : Exc State :=
  match n with
  | O => Some st
  | S k => st' ← update e st; frames e k st'
  end.

(** The vector from a cluster offset to the drag target. *)
Definition gap (p t : R * R) : R * R := ((t.1 - p.1)%R, (t.2 - p.2)%R).

(** [const N = 5] *)
Definition N : nat := 5.

(** [6*Math.sin(t*Math.PI*2 + seed)*0.5] *)
Definition wave (t : R) (seed : nat) : R := (6 * sin (t * PI * 2 + INR seed) * (5 / 10))%R.

(** The [i]-th point of each of the four sides of the piece at [(r,c)], in
    the piece's own frame, for cells of [w] by [h] pixels. *)
Definition topPoint (w h : Z) (r c i : nat) : R * R :=
  let t := (INR i / INR N)%R in
  ((t * IZR w)%R, wave t (r * 13 + c * 7)).

Definition rightPoint (w h : Z) (r c i : nat) : R * R :=
  let t := (INR i / INR N)%R in
  ((IZR w + wave t (r * 17 + c * 11))%R, (t * IZR h)%R).

Definition bottomPoint (w h : Z) (r c i : nat) : R * R :=
  let t := (INR i / INR N)%R in
  ((IZR w - t * IZR w)%R, (IZR h + wave t (r * 19 + c * 5))%R).

Definition leftPoint (w h : Z) (r c i : nat) : R * R :=
  let t := (INR i / INR N)%R in
  ((0 + wave t (r * 23 + c * 3))%R, (IZR h - t * IZR h)%R).

(** The points of [pathFn]: [moveTo(0,0)], then [lineTo] along the top,
    right, bottom and left sides, [i = 1..N] on each. *)
Definition pathFn (w h : Z) (r c : nat) : list (R * R) :=
  (0%R, 0%R)
  :: (topPoint w h r c <$> seq 1 N) ++ (rightPoint w h r c <$> seq 1 N)
  ++ (bottomPoint w h r c <$> seq 1 N) ++ (leftPoint w h r c <$> seq 1 N).

End Legacy.
(** * Properties *)

(** ** Rounding and the sine samples *)

Section Rounding.
Local Open Scope R_scope.

Lemma js_round_IZR (z : Z) : js_round (IZR z) = z.
Proof. unfold js_round. apply Zfloor_eq. lra. Qed.

Lemma js_round_mono (x y : R) : x <= y -> (js_round x <= js_round y)%Z.
Proof. intros H. unfold js_round. apply Zfloor_le. lra. Qed.

Lemma js_round_near (x : R) : Rabs (IZR (js_round x) - x) <= / 2.
Proof.
  unfold js_round. pose proof (Zfloor_bound (x + / 2)) as [H1 H2].
  apply Rabs_le. lra.
Qed.

Lemma js_round_neg (x : R) : x < - / 2 -> (js_round x < 0)%Z.
Proof.
  intros H. unfold js_round. pose proof (Zfloor_bound (x + / 2)) as [H1 _].
  apply lt_IZR. lra.
Qed.

Lemma PI_lower : 313 / 100 < PI.
Proof.
  destruct (PI_2_3_7_ineq 0) as [Hlo _].
  unfold sum_f_R0, tg_alt, PI_2_3_7_tg, Ratan_seq in Hlo. simpl in Hlo. lra.
Qed.

Lemma PI_upper : PI < 33 / 10.
Proof.
  destruct (PI_2_3_7_ineq 0) as [_ Hhi].
  unfold sum_f_R0, tg_alt, PI_2_3_7_tg, Ratan_seq in Hhi. simpl in Hhi. lra.
Qed.

(** [31 = 10 PI - a] with [a] between 0.3 and 2, where the sine is bounded
    below by its cubic Taylor polynomial. *)
Lemma sin_31 : sin 31 < - (1 / 8).
Proof.
  pose proof PI_lower. pose proof PI_upper.
  set (a := 10 * PI - 31).
  assert (Ha : 3 / 10 <= a <= 2) by (unfold a; lra).
  assert (E : sin 31 = - sin a).
  { rewrite <- sin_neg, <- (sin_period (- a) 5). f_equal. unfold a. simpl. ring. }
  rewrite E.
  destruct (pre_sin_bound a 0) as [Hlo _]; [lra | lra |].
  unfold sin_approx, sum_f_R0, sin_term in Hlo. simpl in Hlo.
  assert (a * a <= 4) by nra.
  nra.
Qed.

End Rounding.

(** ** The edge tables *)

Module EdgeFacts.
Import Edges.

Lemma param_0 : param 0 = 0%R.
Proof. unfold param. simpl. lra. Qed.

Lemma param_N : param N = 1%R.
Proof. unfold param. apply Rdiv_diag. unfold N. apply not_0_INR. lia. Qed.

Lemma param_mono (i j : nat) : i ≤ j -> (param i <= param j)%R.
Proof.
  intros H. unfold param. apply Rmult_le_compat_r.
  - apply Rlt_le, Rinv_0_lt_compat. unfold N. apply lt_0_INR. lia.
  - apply le_INR. lia.
Qed.

Lemma wave_ends (seed : nat) (a : Z) : wave (param N) seed a = wave (param 0) seed a.
Proof.
  unfold wave. rewrite param_N, param_0. do 2 f_equal.
  rewrite <- (sin_period (0 * 2 * PI + INR seed) 1). f_equal. simpl. ring.
Qed.

Lemma at2_hEdges (b : Board) (r c : nat) :
  r ≤ rows b -> c < cols b ->
  at2 (hEdges (buildSharedEdges b)) r c = Some (hPoly b r c).
Proof.
  intros Hr Hc. unfold at2, buildSharedEdges. cbn [hEdges].
  rewrite list_lookup_fmap, lookup_seq_lt by lia. cbn [fmap option_fmap option_map mbind option_bind].
  rewrite list_lookup_fmap, lookup_seq_lt by lia. reflexivity.
Qed.

Lemma at2_vEdges (b : Board) (c r : nat) :
  c ≤ cols b -> r < rows b ->
  at2 (vEdges (buildSharedEdges b)) c r = Some (vPoly b c r).
Proof.
  intros Hc Hr. unfold at2, buildSharedEdges. cbn [vEdges].
  rewrite list_lookup_fmap, lookup_seq_lt by lia. cbn [fmap option_fmap option_map mbind option_bind].
  rewrite list_lookup_fmap, lookup_seq_lt by lia. reflexivity.
Qed.

Lemma hPoly_lookup (b : Board) (r c i : nat) :
  i ≤ N -> hPoly b r c !! i = Some (hPoint b r c i).
Proof. intros H. unfold hPoly. rewrite list_lookup_fmap, lookup_seq_lt by lia. reflexivity. Qed.

Lemma vPoly_lookup (b : Board) (c r i : nat) :
  i ≤ N -> vPoly b c r !! i = Some (vPoint b c r i).
Proof. intros H. unfold vPoly. rewrite list_lookup_fmap, lookup_seq_lt by lia. reflexivity. Qed.

Lemma hPoly_inv (b : Board) (r c i : nat) (p : Pt) :
  hPoly b r c !! i = Some p -> i ≤ N ∧ p = hPoint b r c i.
Proof.
  intros H. assert (i < S N).
  { apply lookup_lt_Some in H. unfold hPoly in H. rewrite length_fmap, length_seq in H. lia. }
  rewrite hPoly_lookup in H by lia. split; [lia | congruence].
Qed.

Lemma vPoly_inv (b : Board) (c r i : nat) (p : Pt) :
  vPoly b c r !! i = Some p -> i ≤ N ∧ p = vPoint b c r i.
Proof.
  intros H. assert (i < S N).
  { apply lookup_lt_Some in H. unfold vPoly in H. rewrite length_fmap, length_seq in H. lia. }
  rewrite vPoly_lookup in H by lia. split; [lia | congruence].
Qed.



(** The perimeter polylines are straight: every point of a horizontal
    edge with [r = 0] or [r = rows], and of a vertical edge with [c = 0] or
    [c = cols], has lateral offset zero. *)
Lemma perimeter_straight (b : Board) (r c : nat) :
  (c < cols b -> r = 0 ∨ r = rows b ->
     ∃ poly, at2 (hEdges (buildSharedEdges b)) r c = Some poly
             ∧ length poly = S N ∧ Forall (fun p => py p = 0%Z) poly)
  ∧ (r < rows b -> c = 0 ∨ c = cols b ->
     ∃ poly, at2 (vEdges (buildSharedEdges b)) c r = Some poly
             ∧ length poly = S N ∧ Forall (fun p => px p = 0%Z) poly).
Proof.
  split; intros Hin Hb.
  - exists (hPoly b r c). rewrite at2_hEdges by lia. split; [done|]. split.
    { unfold hPoly. by rewrite length_fmap, length_seq. }
    apply Forall_lookup. intros i p Hp. apply hPoly_inv in Hp as [_ ->].
    unfold hPoint. simpl.
    destruct Hb as [-> | ->]; [done|]. rewrite Nat.eqb_refl, orb_true_r. done.
  - exists (vPoly b c r). rewrite at2_vEdges by lia. split; [done|]. split.
    { unfold vPoly. by rewrite length_fmap, length_seq. }
    apply Forall_lookup. intros i p Hp. apply vPoly_inv in Hp as [_ ->].
    unfold vPoint. simpl.
    destruct Hb as [-> | ->]; [done|]. rewrite Nat.eqb_refl, orb_true_r. done.
Qed.

Lemma amp_50 : amp 50 = 4%Z.
Proof.
  unfold amp, js_floor. rewrite (Zfloor_eq 4); [reflexivity | lra].
Qed.

Lemma hPoint_mono (b : Board) (r c i j : nat) :
  (0 <= cellW b)%Z -> i ≤ j -> (px (hPoint b r c i) <= px (hPoint b r c j))%Z.
Proof.
  intros Hw Hij. unfold hPoint. cbn [px]. apply js_round_mono.
  apply Rmult_le_compat_r; [by apply IZR_le | by apply param_mono].
Qed.

Lemma vPoint_mono (b : Board) (c r i j : nat) :
  (0 <= cellH b)%Z -> i ≤ j -> (py (vPoint b c r i) <= py (vPoint b c r j))%Z.
Proof.
  intros Hw Hij. unfold vPoint. cbn [py]. apply js_round_mono.
  apply Rmult_le_compat_r; [by apply IZR_le | by apply param_mono].
Qed.

Lemma along_0 (w : Z) : js_round (param 0 * IZR w) = 0%Z.
Proof. rewrite param_0, Rmult_0_l. apply (js_round_IZR 0). Qed.

Lemma along_N (w : Z) : js_round (param N * IZR w) = w.
Proof. rewrite param_N, Rmult_1_l. apply js_round_IZR. Qed.

(** What holds of every edge polyline of the tables, interior or
    perimeter: it has [N+1] points, never decreases along its primary axis,
    and its first and last points sit exactly at [0] and at the cell size
    along that axis.  On the perimeter edges the lateral offset is zero at
    both ends.  (On an interior edge the ends carry the sampled sine
    [round(sin(seed) * amp)], which nothing forces to zero.) *)
Lemma polyline_shape (b : Board) (r c : nat) :
  (0 <= cellW b)%Z -> (0 <= cellH b)%Z ->
  (r ≤ rows b -> c < cols b ->
     ∃ poly, at2 (hEdges (buildSharedEdges b)) r c = Some poly
             ∧ length poly = S N
             ∧ monotoneAlong px poly
             ∧ spansCell px (cellW b) poly
             ∧ (r = 0 ∨ r = rows b -> lateralPinned py poly))
  ∧ (c ≤ cols b -> r < rows b ->
     ∃ poly, at2 (vEdges (buildSharedEdges b)) c r = Some poly
             ∧ length poly = S N
             ∧ monotoneAlong py poly
             ∧ spansCell py (cellH b) poly
             ∧ (c = 0 ∨ c = cols b -> lateralPinned px poly)).
Proof.
  intros Hw Hh. split; intros H1 H2.
  - exists (hPoly b r c). rewrite at2_hEdges by lia. split; [done|].
    split; [unfold hPoly; by rewrite length_fmap, length_seq|].
    split.
    { intros i j p q Hij Hp Hq.
      apply hPoly_inv in Hp as [_ ->]. apply hPoly_inv in Hq as [_ ->].
      by apply hPoint_mono. }
    split.
    { exists (hPoint b r c 0), (hPoint b r c N).
      rewrite !hPoly_lookup by (unfold N; lia).
      repeat split; unfold hPoint; cbn [px]; [apply along_0 | apply along_N]. }
    intros Hb. exists (hPoint b r c 0), (hPoint b r c N).
    rewrite !hPoly_lookup by (unfold N; lia).
    assert ((r =? 0) || (r =? rows b) = true) as E.
    { destruct Hb as [-> | ->]; [done|]. by rewrite Nat.eqb_refl, orb_true_r. }
    repeat split; unfold hPoint; cbn [py]; by rewrite E.
  - exists (vPoly b c r). rewrite at2_vEdges by lia. split; [done|].
    split; [unfold vPoly; by rewrite length_fmap, length_seq|].
    split.
    { intros i j p q Hij Hp Hq.
      apply vPoly_inv in Hp as [_ ->]. apply vPoly_inv in Hq as [_ ->].
      by apply vPoint_mono. }
    split.
    { exists (vPoint b c r 0), (vPoint b c r N).
      rewrite !vPoly_lookup by (unfold N; lia).
      repeat split; unfold vPoint; cbn [py]; [apply along_0 | apply along_N]. }
    intros Hb. exists (vPoint b c r 0), (vPoint b c r N).
    rewrite !vPoly_lookup by (unfold N; lia).
    assert ((c =? 0) || (c =? cols b) = true) as E.
    { destruct Hb as [-> | ->]; [done|]. by rewrite Nat.eqb_refl, orb_true_r. }
    repeat split; unfold vPoint; cbn [px]; by rewrite E.
Qed.

(** The first sample of the interior edge [hEdges[1][0]] of a 2x1 board
    with 100x50 cells: [round(4 * sin 31)], which is negative. *)
Lemma interior_first_sample :
  (py (hPoint (mkBoard 2 1 100 50 0 0) 1 0 0) < 0)%Z.
Proof.
  unfold hPoint. cbn [py rows cellH Nat.eqb orb]. unfold wave.
  rewrite amp_50, param_0. apply js_round_neg.
  replace (0 * 2 * PI + INR (1 * 31 + 0 * 17))%R with 31%R.
  - pose proof sin_31. lra.
  - rewrite INR_IZR_INZ.
    replace (Z.of_nat (1 * 31 + 0 * 17)) with 31%Z by reflexivity. lra.
Qed.

(** On a 2x1 board with 100x50 cells the interior edge [hEdges[1][0]]
    starts with a nonzero lateral offset. *)
Lemma interior_edge_not_pinned :
  ∃ poly, at2 (hEdges (buildSharedEdges (mkBoard 2 1 100 50 0 0))) 1 0 = Some poly
          ∧ ¬ lateralPinned py poly.
Proof.
  exists (hPoly (mkBoard 2 1 100 50 0 0) 1 0).
  split; [apply at2_hEdges; simpl; lia|].
  intros (a & z & Ha & _ & Hz & _).
  apply hPoly_inv in Ha as [_ ->].
  pose proof interior_first_sample. lia.
Qed.

End EdgeFacts.

(** ** [reset] *)

(** C9.  [reset] zeroes every cluster offset, a second [reset] changes
    nothing, and the registry keeps its clusters: same identifiers in the
    same order, same member sets, same count, same piece-to-cluster index. *)
Theorem reset_idempotent (st : Puzzle) :
  reset (reset st) = reset st
  ∧ Forall (fun g => pos g = mkPt 0 0) (groups (reset st))
  ∧ pos <$> groups (reset (reset st)) = pos <$> groups (reset st)
  ∧ members <$> groups (reset st) = members <$> groups st
  ∧ gid <$> groups (reset st) = gid <$> groups st
  ∧ length (groups (reset st)) = length (groups st)
  ∧ pieceToGroup (reset st) = pieceToGroup st.
Proof.
  assert (E : reset (reset st) = reset st).
  { unfold reset, with_groups. cbn. f_equal.
    rewrite <- list_fmap_compose. by apply list_fmap_ext. }
  split; [exact E|]. split.
  { unfold reset. cbn. apply Forall_fmap, Forall_true. done. }
  split; [by rewrite E|].
  unfold reset. cbn. rewrite <- !list_fmap_compose, length_fmap.
  repeat split; by apply list_fmap_ext.
Qed.

(** ** The registry as a map *)

Section Registry.
Implicit Types (g h : Group) (gs : list Group) (k : Gid).

Lemma reg_get_Some k gs g : reg_get k gs = Some g -> g ∈ gs ∧ gid g = k.
Proof.
  unfold reg_get. intros H. apply find_some in H as [H1 H2].
  apply list_elem_of_In in H1. by apply bool_decide_eq_true in H2.
Qed.


Lemma reg_get_cons k g gs :
  reg_get k (g :: gs) = if decide (gid g = k) then Some g else reg_get k gs.
Proof. unfold reg_get. simpl. by destruct (decide (gid g = k)); simplify_eq/=;
  [rewrite bool_decide_eq_true_2 | rewrite bool_decide_eq_false_2]. Qed.

Lemma reg_get_elem gs g : NoDup (gid <$> gs) -> g ∈ gs -> reg_get (gid g) gs = Some g.
Proof.
  induction gs as [|h t IH]; intros Hnd Hin; [by apply elem_of_nil in Hin|].
  rewrite fmap_cons in Hnd. apply NoDup_cons in Hnd as [Hh Ht].
  rewrite reg_get_cons. apply elem_of_cons in Hin as [-> | Hin].
  - by rewrite decide_True.
  - rewrite decide_False; [by apply IH|].
    intros E. apply Hh. rewrite E. by apply list_elem_of_fmap_2.
Qed.

Lemma reg_store_keys g gs : gid <$> reg_store g gs = gid <$> gs.
Proof.
  unfold reg_store. rewrite <- list_fmap_compose. apply list_fmap_ext.
  intros i h _. simpl. by case_decide.
Qed.

Lemma reg_store_length g gs : length (reg_store g gs) = length gs.
Proof. unfold reg_store. by rewrite length_fmap. Qed.

Lemma reg_store_absent g gs : gid g ∉ gid <$> gs -> reg_store g gs = gs.
Proof.
  intros H. unfold reg_store. rewrite <- (list_fmap_id gs) at 2.
  apply list_fmap_ext. intros i h Hh. simpl. case_decide as E; [|done].
  exfalso. apply H. rewrite <- E. apply list_elem_of_fmap_2.
  by apply list_elem_of_lookup_2 in Hh.
Qed.

Lemma reg_store_cons g h gs :
  reg_store g (h :: gs) = (if decide (gid h = gid g) then g else h) :: reg_store g gs.
Proof. reflexivity. Qed.

Lemma reg_delete_cons k h gs :
  reg_delete k (h :: gs) = if decide (gid h = k) then reg_delete k gs else h :: reg_delete k gs.
Proof.
  unfold reg_delete. rewrite filter_cons.
  destruct (decide (gid h = k)); [by rewrite decide_False by tauto | by rewrite decide_True].
Qed.

Lemma reg_delete_absent k gs : k ∉ gid <$> gs -> reg_delete k gs = gs.
Proof.
  induction gs as [|h t IH]; [done|]. rewrite fmap_cons, not_elem_of_cons.
  intros [H1 H2]. rewrite reg_delete_cons, decide_False by done. by rewrite IH.
Qed.

Lemma reg_delete_elem k gs g : g ∈ reg_delete k gs ↔ g ∈ gs ∧ gid g ≠ k.
Proof. unfold reg_delete. rewrite list_elem_of_filter. tauto. Qed.

Lemma reg_delete_keys k gs : gid <$> reg_delete k gs = filter (fun x => x ≠ k) (gid <$> gs).
Proof.
  induction gs as [|h t IH]; [done|].
  rewrite reg_delete_cons, fmap_cons, filter_cons.
  destruct (decide (gid h = k)).
  - by rewrite decide_False by tauto.
  - rewrite decide_True by done. by rewrite fmap_cons, IH.
Qed.

Lemma reg_get_store_eq g gs :
  gid g ∈ gid <$> gs -> reg_get (gid g) (reg_store g gs) = Some g.
Proof.
  induction gs as [|h t IH]; intros Hin; [by apply elem_of_nil in Hin|].
  rewrite reg_store_cons, reg_get_cons. destruct (decide (gid h = gid g)) as [E|E].
  - by rewrite decide_True.
  - rewrite decide_False by done. apply IH.
    rewrite fmap_cons in Hin. apply elem_of_cons in Hin as [Hin|Hin]; [congruence|done].
Qed.

Lemma reg_get_store_ne k g gs :
  k ≠ gid g -> reg_get k (reg_store g gs) = reg_get k gs.
Proof.
  intros Hk. induction gs as [|h t IH]; [done|].
  rewrite reg_store_cons, !reg_get_cons. destruct (decide (gid h = gid g)) as [E|E].
  - rewrite !decide_False by congruence. done.
  - by rewrite IH.
Qed.

Lemma reg_get_delete_ne k k' gs :
  k ≠ k' -> reg_get k (reg_delete k' gs) = reg_get k gs.
Proof.
  intros Hk. induction gs as [|h t IH]; [done|].
  rewrite reg_delete_cons, reg_get_cons. destruct (decide (gid h = k')) as [E|E].
  - rewrite decide_False by congruence. done.
  - rewrite reg_get_cons. by rewrite IH.
Qed.

Lemma reg_get_delete_eq k gs : reg_get k (reg_delete k gs) = None.
Proof.
  induction gs as [|h t IH]; [done|].
  rewrite reg_delete_cons. destruct (decide (gid h = k)) as [E|E]; [done|].
  by rewrite reg_get_cons, decide_False.
Qed.

(** Replacing the entry [g] by [g'] changes a sum over the registry by the
    difference of the two summands. *)
Lemma reg_store_sum (f : Group -> nat) g g' gs :
  NoDup (gid <$> gs) -> g ∈ gs -> gid g' = gid g ->
  sum_list (f <$> reg_store g' gs) + f g = sum_list (f <$> gs) + f g'.
Proof.
  induction gs as [|h t IH]; intros Hnd Hin Hk; [by apply elem_of_nil in Hin|].
  rewrite fmap_cons in Hnd. apply NoDup_cons in Hnd as [Hh Ht].
  rewrite reg_store_cons. apply elem_of_cons in Hin as [<- | Hin].
  - rewrite decide_True by congruence. rewrite reg_store_absent by (by rewrite Hk).
    rewrite !fmap_cons. cbn [sum_list_with]. unfold Datatypes.id in *. lia.
  - rewrite decide_False.
    + specialize (IH Ht Hin Hk). rewrite !fmap_cons. cbn [sum_list_with]. unfold Datatypes.id in *. lia.
    + intros E. apply Hh. rewrite E, Hk. by apply list_elem_of_fmap_2.
Qed.

Lemma reg_delete_sum (f : Group -> nat) g gs :
  NoDup (gid <$> gs) -> g ∈ gs ->
  sum_list (f <$> reg_delete (gid g) gs) + f g = sum_list (f <$> gs).
Proof.
  induction gs as [|h t IH]; intros Hnd Hin; [by apply elem_of_nil in Hin|].
  rewrite fmap_cons in Hnd. apply NoDup_cons in Hnd as [Hh Ht].
  rewrite reg_delete_cons. apply elem_of_cons in Hin as [<- | Hin].
  - rewrite decide_True by done. rewrite reg_delete_absent by done.
    rewrite !fmap_cons. cbn [sum_list_with]. unfold Datatypes.id in *. lia.
  - rewrite decide_False.
    + specialize (IH Ht Hin). rewrite !fmap_cons. cbn [sum_list_with]. unfold Datatypes.id in *. lia.
    + intros E. apply Hh. rewrite E. by apply list_elem_of_fmap_2.
Qed.

Lemma reg_delete_length g gs :
  NoDup (gid <$> gs) -> g ∈ gs -> S (length (reg_delete (gid g) gs)) = length gs.
Proof.
  intros Hnd Hin. pose proof (reg_delete_sum (fun _ => 1) g gs Hnd Hin) as H.
  assert (Hone : ∀ l : list Group, sum_list ((fun _ => 1) <$> l) = length l).
  { induction l as [|x l IHl]; [done|].
    rewrite fmap_cons. cbn [sum_list_with length]. unfold Datatypes.id in *. lia. }
  rewrite !Hone in H. lia.
Qed.

(** [Set.add] over a list of fresh, distinct ids appends them in order. *)
Lemma foldl_set_add_fresh (s l : list nat) :
  NoDup l -> (∀ x, x ∈ l -> x ∉ s) -> foldl set_add s l = s ++ l.
Proof.
  revert s. induction l as [|x l IH]; intros s Hnd Hdis; [by rewrite app_nil_r|].
  apply NoDup_cons in Hnd as [Hx Hl]. simpl. unfold set_add at 2.
  rewrite decide_False by (apply Hdis; left).
  rewrite IH; [by rewrite <- app_assoc | done |].
  intros y Hy. rewrite elem_of_app, list_elem_of_singleton.
  intros [H | ->]; [|done]. apply (Hdis y); [by right | done].
Qed.

Lemma foldl_set_add_elem (s l : list nat) (x : nat) :
  x ∈ foldl set_add s l ↔ x ∈ s ∨ x ∈ l.
Proof.
  revert s. induction l as [|y l IH]; intros s; simpl.
  - rewrite elem_of_nil. tauto.
  - rewrite IH, elem_of_cons. unfold set_add. case_decide as E.
    + split; [tauto|]. intros [H | [-> | H]]; tauto.
    + rewrite elem_of_app, list_elem_of_singleton. tauto.
Qed.

Lemma foldl_set_add_NoDup (s l : list nat) : NoDup s -> NoDup (foldl set_add s l).
Proof.
  revert s. induction l as [|y l IH]; intros s Hs; [done|]. simpl. apply IH.
  unfold set_add. case_decide as E; [done|].
  apply NoDup_app. split; [done|]. split; [|apply NoDup_singleton].
  intros x Hx Hx'. apply list_elem_of_singleton in Hx'. by subst.
Qed.

Lemma foldl_index_lookup (m : gmap nat Gid) (l : list nat) (k : Gid) (i : nat) :
  foldl (fun m pid => <[pid := k]> m) m l !! i
  = if decide (i ∈ l) then Some k else m !! i.
Proof.
  revert m. induction l as [|x l IH]; intros m; cbn [foldl].
  - case_decide as E; [by apply elem_of_nil in E | done].
  - rewrite IH. destruct (decide (i ∈ l)) as [Hi|Hi].
    + rewrite decide_True; [done | by right].
    + destruct (decide (i = x)) as [->|Hne].
      * rewrite lookup_insert_eq. rewrite decide_True; [done | by left].
      * rewrite lookup_insert_ne by done. rewrite decide_False; [done|].
        rewrite elem_of_cons. tauto.
Qed.

End Registry.

(** ** [_mergeGroups] *)

Section Merge.
Implicit Types (st : Puzzle) (g gA gB : Group).

Lemma Inv_keys st : Inv st -> NoDup (gid <$> groups st).
Proof. by intros (H & _). Qed.

Lemma Inv_set st g : Inv st -> g ∈ groups st -> NoDup (members g).
Proof. intros (_ & H & _) Hg. by apply (proj1 (Forall_forall _ _) H). Qed.

Lemma Inv_index st g i :
  Inv st -> g ∈ groups st -> i ∈ members g -> pieceToGroup st !! i = Some (gid g).
Proof.
  intros (_ & _ & H & _) Hg Hi.
  pose proof (proj1 (Forall_forall _ _) H g Hg) as H'.
  by apply (proj1 (Forall_forall _ _) H' i Hi).
Qed.

Lemma Inv_piece st g i :
  Inv st -> g ∈ groups st -> i ∈ members g -> i ∈ pieceIds st.
Proof.
  intros (_ & _ & H & _) Hg Hi.
  pose proof (proj1 (Forall_forall _ _) H g Hg) as H'.
  by apply (proj1 (Forall_forall _ _) H' i Hi).
Qed.

Lemma Inv_total st i :
  Inv st -> i ∈ pieceIds st -> ∃ g, g ∈ groups st ∧ i ∈ members g.
Proof.
  intros (_ & _ & _ & H) Hi.
  pose proof (proj1 (Forall_forall _ _) H i Hi) as H'.
  apply Exists_exists in H'. exact H'.
Qed.

Lemma Inv_disjoint st gA gB i :
  Inv st -> gA ∈ groups st -> gB ∈ groups st -> gid gA ≠ gid gB ->
  i ∈ members gA -> i ∉ members gB.
Proof.
  intros HI HA HB Hne Hi Hi'.
  pose proof (Inv_index st gA i HI HA Hi). pose proof (Inv_index st gB i HI HB Hi').
  congruence.
Qed.

Lemma reg_store_elem_ne g g' (gs : list Group) :
  g ∈ gs -> gid g ≠ gid g' -> g ∈ reg_store g' gs.
Proof.
  intros Hg Hne. unfold reg_store. apply list_elem_of_fmap. exists g.
  split; [by rewrite decide_False | done].
Qed.

Lemma reg_store_elem g g' (gs : list Group) :
  g ∈ reg_store g' gs -> g = g' ∨ (g ∈ gs ∧ gid g ≠ gid g').
Proof.
  unfold reg_store. intros H. apply list_elem_of_fmap in H as (h & -> & Hh).
  case_decide; [by left | by right].
Qed.

(** The registry after [add] has been folded into [base]. *)
Lemma absorb_registry st (base add : Group) :
  Inv st -> base ∈ groups st -> add ∈ groups st -> gid base ≠ gid add ->
  let base' := mkGroup (gid base) (foldl set_add (members base) (members add)) (pos base) in
  let gs' := reg_delete (gid add) (reg_store base' (groups st)) in
  members base' = members base ++ members add
  ∧ reg_get (gid base) gs' = Some base'
  ∧ reg_get (gid add) gs' = None
  ∧ S (length gs') = length (groups st)
  ∧ sum_list (length ∘ members <$> gs') = sum_list (length ∘ members <$> groups st)
  ∧ (∀ g, g ∈ groups st -> gid g ≠ gid base -> gid g ≠ gid add -> g ∈ gs').
Proof.
  intros HI Hb Ha Hne base' gs'.
  pose proof (Inv_keys st HI) as Hk.
  assert (Hm : members base' = members base ++ members add).
  { unfold base'. cbn [members]. apply foldl_set_add_fresh.
    - by apply (Inv_set st).
    - intros x Hx. apply (Inv_disjoint st add base); auto. }
  assert (Ha' : add ∈ reg_store base' (groups st)) by (by apply reg_store_elem_ne; [|auto]).
  assert (Hk' : NoDup (gid <$> reg_store base' (groups st))) by (by rewrite reg_store_keys).
  split; [exact Hm|]. split.
  { unfold gs'. rewrite reg_get_delete_ne by done.
    apply (reg_get_store_eq base'). change (gid base') with (gid base).
    by apply list_elem_of_fmap_2. }
  split; [apply reg_get_delete_eq|]. split.
  { unfold gs'. rewrite (reg_delete_length add) by done. apply reg_store_length. }
  split.
  { pose proof (reg_delete_sum (length ∘ members) add _ Hk' Ha') as H1.
    pose proof (reg_store_sum (length ∘ members) base base' _ Hk Hb eq_refl) as H2.
    fold gs' in H1.
    change ((length ∘ members) add) with (length (members add)) in H1.
    change ((length ∘ members) base) with (length (members base)) in H2.
    change ((length ∘ members) base') with (length (members base')) in H2.
    rewrite Hm, length_app in H2. lia. }
  intros g Hg H1 H2. unfold gs'. apply reg_delete_elem. split; [|done].
  by apply reg_store_elem_ne.
Qed.

(** C5.  Merging two distinct registered clusters: the cluster that
    survives is the larger one, and the second argument on a tie; it keeps
    its identifier and offset, and its member set is its old one followed by
    the members of the absorbed cluster; the index sends every migrated piece
    to the survivor and is unchanged elsewhere; the absorbed identifier is no
    longer registered; the registry has exactly one cluster less and the
    same total number of members. *)
Theorem merge_spec st gA gB :
  Inv st -> gA ∈ groups st -> gB ∈ groups st -> gid gA ≠ gid gB ->
  let base := if (length (members gA) <=? length (members gB))%nat then gB else gA in
  let add := if (length (members gA) <=? length (members gB))%nat then gA else gB in
  let st' := (mergeGroups st gA gB).1 in
  (length (members add) ≤ length (members base))
  ∧ (length (members gA) = length (members gB) -> base = gB)
  ∧ reg_get (gid base) (groups st')
    = Some (mkGroup (gid base) (members base ++ members add) (pos base))
  ∧ (∀ i, i ∈ members add -> pieceToGroup st' !! i = Some (gid base))
  ∧ (∀ i, i ∉ members add -> pieceToGroup st' !! i = pieceToGroup st !! i)
  ∧ reg_get (gid add) (groups st') = None
  ∧ (∀ g, g ∈ groups st -> gid g ≠ gid gA -> gid g ≠ gid gB -> g ∈ groups st')
  ∧ S (length (groups st')) = length (groups st)
  ∧ memberCount st' = memberCount st.
Proof.
  intros HI HA HB Hne base add st'.
  assert (Hcase : (base = gB ∧ add = gA ∧ length (members gA) ≤ length (members gB))
                  ∨ (base = gA ∧ add = gB ∧ length (members gB) < length (members gA))).
  { unfold base, add. destruct (Nat.leb_spec (length (members gA)) (length (members gB)));
      [left | right]; auto. }
  assert (Hb : base ∈ groups st) by (destruct Hcase as [(-> & _)|(-> & _)]; done).
  assert (Ha : add ∈ groups st) by (destruct Hcase as [(_ & -> & _)|(_ & -> & _)]; done).
  assert (Hne' : gid base ≠ gid add)
    by (destruct Hcase as [(-> & -> & _)|(-> & -> & _)]; congruence).
  destruct (absorb_registry st base add HI Hb Ha Hne') as (Hm & Hget & Hgone & Hlen & Hsum & Hrest).
  assert (Hgs : groups st' = reg_delete (gid add)
            (reg_store (mkGroup (gid base) (foldl set_add (members base) (members add)) (pos base))
                       (groups st))) by reflexivity.
  assert (Hidx : pieceToGroup st'
            = foldl (fun m pid => <[pid := gid base]> m) (pieceToGroup st) (members add))
    by reflexivity.
  split; [destruct Hcase as [(-> & -> & ?)|(-> & -> & ?)]; lia|].
  split; [intros E; destruct Hcase as [(? & _)|(_ & _ & ?)]; [done | lia]|].
  split. { rewrite Hgs, Hget. cbn [members] in Hm. by rewrite Hm. }
  split. { intros i Hi. rewrite Hidx, foldl_index_lookup. by rewrite decide_True. }
  split. { intros i Hi. rewrite Hidx, foldl_index_lookup. by rewrite decide_False. }
  split; [by rewrite Hgs|].
  split.
  { intros g Hg H1 H2. rewrite Hgs. apply Hrest; [done| |];
      destruct Hcase as [(-> & -> & _)|(-> & -> & _)]; done. }
  split; [by rewrite Hgs|].
  unfold memberCount. by rewrite Hgs.
Qed.

End Merge.

Lemma merge_spec_witness :
  S (length (groups (mergeGroups (rowPuzzle 2)
                       (mkGroup "g1" [1] (mkPt 0 0)) (mkGroup "g0" [0] (mkPt 0 0))).1))
  = length (groups (rowPuzzle 2)).
Proof.
  assert (HI : Inv (rowPuzzle 2)) by (apply (bool_decide_unpack _); vm_compute; exact I).
  assert (HA : mkGroup "g1" [1] (mkPt 0 0) ∈ groups (rowPuzzle 2))
    by (apply (bool_decide_unpack _); vm_compute; exact I).
  assert (HB : mkGroup "g0" [0] (mkPt 0 0) ∈ groups (rowPuzzle 2))
    by (apply (bool_decide_unpack _); vm_compute; exact I).
  assert (Hne : gid (mkGroup "g1" [1] (mkPt 0 0)) ≠ gid (mkGroup "g0" [0] (mkPt 0 0)))
    by (apply (bool_decide_unpack _); vm_compute; exact I).
  apply (merge_spec _ _ _ HI HA HB Hne).
Defined.

(** ** The piece catalogue *)

Section Catalogue.
Implicit Types (b : Board) (p q : Piece) (st : Puzzle).

Lemma cells_elem b (r c : nat) : (r, c) ∈ cells b -> r < rows b ∧ c < cols b.
Proof.
  unfold cells. intros H. apply list_elem_of_In, in_flat_map in H as (r' & Hr & Hc).
  apply list_elem_of_In, list_elem_of_fmap in Hc as (c' & E & Hc).
  apply list_elem_of_In, elem_of_seq in Hr. apply elem_of_seq in Hc.
  simplify_eq. lia.
Qed.

Lemma createPieces_lookup b (k : nat) p :
  createPieces b !! k = Some p ->
  id p = k
  ∧ pr p < rows b ∧ pc p < cols b
  ∧ target p = mkPt (boundsX b + Z.of_nat (pc p) * cellW b)
                    (boundsY b + Z.of_nat (pr p) * cellH b)
  ∧ sizeW p = cellW b ∧ sizeH p = cellH b.
Proof.
  unfold createPieces. rewrite list_lookup_imap.
  destruct (cells b !! k) as [[r c]|] eqn:E; [|done].
  intros [= <-]. cbn.
  apply list_elem_of_lookup_2, cells_elem in E. tauto.
Qed.

Lemma createPieces_elem b p :
  p ∈ createPieces b ->
  pr p < rows b ∧ pc p < cols b
  ∧ target p = mkPt (boundsX b + Z.of_nat (pc p) * cellW b)
                    (boundsY b + Z.of_nat (pr p) * cellH b)
  ∧ sizeW p = cellW b ∧ sizeH p = cellH b
  ∧ createPieces b !! id p = Some p.
Proof.
  intros H. apply list_elem_of_lookup_1 in H as [k Hk].
  pose proof (createPieces_lookup b k p Hk) as (Hid & H'). rewrite Hid. tauto.
Qed.

(** [find] with the predicate [id = k] on a list whose [j]-th element has
    id [n + j] returns the element at position [k]. *)
Lemma find_by_id (l : list Piece) (n k : nat) p :
  (∀ j x, l !! j = Some x -> id x = n + j) ->
  l !! k = Some p ->
  List.find (fun x => (id x =? n + k)%nat) l = Some p.
Proof.
  revert n k. induction l as [|x l IH]; intros n k Hid Hk; [done|].
  destruct k as [|k]; simpl in *.
  - simplify_eq. rewrite (Hid 0 p eq_refl). by rewrite Nat.eqb_refl.
  - pose proof (Hid 0 x eq_refl) as Hx.
    destruct (Nat.eqb_spec (id x) (n + S k)) as [E|_]; [lia|].
    replace (n + S k) with (S n + k) by lia. apply IH; [|done].
    intros j y Hj. rewrite (Hid (S j) y Hj). lia.
Qed.

Lemma pieceById_Some st (i : nat) p : pieceById st i = Some p -> p ∈ pieces st ∧ id p = i.
Proof.
  unfold pieceById. intros H. apply find_some in H as [H1 H2].
  apply list_elem_of_In in H1. by apply Nat.eqb_eq in H2.
Qed.

Lemma pieceById_catalogue st p :
  pieces st = createPieces (board st) -> p ∈ pieces st -> pieceById st (id p) = Some p.
Proof.
  intros Hc Hp. rewrite Hc in Hp. apply createPieces_elem in Hp as (_ & _ & _ & _ & _ & Hl).
  unfold pieceById. rewrite Hc. apply (find_by_id _ 0 (id p)); [|done].
  intros j x Hj. by apply createPieces_lookup in Hj as [-> _].
Qed.

Lemma getPiece_elem st (r c : Z) p : getPiece st r c = Some p -> p ∈ pieces st.
Proof.
  unfold getPiece. case_match; [done|]. apply list_elem_of_lookup_2.
Qed.


End Catalogue.

(** ** [_trySnapAndMerge] and [_handleUp] *)

Section Snap.
Implicit Types (o : Options) (st : Puzzle) (mg gQ : Group) (p q P Q : Piece).
#[local] Arguments mergeGroups : simpl never.

Lemma scanNeigh_quiet o st mg p (neigh : list Piece) :
  Forall (fun q => snapTest o st mg p q = Some false) neigh ->
  scanNeigh o st mg p neigh = Some (st, mg, false).
Proof.
  induction 1 as [|q neigh Hq _ IH]; [done|].
  cbn [scanNeigh]. unfold snapTest in Hq.
  destruct (pieceToGroup st !! id q) as [k|]; [|done]. simpl in Hq.
  destruct (decide (k = gid mg)); [done|].
  destruct (reg_get k (groups st)) as [gQ|]; [|done]. simpl in Hq |- *.
  injection Hq as ->. done.
Qed.


Lemma scanMembers_quiet o st mg (ms1 : list nat) (i fuel : nat) :
  (∀ j pid, ms1 !! j = Some pid -> members mg !! (i + j) = Some pid) ->
  Forall (quiet o st mg) ms1 ->
  scanMembers (length ms1 + fuel) o st mg i false
  = scanMembers fuel o st mg (i + length ms1) false.
Proof.
  revert i. induction ms1 as [|pid ms1 IH]; intros i Hl Hq.
  - simpl. by rewrite Nat.add_0_r.
  - apply Forall_cons in Hq as [(p & Hp & Hn) Hq].
    cbn [length Nat.add scanMembers].
    pose proof (Hl 0 pid eq_refl) as H0. rewrite Nat.add_0_r in H0. rewrite H0, Hp.
    simpl. rewrite (scanNeigh_quiet _ _ _ _ _ Hn). simpl.
    rewrite (IH (S i)); [f_equal; lia | | done].
    intros j pid' Hj. replace (S i + j) with (i + S j) by lia. by apply Hl.
Qed.


Lemma pieceWorldPos_intro st (i : nat) p (g : Group) :
  pieceById st i = Some p ->
  pieceToGroup st !! i = Some (gid g) ->
  reg_get (gid g) (groups st) = Some g ->
  pieceWorldPos st i = Some (pt_add (target p) (pos g)).
Proof. unfold pieceWorldPos. intros -> ->. simpl. by intros ->. Qed.

End Snap.

(** ** The invariant is kept by the registry operations *)

Section Invariant.
Implicit Types (st : Puzzle) (g h : Group) (gs : list Group).

Lemma Inv_intro st :
  NoDup (gid <$> groups st) ->
  (∀ g, g ∈ groups st -> NoDup (members g)) ->
  (∀ g i, g ∈ groups st -> i ∈ members g ->
          pieceToGroup st !! i = Some (gid g) ∧ i ∈ pieceIds st) ->
  (∀ i, i ∈ pieceIds st -> ∃ g, g ∈ groups st ∧ i ∈ members g) ->
  Inv st.
Proof.
  intros H1 H2 H3 H4. split; [done|]. split; [by apply Forall_forall|]. split.
  - apply Forall_forall. intros g Hg. apply Forall_forall. intros i Hi. by apply H3.
  - apply Forall_forall. intros i Hi. apply Exists_exists. by apply H4.
Qed.

(** Folding [add] into [base] keeps the invariant. *)
Lemma absorb_inv st (base add : Group) :
  Inv st -> base ∈ groups st -> add ∈ groups st -> gid base ≠ gid add ->
  let base' := mkGroup (gid base) (foldl set_add (members base) (members add)) (pos base) in
  Inv (with_registry st
         (reg_delete (gid add) (reg_store base' (groups st)))
         (foldl (fun m pid => <[pid := gid base]> m) (pieceToGroup st) (members add))).
Proof.
  intros HI Hb Ha Hne base'.
  destruct (absorb_registry st base add HI Hb Ha Hne) as (Hm & _).
  fold base' in Hm.
  assert (Hchar : ∀ g, g ∈ reg_delete (gid add) (reg_store base' (groups st)) ->
                       g = base' ∨ (g ∈ groups st ∧ gid g ≠ gid base ∧ gid g ≠ gid add)).
  { intros g Hg. apply reg_delete_elem in Hg as [Hg Hg'].
    apply reg_store_elem in Hg as [-> | [Hg Hg'']]; [by left | by right]. }
  assert (Hbase' : base' ∈ reg_delete (gid add) (reg_store base' (groups st))).
  { apply reg_delete_elem. split; [|done]. unfold reg_store.
    apply list_elem_of_fmap. exists base. split; [|done]. by rewrite decide_True. }
  apply Inv_intro; cbn [groups pieceToGroup with_registry]; change (pieceIds _) with (pieceIds st).
  - rewrite reg_delete_keys, reg_store_keys. apply NoDup_filter, (Inv_keys st HI).
  - intros g Hg. destruct (Hchar g Hg) as [-> | (Hg' & _)]; [|by apply (Inv_set st)].
    rewrite Hm. apply NoDup_app. split; [by apply (Inv_set st)|].
    split; [|by apply (Inv_set st)].
    intros i Hi Hi'. by apply (Inv_disjoint st add base i).
  - intros g i Hg Hi. rewrite foldl_index_lookup.
    destruct (Hchar g Hg) as [-> | (Hg' & Hgb & Hga)].
    + rewrite Hm in Hi. apply elem_of_app in Hi as [Hi | Hi].
      * split; [|by apply (Inv_piece st base)].
        case_decide; [done|]. by apply (Inv_index st base).
      * split; [|by apply (Inv_piece st add)]. by rewrite decide_True.
    + split; [|by apply (Inv_piece st g)].
      rewrite decide_False; [by apply (Inv_index st g)|].
      intros Hi'. by apply (Inv_disjoint st add g i).
  - intros i Hi. destruct (Inv_total st i HI Hi) as (g & Hg & Hgi).
    destruct (decide (gid g = gid base)) as [E|E].
    { exists base'. split; [done|]. rewrite Hm. apply elem_of_app. left.
      assert (g = base) as ->; [|done].
      pose proof (reg_get_elem _ _ (Inv_keys st HI) Hg) as H1.
      pose proof (reg_get_elem _ _ (Inv_keys st HI) Hb) as H2. congruence. }
    destruct (decide (gid g = gid add)) as [E'|E'].
    { exists base'. split; [done|]. rewrite Hm. apply elem_of_app. right.
      assert (g = add) as ->; [|done].
      pose proof (reg_get_elem _ _ (Inv_keys st HI) Hg) as H1.
      pose proof (reg_get_elem _ _ (Inv_keys st HI) Ha) as H2. congruence. }
    exists g. split; [|done]. apply reg_delete_elem. split; [|done].
    by apply reg_store_elem_ne.
Qed.

(** [_mergeGroups] on two distinct registered clusters keeps the
    invariant. *)
Lemma mergeGroups_inv st (gA gB : Group) :
  Inv st -> gA ∈ groups st -> gB ∈ groups st -> gid gA ≠ gid gB ->
  Inv (mergeGroups st gA gB).1.
Proof.
  intros HI HA HB Hne. unfold mergeGroups. cbn [fst].
  destruct (length (members gA) <=? length (members gB))%nat.
  - by apply absorb_inv.
  - apply absorb_inv; auto.
Qed.

(** The invariant only looks at the identifiers and member lists of the
    registry, at the index and at the piece ids. *)
Lemma Inv_shape st st' :
  pieces st' = pieces st ->
  pieceToGroup st' = pieceToGroup st ->
  (fun g => (gid g, members g)) <$> groups st' = (fun g => (gid g, members g)) <$> groups st ->
  Inv st -> Inv st'.
Proof.
  intros Hp Hx Hs (H1 & H2 & H3 & H4).
  set (shape := fun g : Group => (gid g, members g)) in *.
  assert (Hids : pieceIds st' = pieceIds st) by (unfold pieceIds; by rewrite Hp).
  unfold Inv. rewrite Hids, Hx. split; [|split; [|split]].
  - change (gid <$> groups st') with ((fst ∘ shape) <$> groups st').
    rewrite list_fmap_compose, Hs, <- list_fmap_compose. exact H1.
  - apply (Forall_fmap shape (fun s => NoDup s.2)). rewrite Hs.
    by apply (Forall_fmap shape (fun s => NoDup s.2)).
  - apply (Forall_fmap shape
             (fun s => Forall (fun i => pieceToGroup st !! i = Some s.1 ∧ i ∈ pieceIds st) s.2)).
    rewrite Hs. by apply (Forall_fmap shape
             (fun s => Forall (fun i => pieceToGroup st !! i = Some s.1 ∧ i ∈ pieceIds st) s.2)).
  - eapply Forall_impl; [exact H4|]. intros i Hi. cbn beta in *.
    apply (Exists_fmap shape (fun s => i ∈ s.2)). rewrite Hs.
    by apply (Exists_fmap shape (fun s => i ∈ s.2)).
Qed.

(** Moving a registered cluster keeps the invariant. *)
Lemma moved_inv st g (p : Pt) :
  Inv st -> g ∈ groups st ->
  Inv (with_groups st (reg_store (mkGroup (gid g) (members g) p) (groups st))).
Proof.
  intros HI Hg. apply (Inv_shape st); [done | done | | done].
  cbn [groups with_groups]. unfold reg_store. rewrite <- list_fmap_compose.
  apply list_fmap_ext. intros i h Hh. cbn. case_decide as E; [|done].
  cbn [gid] in E. apply list_elem_of_lookup_2 in Hh.
  pose proof (reg_get_elem _ _ (Inv_keys st HI) Hh) as H1.
  pose proof (reg_get_elem _ _ (Inv_keys st HI) Hg) as H2.
  rewrite E in H1. by simplify_eq.
Qed.

Lemma reset_inv st : Inv st -> Inv (reset st).
Proof.
  apply Inv_shape; [done | done |]. unfold reset. cbn [groups with_groups].
  rewrite <- list_fmap_compose. by apply list_fmap_ext.
Qed.

Lemma with_drag_inv st (d : option Drag) : Inv st -> Inv (with_drag st d).
Proof. by apply Inv_shape. Qed.

(** Re-inserting a cluster keeps the invariant. *)
Lemma promote_inv st st' (k : Gid) : Inv st -> promote k st = Some st' -> Inv st'.
Proof.
  intros HI. unfold promote.
  destruct (reg_get k (groups st)) as [g|] eqn:Hg; [|done]. cbn. intros [= <-].
  apply reg_get_Some in Hg as [Hg Hk]. subst k.
  assert (Eg : mkGroup (gid g) (members g) (pos g) = g) by (by destruct g).
  rewrite Eg. unfold reg_set. rewrite reg_get_delete_eq.
  pose proof (Inv_keys st HI) as Hkeys.
  assert (Hmem : ∀ h, h ∈ reg_delete (gid g) (groups st) ++ [g] ↔ h ∈ groups st).
  { intros h. rewrite elem_of_app, reg_delete_elem, list_elem_of_singleton. split.
    - intros [[? _] | ->]; done.
    - intros Hh. destruct (decide (gid h = gid g)) as [E|E]; [right | by left].
      pose proof (reg_get_elem _ _ Hkeys Hh) as H1.
      pose proof (reg_get_elem _ _ Hkeys Hg) as H2. rewrite E in H1. by simplify_eq. }
  apply Inv_intro; cbn [groups pieceToGroup with_groups]; change (pieceIds _) with (pieceIds st).
  - rewrite fmap_app, reg_delete_keys. apply NoDup_app. split; [by apply NoDup_filter|].
    split; [|apply NoDup_singleton].
    intros x Hx Hx'. apply list_elem_of_singleton in Hx'. subst x.
    apply list_elem_of_filter in Hx as [Hx _]. done.
  - intros h Hh. apply Hmem in Hh. by apply (Inv_set st).
  - intros h i Hh Hi. apply Hmem in Hh. split; [by apply (Inv_index st) | by apply (Inv_piece st h)].
  - intros i Hi. destruct (Inv_total st i HI Hi) as (h & Hh & Hhi).
    exists h. split; [by apply Hmem | done].
Qed.

Lemma scanNeigh_result (o : Options) st (mg : Group) (p : Piece) (neigh : list Piece)
    st' (mg' : Group) (m : bool) :
  scanNeigh o st mg p neigh = Some (st', mg', m) ->
  (st' = st ∧ mg' = mg ∧ m = false)
  ∨ (m = true
     ∧ ∃ (ideal : Pt) (gQ : Group),
         reg_get (gid gQ) (groups st) = Some gQ ∧ gid gQ ≠ gid mg
         ∧ (st', mg') = mergeGroups
                          (with_groups st
                             (reg_store (mkGroup (gid mg) (members mg) ideal) (groups st)))
                          (mkGroup (gid mg) (members mg) ideal) gQ).
Proof.
  induction neigh as [|q neigh IH]; cbn [scanNeigh].
  - intros [= <- <- <-]. by left.
  - destruct (pieceToGroup st !! id q) as [k|]; [|done].
    destruct (decide (k = gid mg)); [exact IH|].
    destruct (reg_get k (groups st)) as [gQ|] eqn:Hg; [|done]. cbn [mbind option_bind].
    destruct (closeEnough o mg (idealOffset p q gQ)); [|exact IH].
    pose proof (reg_get_Some _ _ _ Hg) as [_ <-].
    destruct (mergeGroups
                (with_groups st
                   (reg_store (mkGroup (gid mg) (members mg) (idealOffset p q gQ)) (groups st)))
                (mkGroup (gid mg) (members mg) (idealOffset p q gQ)) gQ)
      as [a c] eqn:Hm.
    intros [= <- <- <-]. right. split; [done|].
    exists (idealOffset p q gQ), gQ. by rewrite Hm.
Qed.

(** With [lockOnSnap] a release changes nothing or performs one merge of
    the dragged cluster, moved, with a registered cluster. *)
Lemma scanMembers_locked (o : Options) (fuel : nat) st (mg : Group) (i : nat) st' :
  lockOnSnap o = true ->
  scanMembers fuel o st mg i false = Some st' ->
  st' = st
  ∨ ∃ (ideal : Pt) (gQ : Group),
      reg_get (gid gQ) (groups st) = Some gQ ∧ gid gQ ≠ gid mg
      ∧ st' = (mergeGroups
                 (with_groups st
                    (reg_store (mkGroup (gid mg) (members mg) ideal) (groups st)))
                 (mkGroup (gid mg) (members mg) ideal) gQ).1.
Proof.
  intros Hlock. revert i. induction fuel as [|fuel IH]; intros i; [done|].
  cbn [scanMembers]. destruct (members mg !! i) as [pid|]; [|intros [= <-]; by left].
  destruct (pieceById st pid) as [p|]; [|done]. cbn [mbind option_bind].
  destruct (scanNeigh o st mg p (neighbours st p)) as [[[st2 mg2] m]|] eqn:Hn; [|done].
  cbn [mbind option_bind orb]. rewrite Hlock.
  apply scanNeigh_result in Hn as [(-> & -> & ->) | (-> & ideal & gQ & Hg & Hne & Hm)].
  - cbn [andb]. apply IH.
  - cbn [andb]. intros [= <-]. right. exists ideal, gQ. by rewrite <- Hm.
Qed.

(** With [lockOnSnap] (the default) [_handleUp] keeps the invariant. *)
Lemma handleUp_inv (o : Options) st st' :
  lockOnSnap o = true -> Inv st -> handleUp o st = Some st' -> Inv st'.
Proof.
  intros Hlock HI. unfold handleUp. destruct (drag st) as [d|]; [|by intros [= <-]].
  destruct (reg_get (groupId d) (groups st)) as [mg|] eqn:Hmg; [|done].
  cbn [mbind option_bind].
  destruct (trySnapAndMerge o st mg) as [st2|] eqn:Hs; [|done].
  cbn [mbind option_bind]. intros [= <-]. apply with_drag_inv.
  apply reg_get_Some in Hmg as [Hmg _].
  apply (scanMembers_locked o _ st mg 0 st2 Hlock) in Hs
    as [-> | (ideal & gQ & HgQ & Hne & ->)]; [done|].
  apply reg_get_Some in HgQ as [HgQ _].
  apply mergeGroups_inv.
  - by apply moved_inv.
  - cbn [groups with_groups]. unfold reg_store. apply list_elem_of_fmap.
    exists mg. split; [by rewrite decide_True | done].
  - cbn [groups with_groups]. apply reg_store_elem_ne; [done | by cbn].
  - cbn. congruence.
Qed.

Lemma dragTo_inv st st' (k : Gid) (p : Pt) : Inv st -> dragTo k p st = Some st' -> Inv st'.
Proof.
  intros HI. unfold dragTo.
  destruct (promote k st) as [st1|] eqn:H1; [|done]. cbn [mbind option_bind].
  destruct (reg_get k (groups st1)) as [g|] eqn:Hg; [|done]. cbn [mbind option_bind].
  intros [= <-]. apply with_drag_inv.
  pose proof (promote_inv st st1 k HI H1) as HI1.
  apply reg_get_Some in Hg as [Hg <-]. by apply moved_inv.
Qed.

(** A drag gesture ending in a release keeps the invariant when
    [lockOnSnap] is set. *)
Lemma dragAndRelease_inv (o : Options) st st' (k : Gid) (p : Pt) :
  lockOnSnap o = true -> Inv st -> dragAndRelease o k p st = Some st' -> Inv st'.
Proof.
  intros Hlock HI. unfold dragAndRelease.
  destruct (dragTo k p st) as [st1|] eqn:H1; [|done]. cbn [mbind option_bind].
  apply handleUp_inv; [done|]. by apply (dragTo_inv st st1 k p).
Qed.

(** [_createGroups] with pairwise distinct identifiers: one cluster per
    piece, in push order, and the index entry of each piece. *)
Lemma createGroups_fold (fresh : nat -> Gid) (l : list (nat * Piece)) :
  NoDup ((fresh ∘ fst) <$> l) ->
  foldl (createGroups_step fresh) ([], ∅) l
  = ((fun kp => mkGroup (fresh kp.1) [id kp.2] (mkPt 0 0)) <$> l,
     foldl (fun m kp => <[id kp.2 := fresh kp.1]> m) ∅ l).
Proof.
  induction l as [|x l IH] using rev_ind; [done|]. intros Hnd.
  rewrite fmap_app in Hnd. apply NoDup_app in Hnd as (Hl & Hx & _).
  rewrite !foldl_app, IH by done. cbn [foldl]. unfold createGroups_step at 1. cbn [fst snd].
  f_equal. unfold reg_set.
  destruct (reg_get _ _) as [g|] eqn:Hg; [|by rewrite fmap_app].
  exfalso. apply reg_get_Some in Hg as [Hg Hk]. cbn [gid] in Hk.
  apply list_elem_of_fmap in Hg as (kp & -> & Hkp). cbn [gid] in Hk.
  apply (Hx (fresh kp.1)).
  - apply list_elem_of_fmap. by exists kp.
  - rewrite Hk. cbn. by left.
Qed.

Lemma index_fold_lookup (fresh : nat -> Gid) (l : list (nat * Piece)) (kp : nat * Piece) :
  NoDup ((id ∘ snd) <$> l) -> kp ∈ l ->
  foldl (fun (m : gmap nat Gid) kp => <[id kp.2 := fresh kp.1]> m) ∅ l !! id kp.2
  = Some (fresh kp.1).
Proof.
  induction l as [|x l IH] using rev_ind; [by intros _ ?%elem_of_nil|]. intros Hnd Hin.
  rewrite fmap_app in Hnd. apply NoDup_app in Hnd as (Hl & Hx & _).
  rewrite foldl_app. cbn [foldl].
  apply elem_of_app in Hin as [Hin | Hin].
  - rewrite lookup_insert_ne; [by apply IH|].
    intros E. apply (Hx (id kp.2)).
    + apply list_elem_of_fmap. by exists kp.
    + cbn. rewrite E. by left.
  - apply list_elem_of_singleton in Hin as ->. by rewrite lookup_insert_eq.
Qed.

(** After [init], with pairwise distinct cluster identifiers, the
    invariant holds. *)
Lemma init_inv (fresh : nat -> Gid) (b : Board) :
  (∀ i j, fresh i = fresh j -> i = j) -> Inv (init fresh b).
Proof.
  intros Hinj. unfold init, createGroups. cbn [pieces].
  set (l := imap pair (createPieces b)).
  assert (Hl : ∀ j kp, l !! j = Some kp -> kp.1 = j ∧ createPieces b !! j = Some kp.2 ∧ id kp.2 = j).
  { intros j kp. unfold l. rewrite list_lookup_imap.
    destruct (createPieces b !! j) as [p|] eqn:Hp; [|done]. intros [= <-]. cbn.
    by apply createPieces_lookup in Hp as [-> _]. }
  assert (Hkeys : NoDup ((fresh ∘ fst) <$> l)).
  { apply NoDup_alt. intros i j k. rewrite !list_lookup_fmap.
    destruct (l !! i) as [x|] eqn:Hi; [|done]. destruct (l !! j) as [y|] eqn:Hj; [|done].
    cbn. intros [= <-] [= E]. apply Hl in Hi as [Hi _]. apply Hl in Hj as [Hj _].
    apply Hinj in E. congruence. }
  assert (Hids : NoDup ((id ∘ snd) <$> l)).
  { apply NoDup_alt. intros i j k. rewrite !list_lookup_fmap.
    destruct (l !! i) as [x|] eqn:Hi; [|done]. destruct (l !! j) as [y|] eqn:Hj; [|done].
    cbn. intros [= <-] [= E]. apply Hl in Hi as (_ & _ & Hi). apply Hl in Hj as (_ & _ & Hj).
    congruence. }
  rewrite createGroups_fold by done. cbn [fst snd].
  apply Inv_intro; cbn [groups pieceToGroup with_registry];
    change (pieceIds _) with (id <$> createPieces b).
  - by rewrite <- list_fmap_compose.
  - intros g Hg. apply list_elem_of_fmap in Hg as (kp & -> & _). apply NoDup_singleton.
  - intros g i Hg Hi. apply list_elem_of_fmap in Hg as (kp & -> & Hkp).
    cbn [members gid] in *. apply list_elem_of_singleton in Hi as ->.
    split; [by apply index_fold_lookup|].
    apply list_elem_of_lookup_1 in Hkp as [j Hj]. apply Hl in Hj as (_ & Hj & _).
    apply list_elem_of_fmap. exists kp.2. split; [done|]. by apply list_elem_of_lookup_2 in Hj.
  - intros i Hi. apply list_elem_of_fmap in Hi as (p & -> & Hp).
    apply list_elem_of_lookup_1 in Hp as [j Hj].
    exists (mkGroup (fresh j) [id p] (mkPt 0 0)). split; [|cbn; by left].
    apply list_elem_of_fmap. exists (j, p). split; [done|].
    apply (list_elem_of_lookup_2 _ j). unfold l. rewrite list_lookup_imap, Hj. done.
Qed.

(** With [lockOnSnap] set and distinct cluster identifiers the invariant
    holds after [init] and after every session of drag gestures. *)
Lemma play_inv (o : Options) (gestures : list (Gid * Pt)) st st' :
  lockOnSnap o = true -> Inv st -> play o gestures st = Some st' -> Inv st'.
Proof.
  intros Hlock. revert st. induction gestures as [|kp rest IH]; intros st HI; cbn [play].
  - by intros [= <-].
  - destruct (dragAndRelease o kp.1 kp.2 st) as [st1|] eqn:H1; [|done].
    cbn [mbind option_bind]. apply IH. by apply (dragAndRelease_inv o st st1 kp.1 kp.2).
Qed.

Lemma session_inv (o : Options) (fresh : nat -> Gid) (b : Board)
    (gestures : list (Gid * Pt)) st' :
  (∀ i j, fresh i = fresh j -> i = j) ->
  lockOnSnap o = true ->
  play o gestures (init fresh b) = Some st' -> Inv st'.
Proof. intros Hinj Hlock. apply play_inv; [done | by apply init_inv]. Qed.

End Invariant.

(** ** The release returns *)

Section Totality.
Implicit Types (o : Options) (st : Puzzle) (mg : Group) (p q : Piece).





End Totality.

(** ** Releases on small boards *)

(** C1, at the failing input.  A row of two with 100-pixel cells and the
    default options ([snapDistance] 14).  Piece 0 (P) is held at the world
    position [(3,2)] while piece 1 (Q), its right neighbour in another
    cluster, sits at [(100,0)]: the right edge of P is 3 pixels to the right
    of and 2 pixels below the left edge of Q, so the cluster of P is within
    [snapDistance] of the offset [(0,0)] at which the two edges meet.  The
    release computes [(100,0)] as the ideal offset of the cluster, which is
    the offset that puts P on the place of Q itself, finds the cluster 97
    pixels away from it and merges nothing: the two clusters remain and P
    stays where it was dropped.  Dragged onto Q instead (world position
    [(97,2)]), P is merged with Q by the release. *)
Theorem aligned_release_not_merged :
  let P := mkPiece 0 0 0 (mkPt 0 0) 100 100 in
  let Q := mkPiece 1 0 1 (mkPt 100 0) 100 100 in
  let gP := mkGroup "g0" [0] (mkPt 3 2) in
  let gQ := mkGroup "g1" [1] (mkPt 0 0) in
  pairAligned = Some (stateOf pairAligned)
  ∧ groups (stateOf pairAligned) = [gQ; gP]
  ∧ groupId <$> drag (stateOf pairAligned) = Some "g0"
  ∧ pieceById (stateOf pairAligned) 0 = Some P
  ∧ neighbours (stateOf pairAligned) P = [Q]
  ∧ pieceWorldPos (stateOf pairAligned) 0 = Some (mkPt 3 2)
  ∧ pieceWorldPos (stateOf pairAligned) 1 = Some (mkPt 100 0)
  ∧ hypot_le ((3 + cellW (rowBoard 2)) - 100) (2 - 0) (snapDistance defaultOptions) = true
  ∧ idealOffset P Q gQ = mkPt 100 0
  ∧ pt_add (target P) (idealOffset P Q gQ) = pt_add (target Q) (pos gQ)
  ∧ closeEnough defaultOptions gP (idealOffset P Q gQ) = false
  ∧ (∃ st', handleUp defaultOptions (stateOf pairAligned) = Some st'
            ∧ groups st' = [gQ; gP]
            ∧ pieceToGroup st' !! 0 = Some "g0"
            ∧ pieceToGroup st' !! 1 = Some "g1"
            ∧ pieceWorldPos st' 0 = Some (mkPt 3 2)
            ∧ drag st' = None)
  ∧ pairDraggedRight = Some (stateOf pairDraggedRight)
  ∧ pieceWorldPos (stateOf pairDraggedRight) 0 = Some (mkPt 97 2)
  ∧ pieceWorldPos (stateOf pairDraggedRight) 1 = Some (mkPt 100 0)
  ∧ (∃ st', handleUp defaultOptions (stateOf pairDraggedRight) = Some st'
            ∧ groups st' = [mkGroup "g1" [1; 0] (mkPt 0 0)]).
Proof.
  intros P Q gP gQ.
  repeat (split; [by vm_compute|]).
  split.
  { exists (stateOf (handleUp defaultOptions (stateOf pairAligned))).
    repeat split; by vm_compute. }
  repeat (split; [by vm_compute|]).
  exists (stateOf (handleUp defaultOptions (stateOf pairDraggedRight))).
  split; by vm_compute.
Qed.


(** C4, at the failing input.  Before the release the registry of the row
    of six satisfies the invariant.  With [lockOnSnap] off the release of
    cluster [{3,2}] merges it into [{4,5}] and then, scanning on with the
    absorbed cluster, folds its members into [{0,1}] as well: pieces 2 and
    3 end up in two registered clusters.  With [lockOnSnap] set the same
    release stops after the first merge and the invariant holds. *)
Theorem partition_broken_by_release :
  sixRowDragged = Some (stateOf sixRowDragged)
  ∧ Inv (stateOf sixRowDragged)
  ∧ (∃ st', handleUp multiSnapOptions (stateOf sixRowDragged) = Some st'
            ∧ groups st' = [mkGroup "g4" [4; 5; 3; 2] (mkPt 0 0);
                            mkGroup "g0" [0; 1; 3; 2] (mkPt 200 0)]
            ∧ ¬ Inv st')
  ∧ (∃ st', handleUp defaultOptions (stateOf sixRowDragged) = Some st'
            ∧ groups st' = [mkGroup "g4" [4; 5; 3; 2] (mkPt 0 0);
                            mkGroup "g0" [0; 1] (mkPt 200 0)]
            ∧ Inv st').
Proof.
  split; [by vm_compute|].
  assert (HI : Inv (stateOf sixRowDragged)) by (apply (bool_decide_unpack _); by vm_compute).
  split; [exact HI|]. split.
  - exists (stateOf (handleUp multiSnapOptions (stateOf sixRowDragged))).
    split; [by vm_compute|]. split; [by vm_compute|].
    apply (bool_decide_unpack _). by vm_compute.
  - exists (stateOf (handleUp defaultOptions (stateOf sixRowDragged))).
    assert (Hup : handleUp defaultOptions (stateOf sixRowDragged)
                  = Some (stateOf (handleUp defaultOptions (stateOf sixRowDragged))))
      by (by vm_compute).
    split; [exact Hup|]. split; [by vm_compute|].
    by apply (handleUp_inv defaultOptions _ _ eq_refl HI Hup).
Qed.

(** ** The 1x2 board *)

Section Pair.
Variables (w h bx by_ : Z) (fresh : nat -> Gid).
Hypothesis fresh_ne : fresh 0 ≠ fresh 1.

#[local] Abbreviation b := (mkBoard 1 2 w h bx by_).
#[local] Abbreviation P0 := (mkPiece 0 0 0 (mkPt (bx + 0 * w) (by_ + 0 * h)) w h).
#[local] Abbreviation P1 := (mkPiece 1 0 1 (mkPt (bx + 1 * w) (by_ + 0 * h)) w h).
#[local] Abbreviation G0 := (mkGroup (fresh 0) [0] (mkPt 0 0)).






End Pair.


(** ** [_update]: the drag easing *)

Section Easing.
Local Open Scope R_scope.

Lemma sqrt_800 : 28 < sqrt 800 < 29.
Proof.
  split.
  - replace 28 with (sqrt (28 * 28)) by (apply sqrt_square; lra). apply sqrt_lt_1; lra.
  - replace 29 with (sqrt (29 * 29)) by (apply sqrt_square; lra). apply sqrt_lt_1; lra.
Qed.

Lemma js_round_7 (x : R) : 13 / 2 <= x < 15 / 2 -> js_round x = 7%Z.
Proof. intros H. unfold js_round. apply Zfloor_eq. lra. Qed.

(** The eased step when the cap applies: its length is the cap. *)
Lemma easedStep_clamped (e : Easing) (p t : Pt) :
  let dx := IZR (px t - px p) * dragLerp e in
  let dy := IZR (py t - py p) * dragLerp e in
  0 <= maxStepPerFrame e ->
  maxStepPerFrame e < sqrt (dx * dx + dy * dy) ->
  ∃ s, 0 <= s
       ∧ easedStep e p t = (dx * s, dy * s)
       ∧ (dx * s) * (dx * s) + (dy * s) * (dy * s)
         = maxStepPerFrame e * maxStepPerFrame e.
Proof.
  intros dx dy Hm Hlen. unfold easedStep. fold dx dy.
  set (len := sqrt (dx * dx + dy * dy)) in *.
  destruct (Rlt_dec (maxStepPerFrame e) len) as [_|H]; [|done].
  destruct (Req_EM_T len 0) as [E|Hne]; [lra|].
  assert (Hpos : 0 < len) by lra.
  exists (maxStepPerFrame e / len). split.
  { apply Rmult_le_pos; [done|]. apply Rlt_le, Rinv_0_lt_compat, Hpos. }
  split; [done|].
  assert (Hsq : len * len = dx * dx + dy * dy).
  { unfold len. apply sqrt_sqrt. nra. }
  transitivity ((dx * dx + dy * dy) * (maxStepPerFrame e / len) * (maxStepPerFrame e / len));
    [ring|].
  rewrite <- Hsq. field. lra.
Qed.

Lemma update_eq (e : Easing) (st : Puzzle) (d : Drag) (g : Group) :
  drag st = Some d ->
  reg_get (groupId d) (groups st) = Some g ->
  update e st
  = Some (with_groups st
            (reg_store
               (mkGroup (gid g) (members g)
                  (mkPt (js_round (IZR (px (pos g)) + (easedStep e (pos g) (dragTarget d)).1))
                        (js_round (IZR (py (pos g)) + (easedStep e (pos g) (dragTarget d)).2))))
               (groups st))).
Proof. intros Hd Hg. unfold update. by rewrite Hd, Hg. Qed.

(** C7, as the code has it.  When the eased step is longer than
    [maxStepPerFrame], it is scaled by a factor [s >= 0] (same direction) to
    a vector whose length is exactly [maxStepPerFrame]; the cluster's new
    coordinates are the old ones plus that vector, rounded to integers, so
    the change of position differs from the clamped step by at most one half
    on each axis. *)
Theorem update_clamped (e : Easing) (st : Puzzle) (d : Drag) (g : Group) :
  let dx := IZR (px (dragTarget d) - px (pos g)) * dragLerp e in
  let dy := IZR (py (dragTarget d) - py (pos g)) * dragLerp e in
  drag st = Some d ->
  reg_get (groupId d) (groups st) = Some g ->
  0 <= maxStepPerFrame e ->
  maxStepPerFrame e < sqrt (dx * dx + dy * dy) ->
  ∃ st' g' s,
    update e st = Some st'
    ∧ reg_get (groupId d) (groups st') = Some g'
    ∧ gid g' = gid g ∧ members g' = members g
    ∧ 0 <= s
    ∧ (dx * s) * (dx * s) + (dy * s) * (dy * s)
      = maxStepPerFrame e * maxStepPerFrame e
    ∧ px (pos g') = js_round (IZR (px (pos g)) + dx * s)
    ∧ py (pos g') = js_round (IZR (py (pos g)) + dy * s)
    ∧ Rabs (IZR (px (pos g') - px (pos g)) - dx * s) <= / 2
    ∧ Rabs (IZR (py (pos g') - py (pos g)) - dy * s) <= / 2.
Proof.
  intros dx dy Hd Hg Hm Hlen.
  destruct (easedStep_clamped e (pos g) (dragTarget d) Hm Hlen) as (s & Hs & He & Hsq).
  pose proof (reg_get_Some _ _ _ Hg) as [Hin Hid].
  unfold update. rewrite Hd, Hg. cbn [mbind option_bind]. rewrite He. cbn [fst snd].
  fold dx dy.
  eexists _, (mkGroup (gid g) (members g) _), s.
  split; [reflexivity|]. split.
  { cbn [groups with_groups]. rewrite <- Hid at 1.
    apply (reg_get_store_eq (mkGroup (gid g) _ _)). cbn [gid].
    by apply list_elem_of_fmap_2. }
  cbn [gid members pos px py].
  repeat (split; [done|]).
  rewrite !minus_IZR. split.
  - pose proof (js_round_near (IZR (px (pos g)) + dx * s)) as H.
    replace (IZR (js_round (IZR (px (pos g)) + dx * s)) - IZR (px (pos g)) - dx * s)
      with (IZR (js_round (IZR (px (pos g)) + dx * s)) - (IZR (px (pos g)) + dx * s)) by ring.
    exact H.
  - pose proof (js_round_near (IZR (py (pos g)) + dy * s)) as H.
    replace (IZR (js_round (IZR (py (pos g)) + dy * s)) - IZR (py (pos g)) - dy * s)
      with (IZR (js_round (IZR (py (pos g)) + dy * s)) - (IZR (py (pos g)) + dy * s)) by ring.
    exact H.
Qed.

Lemma easedStep_diagonal :
  easedStep defaultEasing (mkPt 0 0) (mkPt 100 100)
  = (20 * (10 / sqrt 800), 20 * (10 / sqrt 800)).
Proof.
  pose proof sqrt_800 as [H1 H2].
  unfold easedStep. cbn [px py maxStepPerFrame dragLerp defaultEasing].
  change (100 - 0)%Z with 100%Z.
  replace (100 * (2 / 10)) with 20 by lra.
  replace (20 * 20 + 20 * 20) with 800 by lra.
  destruct (Rlt_dec 10 (sqrt 800)) as [_|H]; [|lra].
  destruct (Req_EM_T (sqrt 800) 0) as [E|_]; [lra|]. reflexivity.
Qed.

End Easing.

(** C7 fails as stated.  With the default easing a cluster at [(0,0)] whose
    drag target is [(100,100)] has an eased step [(20,20)] of length
    [sqrt 800 > 10]; the clamped step is [(7.07..,7.07..)], the position is
    rounded to [(7,7)], and the length of that change is [sqrt 98], not
    [maxStepPerFrame = 10]. *)
Lemma diagonal_step_rounded :
  reg_get "g0" (groups pulledDiagonally) = Some (mkGroup "g0" [0] (mkPt 0 0))
  ∧ drag pulledDiagonally = Some (mkDrag "g0" 0 0 (mkPt 100 100))
  ∧ (maxStepPerFrame defaultEasing
     < sqrt ((IZR (100 - 0) * dragLerp defaultEasing) * (IZR (100 - 0) * dragLerp defaultEasing)
             + (IZR (100 - 0) * dragLerp defaultEasing) * (IZR (100 - 0) * dragLerp defaultEasing)))%R
  ∧ ∃ st', update defaultEasing pulledDiagonally = Some st'
           ∧ groups st' = [mkGroup "g0" [0] (mkPt 7 7)]
           ∧ sqrt (IZR ((7 - 0) * (7 - 0) + (7 - 0) * (7 - 0)))
             ≠ maxStepPerFrame defaultEasing.
Proof.
  pose proof sqrt_800 as [H1 H2].
  split; [reflexivity|]. split; [reflexivity|]. split.
  { cbn [maxStepPerFrame dragLerp defaultEasing].
    change (100 - 0)%Z with 100%Z.
    replace (100 * (2 / 10))%R with 20%R by lra.
    replace (20 * 20 + 20 * 20)%R with 800%R by lra. lra. }
  assert (Hx : (20 * (10 / sqrt 800) * sqrt 800 = 200)%R) by (field; lra).
  assert (Hr : js_round (IZR 0 + 20 * (10 / sqrt 800)) = 7%Z).
  { apply js_round_7. nra. }
  pose proof (update_eq defaultEasing pulledDiagonally
                (mkDrag "g0" 0 0 (mkPt 100 100)) (mkGroup "g0" [0] (mkPt 0 0))
                eq_refl eq_refl) as Hu.
  cbn [pos dragTarget gid members px py] in Hu.
  rewrite easedStep_diagonal in Hu. cbn [fst snd] in Hu. rewrite Hr in Hu.
  eexists. split; [exact Hu|]. split; [reflexivity|].
  cbn [maxStepPerFrame defaultEasing]. intros E.
  assert (Hs : (sqrt (IZR ((7 - 0) * (7 - 0) + (7 - 0) * (7 - 0)))
                * sqrt (IZR ((7 - 0) * (7 - 0) + (7 - 0) * (7 - 0))) = 98)%R).
  { change ((7 - 0) * (7 - 0) + (7 - 0) * (7 - 0))%Z with 98%Z. rewrite sqrt_sqrt; lra. }
  rewrite E in Hs. lra.
Qed.

Lemma update_clamped_witness :
  ∃ st', update defaultEasing pulledDiagonally = Some st'.
Proof.
  destruct (update_clamped defaultEasing pulledDiagonally
              (mkDrag "g0" 0 0 (mkPt 100 100)) (mkGroup "g0" [0] (mkPt 0 0))
              eq_refl eq_refl)
    as (st' & _ & _ & H & _).
  - cbn. lra.
  - pose proof sqrt_800 as [H1 H2].
    cbn [maxStepPerFrame dragLerp defaultEasing dragTarget pos px py].
    change (100 - 0)%Z with 100%Z.
    replace (100 * (2 / 10))%R with 20%R by lra.
    replace (20 * 20 + 20 * 20)%R with 800%R by lra. lra.
  - by exists st'.
Defined.

(** ** [_hitTest] *)

Section HitFacts.
Variable isPointInPath : Pt -> list Pt -> Q -> Q -> bool.
Implicit Types (st : Puzzle) (g : Group) (p : Piece) (x y : Q).

Lemma Qltb_true (a b : Q) : Qltb a b = true ↔ (a < b)%Q.
Proof.
  unfold Qltb. rewrite negb_true_iff, <- not_true_iff_false, Qle_bool_iff.
  split; [apply Qnot_le_lt | apply Qlt_not_le].
Qed.

Lemma Qltb_inject (a b : Z) : Qltb (inject_Z a) (inject_Z b) = (a <? b)%Z.
Proof.
  destruct (Z.ltb_spec a b) as [H|H].
  - apply Qltb_true. by rewrite <- Zlt_Qlt.
  - apply not_true_iff_false. rewrite Qltb_true, <- Zlt_Qlt. lia.
Qed.

Lemma outsideBox_true x y (w : Pt) p :
  outsideBox x y w p = true
  ↔ (x < inject_Z (px w) ∨ y < inject_Z (py w)
     ∨ inject_Z (px w + sizeW p) < x ∨ inject_Z (py w + sizeH p) < y)%Q.
Proof. unfold outsideBox. rewrite !orb_true_iff, !Qltb_true. tauto. Qed.

Lemma hitMembers_Some st g (ms : list nat) x y p :
  hitMembers isPointInPath st g ms x y = Some (Some p) ->
  ∃ i, i ∈ ms ∧ pieceById st i = Some p
       ∧ outsideBox x y (pt_add (target p) (pos g)) p = false.
Proof.
  induction ms as [|i ms IH]; [done|]. cbn [hitMembers].
  destruct (pieceById st i) as [q|] eqn:Hq; [|done]. cbn [mbind option_bind].
  destruct (outsideBox x y (pt_add (target q) (pos g)) q) eqn:Hbox.
  { intros H. destruct (IH H) as (j & Hj & H'). exists j. split; [by right | done]. }
  destruct (Edges.pathFn _ _ _ _) as [path|]; [|done]. cbn [mbind option_bind].
  destruct (isPointInPath _ _ _ _).
  - intros [= <-]. exists i. split; [by left | done].
  - intros H. destruct (IH H) as (j & Hj & H'). exists j. split; [by right | done].
Qed.

Lemma hitGroups_Some st (gs : list Group) x y p :
  hitGroups isPointInPath st gs x y = Some (Some p) ->
  ∃ g i, g ∈ gs ∧ i ∈ members g ∧ pieceById st i = Some p
         ∧ outsideBox x y (pt_add (target p) (pos g)) p = false.
Proof.
  induction gs as [|g gs IH]; [done|]. cbn [hitGroups].
  destruct (hitMembers isPointInPath st g (reverse (members g)) x y) as [[q|]|] eqn:Hm;
    cbn [mbind option_bind]; [| |done].
  - intros [= <-]. apply hitMembers_Some in Hm as (i & Hi & H').
    exists g, i. split; [by left|]. split; [by rewrite elem_of_reverse in Hi | done].
  - intros H. destruct (IH H) as (g' & i & Hg & H'). exists g', i. split; [by right | done].
Qed.

(** A piece that [_hitTest] returns contains the point in its cell
    rectangle, placed at its world position. *)
Lemma hitTest_inside st x y p (w : Pt) :
  Inv st ->
  hitTest isPointInPath st x y = Some (Some p) ->
  pieceWorldPos st (id p) = Some w ->
  outsideBox x y w p = false.
Proof.
  intros HI Hhit Hw. unfold hitTest in Hhit.
  apply hitGroups_Some in Hhit as (g & i & Hg & Hi & Hp & Hbox).
  rewrite elem_of_reverse in Hg.
  pose proof (pieceById_Some _ _ _ Hp) as [_ Hid]. subst i.
  rewrite (pieceWorldPos_intro st (id p) p g Hp) in Hw.
  - by injection Hw as <-.
  - by apply (Inv_index st g).
  - apply reg_get_elem; [by apply Inv_keys | done].
Qed.

Lemma outsideBox_inject (a c : Z) (w : Pt) p :
  outsideBox (inject_Z a) (inject_Z c) w p
  = ((a <? px w) || (c <? py w) || (px w + sizeW p <? a) || (py w + sizeH p <? c))%Z.
Proof. unfold outsideBox. by rewrite !Qltb_inject. Qed.

(** On the column board with the top piece parked far away, the first
    vertex of the bottom piece's path lies above its cell rectangle, and
    [_hitTest] at that vertex finds nothing, whatever the canvas answers. *)
Lemma bulge_not_hit :
  ∃ (st : Puzzle) (path : list Pt) (v w : Pt),
    columnApart = Some st
    ∧ Inv st
    ∧ pieceById st 1 = Some (mkPiece 1 1 0 (mkPt 0 50) 100 50)
    ∧ pieceWorldPos st 1 = Some w
    ∧ Edges.pathFn (board st) (edges st) 1 0 = Some path
    ∧ path !! 0 = Some v
    ∧ (py (pt_add w v) < py w)%Z
    ∧ hitTest isPointInPath st (inject_Z (px (pt_add w v))) (inject_Z (py (pt_add w v)))
      = Some None.
Proof.
  set (v := Edges.hPoint columnBoard 1 0 0).
  assert (Hy : (py v < 0)%Z) by exact EdgeFacts.interior_first_sample.
  assert (Hx : px v = 0%Z) by apply EdgeFacts.along_0.
  exists (stateOf columnApart), 
    (Edges.pathTop (Edges.hPoly columnBoard 1 0)
     ++ Edges.pathRight columnBoard (Edges.vPoly columnBoard 1 1)
     ++ Edges.pathBottom columnBoard (Edges.hPoly columnBoard 2 0)
     ++ Edges.pathLeft (Edges.vPoly columnBoard 0 1)),
    v, (mkPt 0 50).
  split; [by vm_compute|].
  split; [apply (bool_decide_unpack _); by vm_compute|].
  split; [by vm_compute|].
  split; [by vm_compute|].
  split.
  { change (board (stateOf columnApart)) with columnBoard.
    change (edges (stateOf columnApart)) with (Edges.buildSharedEdges columnBoard).
    unfold Edges.pathFn, Edges.readTop, Edges.readRight, Edges.readBottom, Edges.readLeft.
    rewrite !EdgeFacts.at2_hEdges, !EdgeFacts.at2_vEdges by (cbn; lia).
    cbn [mbind option_bind]. rewrite EdgeFacts.hPoly_lookup by (unfold Edges.N; lia).
    reflexivity. }
  split; [reflexivity|].
  split; [unfold pt_add; cbn [px py]; lia|].
  unfold hitTest.
  change (groups (stateOf columnApart))
    with [mkGroup "g1" [1] (mkPt 0 0); mkGroup "g0" [0] (mkPt 1000 0)].
  cbn [reverse rev_append hitGroups members hitMembers].
  change (pieceById (stateOf columnApart) 0) with (Some (mkPiece 0 0 0 (mkPt 0 0) 100 50)).
  change (pieceById (stateOf columnApart) 1) with (Some (mkPiece 1 1 0 (mkPt 0 50) 100 50)).
  cbn [mbind option_bind]. rewrite !outsideBox_inject.
  unfold pt_add. cbn [px py target pos sizeW sizeH]. rewrite Hx.
  replace (0 + 0 <? 0 + 1000)%Z with true by reflexivity. cbn [orb mbind option_bind].
  replace (50 + py v <? 50 + 0)%Z with true by (symmetry; apply Z.ltb_lt; lia).
  rewrite orb_true_r. reflexivity.
Qed.

(** C10.  Whatever the canvas primitive answers, [_hitTest] never returns a
    piece for a point strictly outside the piece's cell rectangle at its
    world position; and there are a board, a piece and a vertex of that
    piece's boundary path, outside the rectangle, at which [_hitTest]
    returns no piece at all. *)
Theorem hitTest_box_only :
  (∀ st x y p (w : Pt),
     Inv st ->
     pieceWorldPos st (id p) = Some w ->
     (x < inject_Z (px w) ∨ y < inject_Z (py w)
      ∨ inject_Z (px w + sizeW p) < x ∨ inject_Z (py w + sizeH p) < y)%Q ->
     hitTest isPointInPath st x y ≠ Some (Some p))
  ∧ (∃ (st : Puzzle) (path : list Pt) (v w : Pt),
       columnApart = Some st
       ∧ Inv st
       ∧ pieceById st 1 = Some (mkPiece 1 1 0 (mkPt 0 50) 100 50)
       ∧ pieceWorldPos st 1 = Some w
       ∧ Edges.pathFn (board st) (edges st) 1 0 = Some path
       ∧ path !! 0 = Some v
       ∧ (py (pt_add w v) < py w)%Z
       ∧ hitTest isPointInPath st (inject_Z (px (pt_add w v))) (inject_Z (py (pt_add w v)))
         = Some None).
Proof.
  split; [|apply bulge_not_hit].
  intros st x y p w HI Hw Hout Hhit.
  apply outsideBox_true in Hout.
  pose proof (hitTest_inside st x y p w HI Hhit Hw). congruence.
Qed.

End HitFacts.

Lemma hitTest_box_only_witness :
  hitTest (fun _ _ _ _ => true) (rowPuzzle 2) (inject_Z 150) (inject_Z (-3))
  ≠ Some (Some (mkPiece 1 0 1 (mkPt 100 0) 100 100)).
Proof.
  apply (proj1 (hitTest_box_only (fun _ _ _ _ => true))
           (rowPuzzle 2) (inject_Z 150) (inject_Z (-3))
           (mkPiece 1 0 1 (mkPt 100 0) 100 100) (mkPt 100 0)).
  - apply (bool_decide_unpack _). by vm_compute.
  - by vm_compute.
  - right. left. by vm_compute.
Defined.

(** ** The layout computed by [init] *)

Section Layout.
Implicit Types (cv : Canvas) (img : Image).

Lemma fitScale_nonneg cv (pad : Z) img :
  (0 < imageW img)%Z -> (0 < imageH img)%Z ->
  (pad * 2 <= canvasW cv)%Z -> (pad * 2 <= canvasH cv)%Z ->
  (0 <= fitScale cv pad img)%R.
Proof.
  intros Hw Hh Hcw Hch. unfold fitScale, innerW, innerH.
  apply IZR_lt in Hw, Hh.
  assert (0 <= IZR (canvasW cv - pad * 2))%R by (apply IZR_le; lia).
  assert (0 <= IZR (canvasH cv - pad * 2))%R by (apply IZR_le; lia).
  apply Rmin_glb; apply Rmult_le_pos; try done; left; by apply Rinv_0_lt_compat.
Qed.

Lemma scaled_width_le cv (pad : Z) img :
  (0 < imageW img)%Z ->
  (IZR (imageW img) * fitScale cv pad img <= IZR (innerW cv pad))%R.
Proof.
  intros Hw. apply IZR_lt in Hw. unfold fitScale.
  pose proof (Rmin_l (IZR (innerW cv pad) / IZR (imageW img))
                     (IZR (innerH cv pad) / IZR (imageH img))) as Hm.
  apply (Rmult_le_compat_l (IZR (imageW img))) in Hm; [|lra].
  replace (IZR (imageW img) * (IZR (innerW cv pad) / IZR (imageW img)))%R
    with (IZR (innerW cv pad)) in Hm by (field; lra).
  exact Hm.
Qed.

Lemma scaled_height_le cv (pad : Z) img :
  (0 < imageH img)%Z ->
  (IZR (imageH img) * fitScale cv pad img <= IZR (innerH cv pad))%R.
Proof.
  intros Hh. apply IZR_lt in Hh. unfold fitScale.
  pose proof (Rmin_r (IZR (innerW cv pad) / IZR (imageW img))
                     (IZR (innerH cv pad) / IZR (imageH img))) as Hm.
  apply (Rmult_le_compat_l (IZR (imageH img))) in Hm; [|lra].
  replace (IZR (imageH img) * (IZR (innerH cv pad) / IZR (imageH img)))%R
    with (IZR (innerH cv pad)) in Hm by (field; lra).
  exact Hm.
Qed.

Lemma drawW_le cv (pad : Z) img :
  (0 < imageW img)%Z -> (drawW cv pad img <= innerW cv pad)%Z.
Proof.
  intros Hw. pose proof (js_round_mono _ _ (scaled_width_le cv pad img Hw)) as H.
  by rewrite js_round_IZR in H.
Qed.

Lemma drawH_le cv (pad : Z) img :
  (0 < imageH img)%Z -> (drawH cv pad img <= innerH cv pad)%Z.
Proof.
  intros Hh. pose proof (js_round_mono _ _ (scaled_height_le cv pad img Hh)) as H.
  by rewrite js_round_IZR in H.
Qed.

Lemma js_round_nonneg (x : R) : (0 <= x)%R -> (0 <= js_round x)%Z.
Proof. intros H. rewrite <- (js_round_IZR 0). by apply js_round_mono. Qed.

(** [Math.floor((a - d) / 2)] lies between the two margins. *)
Lemma half_floor (a d : Z) :
  (2 * js_floor (IZR (a - d) / 2) <= a - d)%Z ∧ (a - d < 2 * js_floor (IZR (a - d) / 2) + 2)%Z.
Proof.
  unfold js_floor. destruct (Zfloor_bound (IZR (a - d) / 2)) as [H1 H2].
  split.
  - apply le_IZR. rewrite mult_IZR. lra.
  - apply lt_IZR. rewrite plus_IZR, mult_IZR. lra.
Qed.

(** [Math.floor(d / n) * n <= d] for a positive count [n]. *)
Lemma cell_floor (d : Z) (n : nat) :
  0 < n -> (js_floor (IZR d / INR n) * Z.of_nat n <= d)%Z.
Proof.
  intros Hn. unfold js_floor. destruct (Zfloor_bound (IZR d / INR n)) as [H1 _].
  assert (Hpos : (0 < INR n)%R) by (apply lt_0_INR; lia).
  apply le_IZR. rewrite mult_IZR, <- INR_IZR_INZ.
  apply (Rmult_le_compat_r (INR n)) in H1; [|lra].
  replace (IZR d / INR n * INR n)%R with (IZR d) in H1 by (field; lra). exact H1.
Qed.

Lemma cell_nonneg (d : Z) (n : nat) :
  0 < n -> (0 <= d)%Z -> (0 <= js_floor (IZR d / INR n))%Z.
Proof.
  intros Hn Hd. unfold js_floor. apply Zfloor_lub.
  assert (Hpos : (0 < INR n)%R) by (apply lt_0_INR; lia).
  apply IZR_le in Hd. apply Rmult_le_pos; [done|]. left. by apply Rinv_0_lt_compat.
Qed.

(** X1.  When the canvas is at least twice the padding wide and high, the
    home cell of every piece of the board laid out by [init] lies inside
    the canvas with the padding taken off on each side. *)
Theorem layout_within_padding cv (pad : Z) img (nr nc : nat) (p : Piece) :
  (0 < imageW img)%Z -> (0 < imageH img)%Z -> 0 < nr -> 0 < nc ->
  (pad * 2 <= canvasW cv)%Z -> (pad * 2 <= canvasH cv)%Z ->
  p ∈ createPieces (layout cv pad img nr nc) ->
  (pad <= px (target p))%Z
  ∧ (px (target p) + sizeW p <= canvasW cv - pad)%Z
  ∧ (pad <= py (target p))%Z
  ∧ (py (target p) + sizeH p <= canvasH cv - pad)%Z.
Proof.
  intros Hw Hh Hnr Hnc Hcw Hch Hp.
  apply createPieces_elem in Hp as (Hr & Hc & Ht & Hsw & Hsh & _).
  rewrite Ht, Hsw, Hsh. cbn [px py layout rows cols cellW cellH boundsX boundsY] in *.
  pose proof (drawW_le cv pad img Hw) as HdW.
  pose proof (drawH_le cv pad img Hh) as HdH.
  assert (HW0 : (0 <= drawW cv pad img)%Z).
  { unfold drawW. apply js_round_nonneg. apply Rmult_le_pos.
    - apply IZR_le. lia.
    - by apply fitScale_nonneg. }
  assert (HH0 : (0 <= drawH cv pad img)%Z).
  { unfold drawH. apply js_round_nonneg. apply Rmult_le_pos.
    - apply IZR_le. lia.
    - by apply fitScale_nonneg. }
  pose proof (half_floor (canvasW cv) (drawW cv pad img)) as [Hx1 Hx2].
  pose proof (half_floor (canvasH cv) (drawH cv pad img)) as [Hy1 Hy2].
  pose proof (cell_floor (drawW cv pad img) nc Hnc) as HcW.
  pose proof (cell_floor (drawH cv pad img) nr Hnr) as HcH.
  pose proof (cell_nonneg (drawW cv pad img) nc Hnc HW0) as HcW0.
  pose proof (cell_nonneg (drawH cv pad img) nr Hnr HH0) as HcH0.
  unfold innerW, innerH in *.
  set (cw := js_floor (IZR (drawW cv pad img) / INR nc)) in *.
  set (ch := js_floor (IZR (drawH cv pad img) / INR nr)) in *.
  set (ox := js_floor (IZR (canvasW cv - drawW cv pad img) / 2)) in *.
  set (oy := js_floor (IZR (canvasH cv - drawH cv pad img) / 2)) in *.
  assert (Z.of_nat (pc p) * cw + cw <= cw * Z.of_nat nc)%Z by nia.
  assert (Z.of_nat (pr p) * ch + ch <= ch * Z.of_nat nr)%Z by nia.
  assert (0 <= Z.of_nat (pc p) * cw)%Z by nia.
  assert (0 <= Z.of_nat (pr p) * ch)%Z by nia.
  lia.
Qed.

(** X2.  The image is fitted inside the padded canvas without being
    stretched past it: the drawn size is at most the inner size on both
    axes and equals it on at least one. *)
Theorem layout_contain_fit cv (pad : Z) img :
  (0 < imageW img)%Z -> (0 < imageH img)%Z ->
  (drawW cv pad img <= innerW cv pad)%Z
  ∧ (drawH cv pad img <= innerH cv pad)%Z
  ∧ (drawW cv pad img = innerW cv pad ∨ drawH cv pad img = innerH cv pad).
Proof.
  intros Hw Hh. split; [by apply drawW_le|]. split; [by apply drawH_le|].
  unfold drawW, drawH, fitScale.
  pose proof (IZR_lt _ _ Hw) as Hw'. pose proof (IZR_lt _ _ Hh) as Hh'.
  destruct (Rle_dec (IZR (innerW cv pad) / IZR (imageW img))
                    (IZR (innerH cv pad) / IZR (imageH img))) as [Hle|Hgt].
  - left. rewrite Rmin_left by done.
    replace (IZR (imageW img) * (IZR (innerW cv pad) / IZR (imageW img)))%R
      with (IZR (innerW cv pad)) by (field; lra).
    apply js_round_IZR.
  - right. rewrite Rmin_right by lra.
    replace (IZR (imageH img) * (IZR (innerH cv pad) / IZR (imageH img)))%R
      with (IZR (innerH cv pad)) by (field; lra).
    apply js_round_IZR.
Qed.

End Layout.

(** A 800x600 canvas, the default padding, and a 300x400 portrait image cut
    in two rows of two: the first piece. *)
Lemma layout_within_padding_witness :
  ∃ p, p ∈ createPieces (layout (mkCanvas 800 600) 24 (mkImage 300 400) 2 2)
       ∧ (24 <= px (target p))%Z ∧ (px (target p) + sizeW p <= 800 - 24)%Z
       ∧ (24 <= py (target p))%Z ∧ (py (target p) + sizeH p <= 600 - 24)%Z.
Proof.
  assert (H : ∃ p, createPieces (layout (mkCanvas 800 600) 24 (mkImage 300 400) 2 2) !! 0
                   = Some p) by (eexists; reflexivity).
  destruct H as [p Hp]. exists p. apply list_elem_of_lookup_2 in Hp. split; [exact Hp|].
  apply (layout_within_padding (mkCanvas 800 600) 24 (mkImage 300 400) 2 2 p);
    cbn; try lia; exact Hp.
Defined.

Lemma layout_contain_fit_witness :
  (drawW (mkCanvas 800 600) 24 (mkImage 300 400) <= 752)%Z
  ∧ (drawH (mkCanvas 800 600) 24 (mkImage 300 400) <= 552)%Z
  ∧ (drawW (mkCanvas 800 600) 24 (mkImage 300 400) = 752%Z
     ∨ drawH (mkCanvas 800 600) 24 (mkImage 300 400) = 552%Z).
Proof. apply (layout_contain_fit (mkCanvas 800 600) 24 (mkImage 300 400)); cbn; lia. Defined.

(** ** The catalogue as a grid *)

Section Grid.
Implicit Types (b : Board) (p q : Piece) (st : Puzzle).

Lemma rows_lookup (n s m k c : nat) :
  k < m -> c < n ->
  flat_map (fun r => pair r <$> seq 0 n) (seq s m) !! (k * n + c) = Some (s + k, c).
Proof.
  revert s k. induction m as [|m IH]; intros s k Hk Hc; [lia|].
  cbn [seq flat_map]. destruct k as [|k].
  - rewrite lookup_app_l by (rewrite length_fmap, length_seq; lia).
    rewrite list_lookup_fmap, lookup_seq_lt by lia. cbn. do 2 f_equal. lia.
  - rewrite lookup_app_r by (rewrite length_fmap, length_seq; lia).
    rewrite length_fmap, length_seq.
    replace (S k * n + c - n) with (k * n + c) by lia.
    rewrite IH by lia. do 2 f_equal. lia.
Qed.

Lemma rows_length (n s m : nat) :
  length (flat_map (fun r => pair r <$> seq 0 n) (seq s m)) = m * n.
Proof.
  revert s. induction m as [|m IH]; intros s; [done|].
  cbn [seq flat_map]. rewrite length_app, length_fmap, length_seq, IH. lia.
Qed.

Lemma cells_lookup b (r c : nat) :
  r < rows b -> c < cols b -> cells b !! (r * cols b + c) = Some (r, c).
Proof. intros Hr Hc. unfold cells. by rewrite rows_lookup. Qed.

Lemma cells_length b : length (cells b) = rows b * cols b.
Proof. apply rows_length. Qed.

Lemma cells_lookup_inv b (k r c : nat) :
  cells b !! k = Some (r, c) -> k = r * cols b + c.
Proof.
  intros Hk. pose proof (lookup_lt_Some _ _ _ Hk) as Hlt. rewrite cells_length in Hlt.
  assert (Hc : 0 < cols b) by nia.
  pose proof (Nat.div_mod_eq k (cols b)) as Hdm.
  pose proof (Nat.mod_upper_bound k (cols b) ltac:(lia)) as Hm.
  assert (Hd : k / cols b < rows b).
  { apply Nat.Div0.div_lt_upper_bound. lia. }
  pose proof (cells_lookup b (k / cols b) (k mod cols b) Hd Hm) as Hl.
  replace (k / cols b * cols b + k mod cols b) with k in Hl by lia.
  rewrite Hk in Hl. injection Hl as -> ->. lia.
Qed.

Lemma createPieces_length b : length (createPieces b) = rows b * cols b.
Proof. unfold createPieces. by rewrite length_imap, cells_length. Qed.

Lemma createPieces_at b (r c : nat) :
  r < rows b -> c < cols b ->
  createPieces b !! (r * cols b + c)
  = Some (mkPiece (r * cols b + c) r c
            (mkPt (boundsX b + Z.of_nat c * cellW b) (boundsY b + Z.of_nat r * cellH b))
            (cellW b) (cellH b)).
Proof.
  intros Hr Hc. unfold createPieces. rewrite list_lookup_imap, cells_lookup by done. done.
Qed.

Lemma createPieces_id b p : p ∈ createPieces b -> id p = pr p * cols b + pc p.
Proof.
  intros Hp. apply list_elem_of_lookup_1 in Hp as [k Hk].
  unfold createPieces in Hk. rewrite list_lookup_imap in Hk.
  destruct (cells b !! k) as [[r c]|] eqn:E; [|done].
  injection Hk as <-. cbn. by apply cells_lookup_inv.
Qed.

(** Two catalogue pieces in the same cell are the same piece. *)
Lemma createPieces_cell b p q :
  p ∈ createPieces b -> q ∈ createPieces b -> pr p = pr q -> pc p = pc q -> p = q.
Proof.
  intros Hp Hq Hr Hc.
  pose proof (createPieces_id b p Hp) as Ip. pose proof (createPieces_id b q Hq) as Iq.
  apply createPieces_elem in Hp as (_ & _ & _ & _ & _ & Lp).
  apply createPieces_elem in Hq as (_ & _ & _ & _ & _ & Lq).
  rewrite Ip, Hr, Hc, <- Iq, Lq in Lp. by injection Lp.
Qed.

Lemma getPiece_in st (r c : nat) :
  pieces st = createPieces (board st) ->
  r < rows (board st) -> c < cols (board st) ->
  getPiece st (Z.of_nat r) (Z.of_nat c)
  = createPieces (board st) !! (r * cols (board st) + c).
Proof.
  intros Hcat Hr Hc. unfold getPiece.
  replace ((Z.of_nat r <? 0) || (Z.of_nat c <? 0)
           || (Z.of_nat r >=? Z.of_nat (rows (board st)))
           || (Z.of_nat c >=? Z.of_nat (cols (board st))))%Z with false.
  - rewrite Hcat. f_equal. lia.
  - symmetry. rewrite !orb_false_iff. repeat split; lia.
Qed.

Lemma getPiece_out st (r c : Z) :
  ¬ (0 <= r < Z.of_nat (rows (board st)) ∧ 0 <= c < Z.of_nat (cols (board st)))%Z ->
  getPiece st r c = None.
Proof.
  intros Hout. unfold getPiece.
  replace ((r <? 0) || (c <? 0) || (r >=? Z.of_nat (rows (board st)))
           || (c >=? Z.of_nat (cols (board st))))%Z with true; [done|].
  symmetry. rewrite !orb_true_iff. lia.
Qed.

(** X3.  On the catalogue of [_createPieces], [_getPiece(r,c)] is the piece
    of row [r] and column [c], whose id is [r * cols + c] and whose target is
    the cell's corner, when [(r,c)] is a cell of the grid, and [null] for
    every other pair of integers, negative ones included. *)
Theorem getPiece_grid st (r c : Z) :
  pieces st = createPieces (board st) ->
  ((0 <= r < Z.of_nat (rows (board st)) ∧ 0 <= c < Z.of_nat (cols (board st)))%Z ->
   ∃ p, getPiece st r c = Some p
        ∧ Z.of_nat (id p) = (r * Z.of_nat (cols (board st)) + c)%Z
        ∧ Z.of_nat (pr p) = r ∧ Z.of_nat (pc p) = c
        ∧ target p = mkPt (boundsX (board st) + c * cellW (board st))
                          (boundsY (board st) + r * cellH (board st)))
  ∧ (¬ (0 <= r < Z.of_nat (rows (board st)) ∧ 0 <= c < Z.of_nat (cols (board st)))%Z ->
     getPiece st r c = None).
Proof.
  intros Hcat. split; [|apply getPiece_out].
  intros [Hr Hc].
  assert (Er : r = Z.of_nat (Z.to_nat r)) by lia.
  assert (Ec : c = Z.of_nat (Z.to_nat c)) by lia.
  rewrite Er, Ec.
  rewrite getPiece_in, createPieces_at by (done || lia).
  eexists. split; [done|]. cbn [id pr pc target].
  repeat split; lia.
Qed.

(** X4.  [_pieceById(i)] is the [i]-th piece pushed: ids are positions in
    the catalogue, and an id past the end gives [undefined]. *)
Theorem pieceById_index st (i : nat) :
  pieces st = createPieces (board st) ->
  pieceById st i = pieces st !! i.
Proof.
  intros Hcat. destruct (pieces st !! i) as [p|] eqn:Hp.
  - pose proof Hp as Hp'. rewrite Hcat in Hp'.
    apply createPieces_lookup in Hp' as [<- _].
    apply pieceById_catalogue; [done|]. by apply list_elem_of_lookup_2 in Hp.
  - destruct (pieceById st i) as [p|] eqn:Hf; [|done].
    apply pieceById_Some in Hf as [Hin <-]. rewrite Hcat in Hin.
    apply createPieces_elem in Hin as (_ & _ & _ & _ & _ & Hl).
    rewrite Hcat in Hp. congruence.
Qed.

Lemma getPiece_cell st (r c : Z) q :
  pieces st = createPieces (board st) ->
  getPiece st r c = Some q -> Z.of_nat (pr q) = r ∧ Z.of_nat (pc q) = c.
Proof.
  intros Hcat Hq.
  destruct (decide (0 <= r < Z.of_nat (rows (board st))
                    ∧ 0 <= c < Z.of_nat (cols (board st)))%Z) as [[Hr Hc]|Hout].
  - rewrite <- (Z2Nat.id r), <- (Z2Nat.id c) in Hq by lia.
    rewrite getPiece_in, createPieces_at in Hq by (done || lia).
    injection Hq as <-. cbn. lia.
  - by rewrite getPiece_out in Hq.
Qed.

Lemma getPiece_of st q :
  pieces st = createPieces (board st) -> q ∈ pieces st ->
  getPiece st (Z.of_nat (pr q)) (Z.of_nat (pc q)) = Some q.
Proof.
  intros Hcat Hq. rewrite Hcat in Hq. pose proof (createPieces_id _ _ Hq) as Hid.
  apply createPieces_elem in Hq as (Hr & Hc & _ & _ & _ & Hl).
  rewrite getPiece_in by done. by rewrite <- Hid.
Qed.

Lemma neighbours_unfold st p q :
  q ∈ neighbours st p ↔
  getPiece st (Z.of_nat (pr p)) (Z.of_nat (pc p) - 1) = Some q
  ∨ getPiece st (Z.of_nat (pr p)) (Z.of_nat (pc p) + 1) = Some q
  ∨ getPiece st (Z.of_nat (pr p) - 1) (Z.of_nat (pc p)) = Some q
  ∨ getPiece st (Z.of_nat (pr p) + 1) (Z.of_nat (pc p)) = Some q.
Proof.
  unfold neighbours. rewrite list_elem_of_omap. split.
  - intros (o & Ho & Hq). subst o.
    repeat (apply elem_of_cons in Ho as [Ho | Ho]; [symmetry in Ho; tauto|]).
    by apply elem_of_nil in Ho.
  - intros H. exists (Some q). split; [|done].
    destruct H as [<- | [<- | [<- | <-]]]; set_solver.
Qed.

(** A piece tried against [p] is a catalogue piece in a cell next to
    [p]'s. *)
Lemma neighbours_cell st p q :
  pieces st = createPieces (board st) ->
  q ∈ neighbours st p -> q ∈ pieces st ∧ adjacent p q.
Proof.
  intros Hcat H. apply neighbours_unfold in H. unfold adjacent. split.
  - destruct H as [H | [H | [H | H]]]; by apply getPiece_elem in H.
  - destruct H as [H | [H | [H | H]]]; apply (getPiece_cell st _ _ q Hcat) in H; lia.
Qed.

(** X5.  The pieces [_trySnapAndMerge] tries against a piece [p] are
    exactly the catalogue pieces in a cell next to [p]'s: left, right, above
    or below, never a diagonal one and never [p] itself. *)
Theorem neighbours_adjacent st p q :
  pieces st = createPieces (board st) ->
  q ∈ neighbours st p ↔ q ∈ pieces st ∧ adjacent p q.
Proof.
  intros Hcat. split; [by apply neighbours_cell|].
  rewrite neighbours_unfold. unfold adjacent.
  intros [Hq Hadj]. pose proof (getPiece_of st q Hcat Hq) as Hg.
  destruct Hadj as [[Hr [Hc | Hc]] | [Hc [Hr | Hr]]].
  - right; left. rewrite <- Hg. f_equal; lia.
  - left. rewrite <- Hg. f_equal; lia.
  - right; right; right. rewrite <- Hg. f_equal; lia.
  - right; right; left. rewrite <- Hg. f_equal; lia.
Qed.

End Grid.

Lemma getPiece_grid_witness :
  (∃ p, getPiece (rowPuzzle 3) 0 2 = Some p
        ∧ Z.of_nat (id p) = (0 * Z.of_nat 3 + 2)%Z
        ∧ Z.of_nat (pr p) = 0%Z ∧ Z.of_nat (pc p) = 2%Z
        ∧ target p = mkPt (0 + 2 * 100) (0 + 0 * 100))
  ∧ getPiece (rowPuzzle 3) 0 (-1) = None.
Proof.
  destruct (getPiece_grid (rowPuzzle 3) 0 2 eq_refl) as [H _].
  destruct (getPiece_grid (rowPuzzle 3) 0 (-1) eq_refl) as [_ H'].
  split; [apply H; cbn; lia | apply H'; cbn; lia].
Defined.

Lemma pieceById_index_witness :
  pieceById (rowPuzzle 3) 5 = pieces (rowPuzzle 3) !! 5.
Proof. apply (pieceById_index (rowPuzzle 3) 5). reflexivity. Defined.

Lemma neighbours_adjacent_witness :
  mkPiece 2 0 2 (mkPt 200 0) 100 100
    ∈ neighbours (rowPuzzle 3) (mkPiece 1 0 1 (mkPt 100 0) 100 100)
  ↔ mkPiece 2 0 2 (mkPt 200 0) 100 100 ∈ pieces (rowPuzzle 3)
    ∧ adjacent (mkPiece 1 0 1 (mkPt 100 0) 100 100) (mkPiece 2 0 2 (mkPt 200 0) 100 100).
Proof.
  apply (neighbours_adjacent (rowPuzzle 3)). reflexivity.
Defined.

(** ** The outline of a piece *)

Section Outline.
Import Edges EdgeFacts.

Lemma amp_pos (d : Z) : (4 <= amp d)%Z.
Proof. unfold amp. lia. Qed.

Lemma param_unit (i : nat) : i ≤ N -> (0 <= param i <= 1)%R.
Proof.
  intros Hi. rewrite <- param_0, <- param_N. split; apply param_mono; lia.
Qed.

Lemma wave_bound (t : R) (seed : nat) (a : Z) :
  (0 <= a)%Z -> (- a <= wave t seed a <= a)%Z.
Proof.
  intros Ha. unfold wave. apply IZR_le in Ha.
  pose proof (SIN_bound (t * 2 * PI + INR seed)) as [Hlo Hhi].
  split.
  - rewrite <- (js_round_IZR (- a)). apply js_round_mono. rewrite opp_IZR. nra.
  - rewrite <- (js_round_IZR a) at 2. apply js_round_mono. nra.
Qed.

Lemma along_bound (i : nat) (w : Z) :
  i ≤ N -> (0 <= w)%Z -> (0 <= js_round (param i * IZR w) <= w)%Z.
Proof.
  intros Hi Hw. apply IZR_le in Hw. destruct (param_unit i Hi) as [H0 H1]. split.
  - rewrite <- (js_round_IZR 0). apply js_round_mono. nra.
  - rewrite <- (js_round_IZR w) at 2. apply js_round_mono. nra.
Qed.

Lemma hPoint_bound (b : Board) (r c i : nat) :
  i ≤ N -> (0 <= cellW b)%Z ->
  (0 <= px (hPoint b r c i) <= cellW b)%Z
  ∧ (- amp (cellH b) <= py (hPoint b r c i) <= amp (cellH b))%Z.
Proof.
  intros Hi Hw. unfold hPoint. cbn [px py]. split; [by apply along_bound|].
  pose proof (amp_pos (cellH b)).
  destruct ((r =? 0) || (r =? rows b)); [lia|]. apply wave_bound. lia.
Qed.

Lemma vPoint_bound (b : Board) (c r i : nat) :
  i ≤ N -> (0 <= cellH b)%Z ->
  (- amp (cellW b) <= px (vPoint b c r i) <= amp (cellW b))%Z
  ∧ (0 <= py (vPoint b c r i) <= cellH b)%Z.
Proof.
  intros Hi Hh. unfold vPoint. cbn [px py]. split; [|by apply along_bound].
  pose proof (amp_pos (cellW b)).
  destruct ((c =? 0) || (c =? cols b)); [lia|]. apply wave_bound. lia.
Qed.

Lemma hPoly_elem (b : Board) (r c : nat) (p : Pt) :
  p ∈ hPoly b r c -> ∃ i, i ≤ N ∧ p = hPoint b r c i.
Proof. intros H. apply list_elem_of_lookup_1 in H as [i Hi]. exists i. by apply hPoly_inv. Qed.

Lemma vPoly_elem (b : Board) (c r : nat) (p : Pt) :
  p ∈ vPoly b c r -> ∃ i, i ≤ N ∧ p = vPoint b c r i.
Proof. intros H. apply list_elem_of_lookup_1 in H as [i Hi]. exists i. by apply vPoly_inv. Qed.

Lemma hPoly_length (b : Board) (r c : nat) : length (hPoly b r c) = S N.
Proof. unfold hPoly. by rewrite length_fmap, length_seq. Qed.

Lemma vPoly_length (b : Board) (c r : nat) : length (vPoly b c r) = S N.
Proof. unfold vPoly. by rewrite length_fmap, length_seq. Qed.

(** On the tables of [_buildSharedEdges] the path of a piece of the grid
    reads four existing entries. *)
Lemma pathFn_catalogue (b : Board) (r c : nat) :
  r < rows b -> c < cols b ->
  pathFn b (buildSharedEdges b) r c
  = Some (pathTop (hPoly b r c) ++ pathRight b (vPoly b (c + 1) r)
            ++ pathBottom b (hPoly b (r + 1) c) ++ pathLeft (vPoly b c r)).
Proof.
  intros Hr Hc. unfold pathFn, readTop, readRight, readBottom, readLeft.
  rewrite !at2_hEdges, !at2_vEdges by lia. cbn [mbind option_bind].
  rewrite hPoly_lookup by lia. done.
Qed.

(** X6.  The outline of a piece of the grid has [4 N + 1] points, and none
    of them leaves the piece's cell by more than the wave amplitude: at most
    [amp(cell.w)] horizontally and [amp(cell.h)] vertically. *)
Theorem outline_within_amplitude (b : Board) (r c : nat) :
  (0 <= cellW b)%Z -> (0 <= cellH b)%Z -> r < rows b -> c < cols b ->
  ∃ path,
    pathFn b (buildSharedEdges b) r c = Some path
    ∧ length path = 4 * N + 1
    ∧ ∀ pt, pt ∈ path ->
        (- amp (cellW b) <= px pt <= cellW b + amp (cellW b))%Z
        ∧ (- amp (cellH b) <= py pt <= cellH b + amp (cellH b))%Z.
Proof.
  intros Hw Hh Hr Hc. eexists. split; [by apply pathFn_catalogue|].
  pose proof (amp_pos (cellW b)) as HaW. pose proof (amp_pos (cellH b)) as HaH.
  split.
  - unfold pathTop, pathRight, pathBottom, pathLeft.
    rewrite !length_app, !length_fmap, !length_reverse, !length_take, length_drop,
      !hPoly_length, !vPoly_length.
    unfold N. lia.
  - intros pt Hpt. unfold pathTop, pathRight, pathBottom, pathLeft in Hpt.
    rewrite !elem_of_app in Hpt. destruct Hpt as [H | [H | [H | H]]].
    + apply hPoly_elem in H as (i & Hi & ->).
      pose proof (hPoint_bound b r c i Hi Hw). lia.
    + apply list_elem_of_fmap in H as (q & -> & Hq).
      apply (subseteq_drop 1) in Hq. apply vPoly_elem in Hq as (i & Hi & ->).
      pose proof (vPoint_bound b (c + 1) r i Hi Hh). cbn [px py]. lia.
    + apply list_elem_of_fmap in H as (q & -> & Hq).
      rewrite elem_of_reverse in Hq. apply subseteq_take in Hq.
      apply hPoly_elem in Hq as (i & Hi & ->).
      pose proof (hPoint_bound b (r + 1) c i Hi Hw). cbn [px py]. lia.
    + rewrite elem_of_reverse in H. apply subseteq_take in H.
      apply vPoly_elem in H as (i & Hi & ->).
      pose proof (vPoint_bound b c r i Hi Hh). lia.
Qed.

End Outline.

Lemma outline_within_amplitude_witness :
  ∃ path,
    Edges.pathFn columnBoard (Edges.buildSharedEdges columnBoard) 1 0 = Some path
    ∧ length path = 4 * Edges.N + 1
    ∧ ∀ pt, pt ∈ path ->
        (- Edges.amp 100 <= px pt <= 100 + Edges.amp 100)%Z
        ∧ (- Edges.amp 50 <= py pt <= 50 + Edges.amp 50)%Z.
Proof. apply (outline_within_amplitude columnBoard 1 0); cbn; lia. Defined.

(** ** The drag easing, frame after frame *)

Section Frames.
Local Open Scope R_scope.
Implicit Types (e : Easing) (st : Puzzle) (d : Drag) (g : Group) (p t : Pt).

Lemma update_easedPos e st d g :
  drag st = Some d ->
  reg_get (groupId d) (groups st) = Some g ->
  update e st
  = Some (with_groups st
            (reg_store (mkGroup (gid g) (members g) (easedPos e (pos g) (dragTarget d)))
               (groups st))).
Proof. intros Hd Hg. unfold update. by rewrite Hd, Hg. Qed.

(** The eased and clamped step is the vector to the target scaled by a
    factor between 0 and 1. *)
Lemma easedStep_factor e p t :
  0 <= dragLerp e <= 1 -> 0 <= maxStepPerFrame e ->
  ∃ k, 0 <= k <= 1
       ∧ easedStep e p t = (IZR (px t - px p) * k, IZR (py t - py p) * k).
Proof.
  intros Hl Hm. unfold easedStep.
  set (dx := IZR (px t - px p) * dragLerp e).
  set (dy := IZR (py t - py p) * dragLerp e).
  set (len := sqrt (dx * dx + dy * dy)).
  destruct (Rlt_dec (maxStepPerFrame e) len) as [Hlt|_].
  - destruct (Req_EM_T len 0) as [E|_]; [lra|].
    assert (Hpos : 0 < len) by lra.
    assert (Hs : 0 <= maxStepPerFrame e / len < 1).
    { split.
      - apply Rmult_le_pos; [done|]. by apply Rlt_le, Rinv_0_lt_compat.
      - apply (Rmult_lt_reg_r len); [done|]. unfold Rdiv. rewrite Rmult_assoc, Rinv_l by lra. lra. }
    exists (dragLerp e * (maxStepPerFrame e / len)). split; [nra|].
    unfold dx, dy. f_equal; ring.
  - exists (dragLerp e). done.
Qed.

Lemma js_round_ub (x : R) (z : Z) : x <= IZR z -> (js_round x <= z)%Z.
Proof. intros H. apply js_round_mono in H. by rewrite js_round_IZR in H. Qed.

Lemma js_round_lb (x : R) (z : Z) : IZR z <= x -> (z <= js_round x)%Z.
Proof. intros H. apply js_round_mono in H. by rewrite js_round_IZR in H. Qed.

Lemma round_between (a t : Z) (k : R) :
  0 <= k <= 1 ->
  (Z.min a t <= js_round (IZR a + IZR (t - a) * k) <= Z.max a t)%Z.
Proof.
  intros Hk. rewrite minus_IZR.
  destruct (Z.le_ge_cases a t) as [Hat|Hat]; pose proof (IZR_le _ _ Hat) as Hr.
  - rewrite Z.min_l, Z.max_r by done. split.
    + apply js_round_lb. nra.
    + apply js_round_ub. nra.
  - rewrite Z.min_r, Z.max_l by done. split.
    + apply js_round_lb. nra.
    + apply js_round_ub. nra.
Qed.

Lemma round_fix (a : Z) (x : R) : js_round (IZR a + x) = a ↔ - / 2 <= x < / 2.
Proof.
  unfold js_round. split.
  - intros H. pose proof (Zfloor_bound (IZR a + x + / 2)) as Hb. rewrite H in Hb. lra.
  - intros H. apply Zfloor_eq. lra.
Qed.

(** The new offset lies between the old one and the target on each axis. *)
Lemma easedPos_between e p t :
  0 <= dragLerp e <= 1 -> 0 <= maxStepPerFrame e ->
  (Z.min (px p) (px t) <= px (easedPos e p t) <= Z.max (px p) (px t))%Z
  ∧ (Z.min (py p) (py t) <= py (easedPos e p t) <= Z.max (py p) (py t))%Z.
Proof.
  intros Hl Hm. destruct (easedStep_factor e p t Hl Hm) as (k & Hk & E).
  unfold easedPos. rewrite E. cbn [fst snd px py]. split; by apply round_between.
Qed.

Lemma easedPos_closer e p t :
  0 <= dragLerp e <= 1 -> 0 <= maxStepPerFrame e ->
  easedPos e p t ≠ p -> (blockDist (easedPos e p t) t < blockDist p t)%Z.
Proof.
  intros Hl Hm Hne. destruct (easedPos_between e p t Hl Hm) as [Hx Hy].
  assert (px (easedPos e p t) ≠ px p ∨ py (easedPos e p t) ≠ py p) as Hc.
  { destruct (decide (px (easedPos e p t) = px p)) as [Ex|]; [|by left].
    destruct (decide (py (easedPos e p t) = py p)) as [Ey|]; [|by right].
    exfalso. apply Hne. destruct p, (easedPos e _ t). cbn in *. by subst. }
  unfold blockDist. lia.
Qed.

Lemma reg_store_same g (gs : list Group) :
  NoDup (gid <$> gs) -> g ∈ gs -> reg_store g gs = gs.
Proof.
  intros Hnd Hg. unfold reg_store. rewrite <- (list_fmap_id gs) at 2.
  apply list_fmap_ext. intros i h Hh. case_decide as E; [|done].
  apply list_elem_of_lookup_2 in Hh.
  pose proof (reg_get_elem _ _ Hnd Hh) as H1. pose proof (reg_get_elem _ _ Hnd Hg) as H2.
  rewrite E in H1. by simplify_eq.
Qed.

Lemma reg_store_store (g g' : Group) (gs : list Group) :
  gid g = gid g' -> reg_store g' (reg_store g gs) = reg_store g' gs.
Proof.
  intros E. unfold reg_store. rewrite <- list_fmap_compose.
  apply list_fmap_ext. intros i h Hh. cbn.
  destruct (decide (gid h = gid g)) as [E1|E1].
  - rewrite decide_True by done. rewrite decide_True by congruence. done.
  - done.
Qed.

Lemma reg_delete_store (g : Group) (gs : list Group) :
  reg_delete (gid g) (reg_store g gs) = reg_delete (gid g) gs.
Proof.
  unfold reg_delete, reg_store. induction gs as [|h gs IH]; [done|].
  rewrite fmap_cons, !filter_cons, IH.
  destruct (decide (gid h = gid g)) as [E|E].
  - rewrite decide_False by (intros H; by apply H).
    rewrite decide_False by (intros H; by apply H). done.
  - rewrite !decide_True by done. done.
Qed.

(** X7.  A frame moves nothing but the dragged cluster, and moves it towards
    the drag target without passing it: on each axis its new offset lies
    between the old one and the target. *)
Theorem update_between e st d g :
  drag st = Some d ->
  reg_get (groupId d) (groups st) = Some g ->
  0 <= dragLerp e <= 1 -> 0 <= maxStepPerFrame e ->
  ∃ st' g',
    update e st = Some st'
    ∧ reg_get (groupId d) (groups st') = Some g'
    ∧ gid g' = gid g ∧ members g' = members g
    ∧ (Z.min (px (pos g)) (px (dragTarget d)) <= px (pos g')
       <= Z.max (px (pos g)) (px (dragTarget d)))%Z
    ∧ (Z.min (py (pos g)) (py (dragTarget d)) <= py (pos g')
       <= Z.max (py (pos g)) (py (dragTarget d)))%Z
    ∧ reg_delete (groupId d) (groups st') = reg_delete (groupId d) (groups st)
    ∧ pieceToGroup st' = pieceToGroup st
    ∧ drag st' = drag st.
Proof.
  intros Hd Hg Hl Hm. pose proof (reg_get_Some _ _ _ Hg) as [Hin Hid].
  rewrite (update_easedPos e st d g Hd Hg).
  eexists _, (mkGroup (gid g) (members g) _). split; [reflexivity|].
  cbn [groups with_groups pieceToGroup drag gid members pos]. split.
  { rewrite <- Hid at 1. apply (reg_get_store_eq (mkGroup (gid g) _ _)). cbn [gid].
    by apply list_elem_of_fmap_2. }
  do 2 (split; [done|]).
  destruct (easedPos_between e (pos g) (dragTarget d) Hl Hm) as [Hx Hy].
  do 2 (split; [done|]). split; [|done].
  rewrite <- Hid. apply (reg_delete_store (mkGroup (gid g) _ _)).
Qed.

(** X8.  With [maxStepPerFrame] at least 1, a frame leaves the dragged
    cluster where it is exactly when the eased step is below half a pixel
    on both axes: the cluster stops short of the drag target, up to
    [1 / (2 dragLerp)] pixels away on each axis. *)
Theorem update_rest e st d g :
  let ex := IZR (px (dragTarget d) - px (pos g)) * dragLerp e in
  let ey := IZR (py (dragTarget d) - py (pos g)) * dragLerp e in
  drag st = Some d ->
  reg_get (groupId d) (groups st) = Some g ->
  1 <= maxStepPerFrame e ->
  ∃ st' g',
    update e st = Some st'
    ∧ reg_get (groupId d) (groups st') = Some g'
    ∧ (pos g' = pos g ↔ (- / 2 <= ex < / 2 ∧ - / 2 <= ey < / 2)).
Proof.
  intros ex ey Hd Hg Hm. pose proof (reg_get_Some _ _ _ Hg) as [Hin Hid].
  rewrite (update_easedPos e st d g Hd Hg).
  eexists _, (mkGroup (gid g) (members g) _). split; [reflexivity|].
  cbn [groups with_groups pos]. split.
  { rewrite <- Hid at 1. apply (reg_get_store_eq (mkGroup (gid g) _ _)). cbn [gid].
    by apply list_elem_of_fmap_2. }
  assert (Hpt : ∀ a b : Pt, a = b ↔ px a = px b ∧ py a = py b).
  { intros [] []. cbn. split; [by intros [= -> ->] | by intros [-> ->]]. }
  rewrite Hpt. unfold easedPos. cbn [px py]. rewrite !round_fix.
  set (len := sqrt (ex * ex + ey * ey)).
  assert (Hsq : len * len = ex * ex + ey * ey) by (unfold len; apply sqrt_sqrt; nra).
  assert (Hlen0 : 0 <= len) by apply sqrt_pos.
  destruct (Rlt_dec (maxStepPerFrame e) len) as [Hlt|Hle].
  - destruct (easedStep_clamped e (pos g) (dragTarget d)) as (s & Hs & E & Hq); [lra | done |].
    rewrite E. cbn [fst snd]. fold ex ey in Hq |- *. split; intros [H1 H2]; exfalso; nra.
  - unfold easedStep. fold ex ey len.
    destruct (Rlt_dec (maxStepPerFrame e) len) as [Hlt|_]; [done|]. done.
Qed.

Lemma frames_rest e (n : nat) st : update e st = Some st -> frames e n st = Some st.
Proof. intros H. induction n as [|n IH]; [done|]. cbn [frames]. by rewrite H. Qed.

Lemma frames_settle_aux e (n : nat) st d g :
  0 <= dragLerp e <= 1 -> 0 <= maxStepPerFrame e ->
  NoDup (gid <$> groups st) ->
  drag st = Some d ->
  reg_get (groupId d) (groups st) = Some g ->
  (blockDist (pos g) (dragTarget d) <= Z.of_nat n)%Z ->
  ∃ st' g',
    frames e n st = Some st' ∧ update e st' = Some st'
    ∧ drag st' = Some d ∧ reg_get (groupId d) (groups st') = Some g'
    ∧ members g' = members g
    ∧ easedPos e (pos g') (dragTarget d) = pos g'.
Proof.
  intros Hl Hm. revert st g. induction n as [|n IH]; intros st g Hnd Hd Hg Hb;
    pose proof (reg_get_Some _ _ _ Hg) as [Hin Hid].
  - assert (Hp : dragTarget d = pos g).
    { unfold blockDist in Hb. destruct (dragTarget d), (pos g). cbn in *. f_equal; lia. }
    assert (Hfix : easedPos e (pos g) (dragTarget d) = pos g).
    { destruct (easedPos_between e (pos g) (dragTarget d) Hl Hm) as [Hx Hy].
      rewrite Hp in Hx, Hy |- *.
      destruct (easedPos e (pos g) (pos g)), (pos g). cbn in *. f_equal; lia. }
    exists st, g. cbn [frames]. split; [done|]. split; [|done].
    rewrite (update_easedPos e st d g Hd Hg), Hfix.
    replace (mkGroup (gid g) (members g) (pos g)) with g by (by destruct g).
    rewrite reg_store_same by done. by destruct st.
  - destruct (decide (easedPos e (pos g) (dragTarget d) = pos g)) as [Hfix|Hmove].
    + exists st, g.
      assert (Hu : update e st = Some st).
      { rewrite (update_easedPos e st d g Hd Hg), Hfix.
        replace (mkGroup (gid g) (members g) (pos g)) with g by (by destruct g).
        rewrite reg_store_same by done. by destruct st. }
      split; [by apply frames_rest|]. done.
    + cbn [frames]. rewrite (update_easedPos e st d g Hd Hg). cbn [mbind option_bind].
      set (g1 := mkGroup (gid g) (members g) (easedPos e (pos g) (dragTarget d))).
      set (st1 := with_groups st (reg_store g1 (groups st))).
      destruct (IH st1 g1) as (st' & g' & H1 & H2 & H3 & H4 & H5 & H6).
      * cbn [groups st1 with_groups]. by rewrite reg_store_keys.
      * done.
      * cbn [groups st1 with_groups]. rewrite <- Hid at 1.
        apply (reg_get_store_eq g1). cbn [gid g1]. by apply list_elem_of_fmap_2.
      * pose proof (easedPos_closer e (pos g) (dragTarget d) Hl Hm Hmove). cbn [pos g1]. lia.
      * exists st', g'. done.
Qed.

(** X9.  While the pointer stays put, the dragged cluster comes to rest:
    after as many frames as the city-block distance between its offset and
    the drag target, a further frame changes nothing. *)
Theorem frames_settle e st d g :
  0 <= dragLerp e <= 1 -> 0 <= maxStepPerFrame e ->
  NoDup (gid <$> groups st) ->
  drag st = Some d ->
  reg_get (groupId d) (groups st) = Some g ->
  ∃ st',
    frames e (Z.to_nat (blockDist (pos g) (dragTarget d))) st = Some st'
    ∧ update e st' = Some st'.
Proof.
  intros Hl Hm Hnd Hd Hg.
  destruct (frames_settle_aux e (Z.to_nat (blockDist (pos g) (dragTarget d))) st d g)
    as (st' & g' & H1 & H2 & _); try done.
  - unfold blockDist. lia.
  - by exists st'.
Qed.

End Frames.

Lemma update_between_witness :
  ∃ st' g',
    update defaultEasing pulledDiagonally = Some st'
    ∧ reg_get "g0" (groups st') = Some g'
    ∧ (0 <= px (pos g') <= 100)%Z ∧ (0 <= py (pos g') <= 100)%Z.
Proof.
  destruct (update_between defaultEasing pulledDiagonally
              (mkDrag "g0" 0 0 (mkPt 100 100)) (mkGroup "g0" [0] (mkPt 0 0))
              eq_refl eq_refl)
    as (st' & g' & H1 & H2 & _ & _ & Hx & Hy & _).
  - cbn. lra.
  - cbn. lra.
  - exists st', g'. cbn in Hx, Hy. repeat split; (done || lia).
Defined.

Lemma update_rest_witness :
  ∃ st' g',
    update defaultEasing pulledDiagonally = Some st'
    ∧ reg_get "g0" (groups st') = Some g'
    ∧ pos g' ≠ mkPt 0 0.
Proof.
  destruct (update_rest defaultEasing pulledDiagonally
              (mkDrag "g0" 0 0 (mkPt 100 100)) (mkGroup "g0" [0] (mkPt 0 0))
              eq_refl eq_refl)
    as (st' & g' & H1 & H2 & H3).
  - cbn. lra.
  - exists st', g'. split; [done|]. split; [done|]. intros E.
    apply H3 in E as [[_ E] _]. cbn in E. change (100 - 0)%Z with 100%Z in E. lra.
Defined.

Lemma frames_settle_witness :
  ∃ st', frames defaultEasing 200 pulledDiagonally = Some st'
         ∧ update defaultEasing st' = Some st'.
Proof.
  apply (frames_settle defaultEasing pulledDiagonally
           (mkDrag "g0" 0 0 (mkPt 100 100)) (mkGroup "g0" [0] (mkPt 0 0))).
  - cbn. lra.
  - cbn. lra.
  - apply (bool_decide_unpack _). vm_compute. exact I.
  - reflexivity.
  - reflexivity.
Defined.

(** ** Pointer down: what is hit, and what it does to the registry *)

Section Pointer.
Variable isPointInPath : Pt -> list Pt -> Q -> Q -> bool.
Implicit Types (st : Puzzle) (g : Group) (p : Piece) (x y : Q) (img : Image).

(** The scan of one cluster, against the paint calls of its members taken
    in scan order. *)
Lemma hitMembers_scan img st g (l : list nat) (cs : list Paint) x y :
  Forall2 (fun i c => paintPiece img st g i = Some c) l cs ->
  (hitMembers isPointInPath st g l x y = Some None
   ∧ Forall (fun c => covers isPointInPath x y c = false) cs)
  ∨ (∃ l1 c l2,
       cs = l1 ++ c :: l2
       ∧ Forall (fun c' => covers isPointInPath x y c' = false) l1
       ∧ covers isPointInPath x y c = true
       ∧ hitMembers isPointInPath st g l x y = Some (Some (painted c))).
Proof.
  induction 1 as [|i c l cs Hc _ IH]; [left; by split|].
  cbn [hitMembers]. unfold paintPiece in Hc.
  destruct (pieceById st i) as [p|]; [|done]. cbn [mbind option_bind] in Hc |- *.
  destruct (Edges.pathFn (board st) (edges st) (pr p) (pc p)) as [path|]; [|done].
  cbn [mbind option_bind] in Hc |- *. injection Hc as <-.
  set (c := mkPaint p _ _ _ _ _ _ _ _).
  assert (Hcov : covers isPointInPath x y c
                 = negb (outsideBox x y (pt_add (target p) (pos g)) p)
                   && isPointInPath (pt_add (target p) (pos g)) path
                        (x - inject_Z (px (pt_add (target p) (pos g))))%Q
                        (y - inject_Z (py (pt_add (target p) (pos g))))%Q) by done.
  destruct (outsideBox x y (pt_add (target p) (pos g)) p) eqn:Hbox; cbn [negb andb] in Hcov.
  - destruct IH as [[H1 H2] | (l1 & c' & l2 & -> & H1 & H2 & H3)].
    + left. split; [done | by constructor].
    + right. exists (c :: l1), c', l2. split; [done|]. split; [by constructor | done].
  - destruct (isPointInPath _ _ _ _) eqn:Hin.
    + right. exists [], c, cs. split; [done|]. split; [constructor | done].
    + destruct IH as [[H1 H2] | (l1 & c' & l2 & -> & H1 & H2 & H3)].
      * left. split; [done | by constructor].
      * right. exists (c :: l1), c', l2. split; [done|]. split; [by constructor | done].
Qed.

Lemma hitGroups_scan img st (gs : list Group) (css : list (list Paint)) x y :
  Forall2 (fun g cs => Forall2 (fun i c => paintPiece img st g i = Some c)
                         (reverse (members g)) cs) gs css ->
  (hitGroups isPointInPath st gs x y = Some None
   ∧ Forall (fun c => covers isPointInPath x y c = false) (mjoin css))
  ∨ (∃ l1 c l2,
       mjoin css = l1 ++ c :: l2
       ∧ Forall (fun c' => covers isPointInPath x y c' = false) l1
       ∧ covers isPointInPath x y c = true
       ∧ hitGroups isPointInPath st gs x y = Some (Some (painted c))).
Proof.
  induction 1 as [|g cs gs css Hg _ IH]; [left; by split|].
  cbn [hitGroups]. change (mjoin (cs :: css)) with (cs ++ mjoin css).
  destruct (hitMembers_scan img st g _ cs x y Hg)
    as [[H1 H2] | (l1 & c & l2 & -> & H1 & H2 & H3)].
  - rewrite H1. cbn [mbind option_bind].
    destruct IH as [[H3 H4] | (l1 & c & l2 & E & H3 & H4 & H5)].
    + left. split; [done | by apply Forall_app].
    + right. exists (cs ++ l1), c, l2. rewrite E, <- app_assoc.
      split; [done|]. split; [by apply Forall_app | done].
  - rewrite H3. cbn [mbind option_bind]. right.
    exists l1, c, (l2 ++ mjoin css). rewrite <- app_assoc. done.
Qed.

Lemma reverse_join (css : list (list Paint)) :
  reverse (mjoin css) = mjoin (reverse <$> reverse css).
Proof.
  induction css as [|cs css IH]; [done|].
  change (mjoin (cs :: css)) with (cs ++ mjoin css). rewrite reverse_app, reverse_cons, fmap_app, join_app, IH.
  cbn. by rewrite app_nil_r.
Qed.

(** [_hitTest] against the calls [_draw] paints. *)
Lemma hitTest_scan img st x y (calls : list Paint) :
  draw img st = Some calls ->
  (hitTest isPointInPath st x y = Some None
   ∧ Forall (fun c => covers isPointInPath x y c = false) calls)
  ∨ (∃ below c above,
       calls = below ++ c :: above
       ∧ covers isPointInPath x y c = true
       ∧ Forall (fun c' => covers isPointInPath x y c' = false) above
       ∧ hitTest isPointInPath st x y = Some (Some (painted c))).
Proof.
  unfold draw. intros Hd.
  destruct (mapM _ (groups st)) as [css|] eqn:Hm; [|done]. cbn in Hd. injection Hd as <-.
  apply mapM_Some_1 in Hm.
  assert (Hrev : Forall2 (fun g cs => Forall2 (fun i c => paintPiece img st g i = Some c)
                                        (reverse (members g)) cs)
                   (reverse (groups st)) (reverse <$> reverse css)).
  { apply Forall2_fmap_r, Forall2_reverse.
    eapply Forall2_impl; [exact Hm|]. intros g cs H. cbn in H.
    by apply Forall2_reverse, mapM_Some_1. }
  unfold hitTest.
  destruct (hitGroups_scan img st _ _ x y Hrev)
    as [[H1 H2] | (l1 & c & l2 & E & H1 & H2 & H3)].
  - left. split; [done|]. rewrite <- reverse_join in H2.
    by rewrite Forall_reverse in H2.
  - right. rewrite <- reverse_join in E.
    exists (reverse l2), c, (reverse l1). split.
    + rewrite <- (reverse_involutive (mjoin css)), E, reverse_app, reverse_cons, <- app_assoc.
      done.
    + split; [done|]. split; [by rewrite Forall_reverse | done].
Qed.

(** X10.  [_hitTest] picks the piece painted last among those under the
    pointer.  When [_draw] paints the calls [calls] in that order,
    [_hitTest] returns the piece of a call that covers the point and after
    which no call covers it; it returns [null] exactly when no call covers
    the point. *)
Theorem hitTest_topmost img st x y (calls : list Paint) :
  draw img st = Some calls ->
  ∃ r, hitTest isPointInPath st x y = Some r
       ∧ match r with
         | Some p =>
           ∃ below c above,
             calls = below ++ c :: above
             ∧ painted c = p
             ∧ covers isPointInPath x y c = true
             ∧ Forall (fun c' => covers isPointInPath x y c' = false) above
         | None => Forall (fun c => covers isPointInPath x y c = false) calls
         end.
Proof.
  intros Hd.
  destruct (hitTest_scan img st x y calls Hd)
    as [[H1 H2] | (below & c & above & E & H1 & H2 & H3)].
  - by exists None.
  - exists (Some (painted c)). split; [done|]. by exists below, c, above.
Qed.

End Pointer.

(** ** What [_draw] paints *)

Section Painting.
Implicit Types (st : Puzzle) (g : Group) (p : Piece) (img : Image).

Lemma paintPiece_Some img st g (i : nat) p :
  Catalogued st -> p ∈ pieces st -> id p = i ->
  ∃ c, paintPiece img st g i = Some c ∧ painted c = p
       ∧ origin c = pt_add (target p) (pos g).
Proof.
  intros [Hcat Hed] Hp <-. unfold paintPiece.
  rewrite (pieceById_catalogue st p Hcat Hp). cbn [mbind option_bind].
  rewrite Hcat in Hp. apply createPieces_elem in Hp as (Hr & Hc & _).
  rewrite Hed, pathFn_catalogue by done. cbn [mbind option_bind].
  eexists. split; [reflexivity|]. done.
Qed.

Lemma paintPiece_painted img st g (i : nat) (c : Paint) :
  paintPiece img st g i = Some c -> pieceById st i = Some (painted c).
Proof.
  unfold paintPiece. destruct (pieceById st i) as [p|]; [|done]. cbn [mbind option_bind].
  destruct (Edges.pathFn _ _ _ _); [|done]. cbn. by intros [= <-].
Qed.

(** The ids of the pieces painted are the members of the clusters, in
    registry order. *)
Lemma draw_ids img st (calls : list Paint) :
  draw img st = Some calls ->
  (id ∘ painted) <$> calls = mjoin (members <$> groups st).
Proof.
  unfold draw. destruct (mapM _ (groups st)) as [css|] eqn:Hm; [|done].
  cbn. intros [= <-]. apply mapM_Some_1 in Hm.
  induction Hm as [|g cs gs css Hg _ IH]; [done|].
  change (mjoin (cs :: css)) with (cs ++ mjoin css).
  rewrite fmap_app, IH, fmap_cons. change (mjoin (?a :: ?b)) with (a ++ mjoin b).
  f_equal. cbn in Hg. apply mapM_Some_1 in Hg. clear IH.
  induction Hg as [|i c l cs' Hc _ IH]; [done|].
  rewrite fmap_cons, IH. f_equal. cbn.
  apply paintPiece_painted, pieceById_Some in Hc as [_ Hc]. done.
Qed.

Lemma draw_returns img st :
  Inv st -> Catalogued st -> is_Some (draw img st).
Proof.
  intros HI HC. unfold draw.
  assert (is_Some (mapM (fun g => mapM (paintPiece img st g) (members g)) (groups st))) as [css ->];
    [|done].
  apply mapM_is_Some_2, Forall_forall. intros g Hg. cbn.
  apply mapM_is_Some_2, Forall_forall. intros i Hi. cbn.
  pose proof (Inv_piece st g i HI Hg Hi) as Hp.
  apply list_elem_of_fmap in Hp as (p & -> & Hp).
  destruct (paintPiece_Some img st g (id p) p HC Hp eq_refl) as (c & -> & _). done.
Qed.

Lemma join_NoDup st (gs : list Group) :
  Inv st -> NoDup (gid <$> gs) -> (∀ g, g ∈ gs -> g ∈ groups st) ->
  NoDup (mjoin (members <$> gs)).
Proof.
  intros HI. induction gs as [|g gs IH]; intros Hk Hsub; [constructor|].
  rewrite fmap_cons. change (mjoin (?a :: ?b)) with (a ++ mjoin b).
  rewrite fmap_cons in Hk. apply NoDup_cons in Hk as [Hg Hk].
  apply NoDup_app. split; [apply (Inv_set st); [done | apply Hsub; by left]|].
  split; [|apply IH; [done | intros h Hh; apply Hsub; by right]].
  intros i Hi Hj. apply list_elem_of_join in Hj as (ms & Hi' & Hms).
  apply list_elem_of_fmap in Hms as (h & -> & Hh).
  assert (Hgh : gid g = gid h).
  { pose proof (Inv_index st g i HI (Hsub g ltac:(by left)) Hi) as H1.
    pose proof (Inv_index st h i HI (Hsub h ltac:(by right)) Hi') as H2. congruence. }
  apply Hg. apply list_elem_of_fmap. by exists h.
Qed.

Lemma members_NoDup st : Inv st -> NoDup (mjoin (members <$> groups st)).
Proof. intros HI. apply (join_NoDup st); [done | by apply Inv_keys | done]. Qed.

(** X11.  On a registry that satisfies the invariant, a frame paints every
    piece of the catalogue exactly once: the pieces painted are a
    rearrangement of [pieces]. *)
Theorem draw_each_piece_once img st :
  Inv st -> Catalogued st ->
  ∃ calls, draw img st = Some calls ∧ painted <$> calls ≡ₚ pieces st.
Proof.
  intros HI HC. destruct (draw_returns img st HI HC) as [calls Hd].
  exists calls. split; [done|].
  pose proof (draw_ids img st calls Hd) as Hids.
  pose proof (members_NoDup st HI) as Hnd. rewrite <- Hids in Hnd.
  rewrite list_fmap_compose in Hnd. apply NoDup_fmap_1 in Hnd.
  destruct HC as [Hcat _].
  assert (Hpieces : NoDup (pieces st)).
  { apply (NoDup_fmap_1 id). rewrite Hcat. apply NoDup_alt. intros i j k.
    rewrite !list_lookup_fmap.
    destruct (createPieces (board st) !! i) as [a|] eqn:Ha; [|done].
    destruct (createPieces (board st) !! j) as [b|] eqn:Hb; [|done].
    apply createPieces_lookup in Ha as [Ha _]. apply createPieces_lookup in Hb as [Hb _].
    cbn. intros [= <-] [= E]. congruence. }
  apply NoDup_Permutation; [done | done |]. intros p. split.
  - intros Hp. apply list_elem_of_fmap in Hp as (c & -> & Hc).
    assert (Hi : id (painted c) ∈ (id ∘ painted) <$> calls).
    { apply list_elem_of_fmap. by exists c. }
    rewrite Hids in Hi. apply list_elem_of_join in Hi as (ms & Hi & Hms).
    apply list_elem_of_fmap in Hms as (g & -> & Hg).
    unfold draw in Hd. destruct (mapM _ (groups st)) as [css|] eqn:Hm; [|done].
    cbn in Hd. injection Hd as <-. apply mapM_Some_1 in Hm.
    apply list_elem_of_join in Hc as (cs & Hc & Hcs).
    apply list_elem_of_lookup_1 in Hcs as [k Hk].
    destruct (Forall2_lookup_r _ _ _ _ _ Hm Hk) as (h & _ & Hh). cbn in Hh.
    apply mapM_Some_1 in Hh. apply list_elem_of_lookup_1 in Hc as [n Hn].
    destruct (Forall2_lookup_r _ _ _ _ _ Hh Hn) as (i & _ & Hp).
    by apply paintPiece_painted, pieceById_Some in Hp as [Hp _].
  - intros Hp.
    assert (Hi : id p ∈ (id ∘ painted) <$> calls).
    { rewrite Hids. destruct (Inv_total st (id p) HI) as (g & Hg & Hi).
      { unfold pieceIds. by apply list_elem_of_fmap_2. }
      apply list_elem_of_join. exists (members g). split; [done|].
      by apply list_elem_of_fmap_2. }
    apply list_elem_of_fmap in Hi as (c & E & Hc). cbn in E.
    apply list_elem_of_fmap. exists c. split; [|done].
    assert (Hq : painted c ∈ pieces st).
    { unfold draw in Hd. destruct (mapM _ (groups st)) as [css|] eqn:Hm; [|done].
      cbn in Hd. injection Hd as <-. apply mapM_Some_1 in Hm.
      apply list_elem_of_join in Hc as (cs & Hc & Hcs).
      apply list_elem_of_lookup_1 in Hcs as [k Hk].
      destruct (Forall2_lookup_r _ _ _ _ _ Hm Hk) as (h & _ & Hh). cbn in Hh.
      apply mapM_Some_1 in Hh. apply list_elem_of_lookup_1 in Hc as [n Hn].
      destruct (Forall2_lookup_r _ _ _ _ _ Hh Hn) as (i & _ & Hq).
      by apply paintPiece_painted, pieceById_Some in Hq as [Hq _]. }
    pose proof (pieceById_catalogue st p Hcat Hp) as H1.
    pose proof (pieceById_catalogue st (painted c) Hcat Hq) as H2.
    rewrite <- E in H2. congruence.
Qed.

(** X12.  Each piece is painted from its own cell of the image: the source
    rectangle of the piece in row [r] and column [c] starts at
    [(c * sw, r * sh)], where [sw = image.width / cols] and
    [sh = image.height / rows] are its width and height, so the source
    rectangles tile the image. *)
Theorem draw_source_cells img st (calls : list Paint) (c : Paint) :
  pieces st = createPieces (board st) ->
  cellW (board st) ≠ 0%Z -> cellH (board st) ≠ 0%Z ->
  draw img st = Some calls -> c ∈ calls ->
  srcW c = (IZR (imageW img) / INR (cols (board st)))%R
  ∧ srcH c = (IZR (imageH img) / INR (rows (board st)))%R
  ∧ srcX c = (INR (pc (painted c)) * srcW c)%R
  ∧ srcY c = (INR (pr (painted c)) * srcH c)%R
  ∧ dstW c = cellW (board st) ∧ dstH c = cellH (board st).
Proof.
  intros Hcat Hw Hh Hd Hc.
  unfold draw in Hd. destruct (mapM _ (groups st)) as [css|] eqn:Hm; [|done].
  cbn in Hd. injection Hd as <-. apply mapM_Some_1 in Hm.
  apply list_elem_of_join in Hc as (cs & Hc & Hcs).
  apply list_elem_of_lookup_1 in Hcs as [k Hk].
  destruct (Forall2_lookup_r _ _ _ _ _ Hm Hk) as (g & _ & Hg). cbn in Hg.
  apply mapM_Some_1 in Hg. apply list_elem_of_lookup_1 in Hc as [n Hn].
  destruct (Forall2_lookup_r _ _ _ _ _ Hg Hn) as (i & _ & Hp).
  unfold paintPiece in Hp.
  destruct (pieceById st i) as [p|] eqn:Hpi; [|done]. cbn [mbind option_bind] in Hp.
  destruct (Edges.pathFn _ _ _ _) as [path|]; [|done]. cbn [mbind option_bind] in Hp.
  injection Hp as <-. cbn [srcX srcY srcW srcH dstW dstH painted].
  apply pieceById_Some in Hpi as [Hin _]. rewrite Hcat in Hin.
  apply createPieces_elem in Hin as (Hr & Hcl & _).
  assert (Hcols : (0 < INR (cols (board st)))%R) by (apply lt_0_INR; lia).
  assert (Hrows : (0 < INR (rows (board st)))%R) by (apply lt_0_INR; lia).
  assert (HW : IZR (cellW (board st)) ≠ 0%R) by (by apply not_0_IZR).
  assert (HH : IZR (cellH (board st)) ≠ 0%R) by (by apply not_0_IZR).
  unfold boundsW, boundsH. rewrite !mult_IZR, <- !INR_IZR_INZ.
  repeat split; try done; field; split; lra.
Qed.

End Painting.

Lemma draw_each_piece_once_witness :
  ∃ calls, draw (mkImage 300 400) (rowPuzzle 2) = Some calls
           ∧ painted <$> calls ≡ₚ pieces (rowPuzzle 2).
Proof.
  apply (draw_each_piece_once (mkImage 300 400) (rowPuzzle 2)).
  - apply (bool_decide_unpack _). vm_compute. exact I.
  - split; reflexivity.
Defined.

Lemma draw_source_cells_witness :
  ∃ calls c,
    draw (mkImage 300 400) (rowPuzzle 2) = Some calls ∧ calls !! 1 = Some c
    ∧ srcW c = (300 / INR 2)%R ∧ srcX c = (INR 1 * srcW c)%R.
Proof.
  assert (H : ∃ calls c, draw (mkImage 300 400) (rowPuzzle 2) = Some calls
                         ∧ calls !! 1 = Some c ∧ pc (painted c) = 1).
  { eexists _, _. split; [reflexivity|]. split; reflexivity. }
  destruct H as (calls & c & Hd & Hc & Hpc). exists calls, c.
  destruct (draw_source_cells (mkImage 300 400) (rowPuzzle 2) calls c)
    as (H1 & _ & H3 & _); try done.
  - by apply list_elem_of_lookup_2 in Hc.
  - rewrite Hpc in H3. done.
Defined.

Lemma hitTest_topmost_witness :
  ∃ calls r,
    draw (mkImage 300 400) (rowPuzzle 2) = Some calls
    ∧ hitTest (fun _ _ _ _ => true) (rowPuzzle 2) 150 50 = Some r.
Proof.
  destruct (draw_returns (mkImage 300 400) (rowPuzzle 2)) as [calls Hd].
  - apply (bool_decide_unpack _). vm_compute. exact I.
  - split; reflexivity.
  - destruct (hitTest_topmost (fun _ _ _ _ => true) (mkImage 300 400) (rowPuzzle 2)
                150 50 calls Hd) as (r & Hr & _).
    by exists calls, r.
Defined.

(** ** Grabbing a piece *)

Section Grab.
Variable isPointInPath : Pt -> list Pt -> Q -> Q -> bool.
Implicit Types (st : Puzzle) (g : Group) (p : Piece) (x y : Q).

Lemma hitGroups_found st (gs : list Group) x y p :
  hitGroups isPointInPath st gs x y = Some (Some p) ->
  ∃ g, g ∈ gs
       ∧ hitMembers isPointInPath st g (reverse (members g)) x y = Some (Some p).
Proof.
  induction gs as [|g gs IH]; [done|]. cbn [hitGroups].
  destruct (hitMembers isPointInPath st g (reverse (members g)) x y) as [[q|]|] eqn:Hm;
    cbn [mbind option_bind]; [| |done].
  - intros [= <-]. exists g. split; [by left | done].
  - intros H. destruct (IH H) as (h & Hh & H'). exists h. split; [by right | done].
Qed.

(** The scan of a cluster reads the catalogue, the board and the edge
    tables, not the registry. *)
Lemma hitMembers_frame st st' g (ms : list nat) x y :
  pieces st' = pieces st -> board st' = board st -> edges st' = edges st ->
  hitMembers isPointInPath st' g ms x y = hitMembers isPointInPath st g ms x y.
Proof.
  intros Hp Hb He. induction ms as [|i ms IH]; [done|]. cbn [hitMembers].
  unfold pieceById. rewrite Hp, Hb, He, IH. done.
Qed.

(** The piece hit, its cluster, and the state [_handleDown] leaves. *)
Lemma handleDown_hit st x y p :
  Inv st ->
  hitTest isPointInPath st x y = Some (Some p) ->
  ∃ g,
    g ∈ groups st ∧ id p ∈ members g
    ∧ pieceById st (id p) = Some p
    ∧ hitMembers isPointInPath st g (reverse (members g)) x y = Some (Some p)
    ∧ handleDown isPointInPath st x y
      = Some (with_drag
                (with_groups st (reg_delete (gid g) (groups st) ++ [g]))
                (Some (mkDrag (gid g)
                         (x - inject_Z (px (pt_add (target p) (pos g))))%Q
                         (y - inject_Z (py (pt_add (target p) (pos g))))%Q
                         (pos g)))).
Proof.
  intros HI Hhit. pose proof Hhit as Hhit'. unfold hitTest in Hhit'.
  apply hitGroups_found in Hhit' as (g & Hg & Hm). rewrite elem_of_reverse in Hg.
  pose proof (hitMembers_Some isPointInPath _ _ _ _ _ _ Hm) as (i & Hi & Hp & _).
  rewrite elem_of_reverse in Hi.
  pose proof (pieceById_Some _ _ _ Hp) as [_ Hid]. subst i.
  exists g. do 4 (split; [done|]).
  unfold handleDown. rewrite Hhit. cbn [mbind option_bind].
  rewrite (Inv_index st g (id p) HI Hg Hi). cbn [mbind option_bind].
  pose proof (reg_get_elem _ _ (Inv_keys st HI) Hg) as Hget.
  rewrite Hget. cbn [mbind option_bind].
  rewrite (pieceWorldPos_intro st (id p) p g Hp (Inv_index st g (id p) HI Hg Hi) Hget).
  cbn [mbind option_bind]. do 3 f_equal.
  unfold reg_set. cbn [gid]. rewrite reg_get_delete_eq. by destruct g.
Qed.

(** X13.  A pointer-down on a piece moves nothing and merges nothing: it
    takes the piece's cluster out of the registry and puts it back last, so
    the cluster is painted on top and scanned first, and sets the drag to
    that cluster with the cluster's own offset as target.  A second hit
    test at the same point returns the same piece. *)
Theorem handleDown_front st x y p :
  Inv st ->
  hitTest isPointInPath st x y = Some (Some p) ->
  ∃ g st',
    reg_get (gid g) (groups st) = Some g
    ∧ id p ∈ members g
    ∧ handleDown isPointInPath st x y = Some st'
    ∧ groups st' = reg_delete (gid g) (groups st) ++ [g]
    ∧ pieceToGroup st' = pieceToGroup st
    ∧ (∃ d, drag st' = Some d ∧ groupId d = gid g ∧ dragTarget d = pos g)
    ∧ hitTest isPointInPath st' x y = Some (Some p).
Proof.
  intros HI Hhit.
  destruct (handleDown_hit st x y p HI Hhit) as (g & Hg & Hi & Hp & Hm & Hd).
  exists g. eexists. split; [by apply reg_get_elem; [apply Inv_keys|]|].
  split; [done|]. split; [exact Hd|]. split; [done|]. split; [done|].
  split; [eexists; by split|].
  unfold hitTest. cbn [groups with_drag with_groups]. rewrite reverse_snoc.
  cbn [hitGroups]. rewrite (hitMembers_frame st) by done. rewrite Hm. done.
Qed.

Lemma js_roundQ_shift (x : Q) (w dx : Z) :
  js_roundQ ((x + inject_Z dx) - (x - inject_Z w))%Q = (w + dx)%Z.
Proof.
  unfold js_roundQ.
  assert (E : ((x + inject_Z dx) - (x - inject_Z w) + (1 # 2) == inject_Z (w + dx) + (1 # 2))%Q).
  { rewrite inject_Z_plus. ring. }
  rewrite (Qfloor_comp _ _ E).
  unfold Qfloor, Qplus, inject_Z. cbn [Qnum Qden].
  symmetry. apply (Z.div_unique_pos _ _ _ 1); lia.
Qed.

(** X14.  After a pointer-down on a piece and a pointer-move by a whole
    number of pixels [(dx,dy)], the drag target, which is the offset
    [_update] steers the cluster to, is the world position the hit piece had
    when it was grabbed plus [(dx,dy)]; it is not the cluster's offset plus
    [(dx,dy)] unless the piece's target is the origin. *)
Theorem grab_then_move st x y p (w : Pt) (dx dy : Z) :
  Inv st ->
  hitTest isPointInPath st x y = Some (Some p) ->
  pieceWorldPos st (id p) = Some w ->
  ∃ st1 d,
    handleDown isPointInPath st x y = Some st1
    ∧ drag (handleMove st1 (x + inject_Z dx)%Q (y + inject_Z dy)%Q) = Some d
    ∧ pieceToGroup st !! id p = Some (groupId d)
    ∧ dragTarget d = pt_add w (mkPt dx dy).
Proof.
  intros HI Hhit Hw.
  destruct (handleDown_hit st x y p HI Hhit) as (g & Hg & Hi & Hp & _ & Hd).
  pose proof (reg_get_elem _ _ (Inv_keys st HI) Hg) as Hget.
  rewrite (pieceWorldPos_intro st (id p) p g Hp (Inv_index st g (id p) HI Hg Hi) Hget) in Hw.
  injection Hw as <-.
  eexists _, _. split; [exact Hd|]. unfold handleMove. cbn [drag with_drag].
  split; [reflexivity|]. cbn [groupId dragTarget offsetX offsetY].
  split; [by apply (Inv_index st g)|].
  rewrite !js_roundQ_shift. done.
Qed.

End Grab.

Lemma handleDown_front_witness :
  ∃ st', handleDown (fun _ _ _ _ => true) (rowPuzzle 2) 50 50 = Some st'
         ∧ hitTest (fun _ _ _ _ => true) st' 50 50
           = Some (Some (mkPiece 0 0 0 (mkPt 0 0) 100 100)).
Proof.
  destruct (handleDown_front (fun _ _ _ _ => true) (rowPuzzle 2) 50 50
              (mkPiece 0 0 0 (mkPt 0 0) 100 100))
    as (g & st' & _ & _ & H1 & _ & _ & _ & H2).
  - apply (bool_decide_unpack _). vm_compute. exact I.
  - reflexivity.
  - by exists st'.
Defined.

Lemma grab_then_move_witness :
  ∃ st1 d,
    handleDown (fun _ _ _ _ => true) (rowPuzzle 2) 150 50 = Some st1
    ∧ drag (handleMove st1 (150 + inject_Z 7)%Q (50 + inject_Z (-3))%Q) = Some d
    ∧ dragTarget d = mkPt 107 (-3).
Proof.
  destruct (grab_then_move (fun _ _ _ _ => true) (rowPuzzle 2) 150 50
              (mkPiece 1 0 1 (mkPt 100 0) 100 100) (mkPt 100 0) 7 (-3))
    as (st1 & d & H1 & H2 & _ & H3).
  - apply (bool_decide_unpack _). vm_compute. exact I.
  - reflexivity.
  - reflexivity.
  - by exists st1, d.
Defined.

(** ** What a release does to the registry *)

Section Release.
Implicit Types (o : Options) (st : Puzzle) (g mg gQ : Group) (p q : Piece).

Lemma merge_counts st (gA gB : Group) :
  Inv st -> gA ∈ groups st -> gB ∈ groups st -> gid gA ≠ gid gB ->
  S (length (groups (mergeGroups st gA gB).1)) = length (groups st)
  ∧ memberCount (mergeGroups st gA gB).1 = memberCount st
  ∧ pieces (mergeGroups st gA gB).1 = pieces st
  ∧ board (mergeGroups st gA gB).1 = board st
  ∧ edges (mergeGroups st gA gB).1 = edges st.
Proof.
  intros HI HA HB Hne. unfold mergeGroups, memberCount. cbn [fst].
  destruct (length (members gA) <=? length (members gB))%nat.
  - destruct (absorb_registry st gB gA HI HB HA) as (_ & _ & _ & H1 & H2 & _); [congruence|].
    done.
  - destruct (absorb_registry st gA gB HI HA HB Hne) as (_ & _ & _ & H1 & H2 & _). done.
Qed.

Lemma moved_counts st g (pt : Pt) :
  Inv st -> g ∈ groups st ->
  let st1 := with_groups st (reg_store (mkGroup (gid g) (members g) pt) (groups st)) in
  length (groups st1) = length (groups st) ∧ memberCount st1 = memberCount st.
Proof.
  intros HI Hg st1. unfold st1, memberCount. cbn [groups with_groups].
  split; [apply reg_store_length|].
  pose proof (reg_store_sum (length ∘ members) g (mkGroup (gid g) (members g) pt)
                (groups st) (Inv_keys st HI) Hg eq_refl) as H.
  cbn in H. cbn. lia.
Qed.

Lemma reg_store_elem_inv g h (gs : list Group) : h ∈ reg_store g gs -> h = g ∨ h ∈ gs.
Proof.
  unfold reg_store. intros H. apply list_elem_of_fmap in H as (h' & -> & Hh').
  case_decide; [by left | by right].
Qed.

Lemma mergeGroups_nonempty st (gA gB : Group) :
  Forall (fun g => members g ≠ []) (groups st) ->
  members gA ≠ [] -> members gB ≠ [] ->
  Forall (fun g => members g ≠ []) (groups (mergeGroups st gA gB).1).
Proof.
  intros Hf HA HB. unfold mergeGroups. cbn [fst groups with_registry].
  apply Forall_forall. intros h Hh. apply reg_delete_elem in Hh as [Hh _].
  apply reg_store_elem_inv in Hh as [-> | Hh]; [|by apply (proj1 (Forall_forall _ _) Hf)].
  cbn [members].
  assert (Hbase : ∀ (s l : list nat), s ≠ [] -> foldl set_add s l ≠ []).
  { intros s l Hs E. destruct s as [|x s]; [done|].
    assert (Hx : x ∈ foldl set_add (x :: s) l) by (apply foldl_set_add_elem; left; by left).
    rewrite E in Hx. by apply elem_of_nil in Hx. }
  destruct (length (members gA) <=? length (members gB))%nat; by apply Hbase.
Qed.

(** What a release does when [lockOnSnap] is set. *)
Lemma handleUp_locked o st st' :
  lockOnSnap o = true -> Inv st -> handleUp o st = Some st' ->
  drag st' = None
  ∧ pieces st' = pieces st ∧ board st' = board st ∧ edges st' = edges st
  ∧ ((groups st' = groups st ∧ pieceToGroup st' = pieceToGroup st)
     ∨ (S (length (groups st')) = length (groups st)
        ∧ memberCount st' = memberCount st))
  ∧ (Forall (fun g => members g ≠ []) (groups st) ->
     Forall (fun g => members g ≠ []) (groups st')).
Proof.
  intros Hlock HI. unfold handleUp.
  destruct (drag st) as [d|] eqn:Hd;
    [|intros [= <-]; do 4 (split; [done|]); split; [by left | done]].
  destruct (reg_get (groupId d) (groups st)) as [mg|] eqn:Hmg; [|done].
  cbn [mbind option_bind].
  destruct (trySnapAndMerge o st mg) as [st2|] eqn:Hs; [|done].
  cbn [mbind option_bind]. intros [= <-].
  cbn [drag pieces board edges groups pieceToGroup with_drag].
  split; [done|].
  apply reg_get_Some in Hmg as [Hmg _].
  apply (scanMembers_locked o _ st mg 0 st2 Hlock) in Hs
    as [-> | (ideal & gQ & HgQ & Hne & ->)]; [do 3 (split; [done|]); split; [by left | done]|].
  apply reg_get_Some in HgQ as [HgQ _].
  set (mg1 := mkGroup (gid mg) (members mg) ideal).
  set (st1 := with_groups st (reg_store mg1 (groups st))).
  destruct (moved_counts st mg ideal HI Hmg) as [Hl1 Hc1]. fold mg1 st1 in Hl1, Hc1.
  assert (Hmg1 : mg1 ∈ groups st1).
  { cbn [groups st1 with_groups]. unfold reg_store. apply list_elem_of_fmap.
    exists mg. split; [by rewrite decide_True | done]. }
  assert (HgQ1 : gQ ∈ groups st1).
  { cbn [groups st1 with_groups]. apply reg_store_elem_ne; [done | by cbn]. }
  destruct (merge_counts st1 mg1 gQ) as (Hl2 & Hc2 & Hp2 & Hb2 & He2);
    [by apply moved_inv | done | done | cbn; congruence |].
  split; [by rewrite Hp2|]. split; [by rewrite Hb2|]. split; [by rewrite He2|]. split.
  - right. unfold memberCount in *. cbn [groups with_drag].
    split; [by rewrite Hl2 | by rewrite Hc2].
  - intros Hne0. pose proof (proj1 (Forall_forall _ _) Hne0) as Hall.
    apply mergeGroups_nonempty.
    + apply Forall_forall. intros h Hh. cbn [groups st1 with_groups] in Hh.
      apply reg_store_elem_inv in Hh as [-> | Hh]; [by apply (Hall mg) | by apply Hall].
    + by apply (Hall mg).
    + by apply Hall.
Qed.

(** X15.  With [lockOnSnap] set a release performs at most one merge: it
    clears the drag, and either leaves the registry and the index as they
    were or leaves exactly one cluster less with the same total number of
    members. *)
Theorem release_merges_at_most_once o st st' :
  lockOnSnap o = true -> Inv st -> handleUp o st = Some st' ->
  drag st' = None
  ∧ pieces st' = pieces st
  ∧ ((groups st' = groups st ∧ pieceToGroup st' = pieceToGroup st)
     ∨ (S (length (groups st')) = length (groups st)
        ∧ memberCount st' = memberCount st)).
Proof.
  intros Hlock HI Hup.
  destruct (handleUp_locked o st st' Hlock HI Hup) as (H1 & H2 & _ & _ & H3 & _). done.
Qed.

(** X16.  A release merges nothing when no piece of the dragged cluster
    lies within [snapDistance] of its ideal offset to a piece in a cell next
    to it that belongs to another cluster: the registry and the index are
    unchanged and the drag is cleared, whether [lockOnSnap] is set or not. *)
Theorem release_without_snap o st (d : Drag) mg :
  Inv st -> pieces st = createPieces (board st) ->
  drag st = Some d ->
  reg_get (groupId d) (groups st) = Some mg ->
  (∀ p q gQ,
     p ∈ pieces st -> id p ∈ members mg ->
     q ∈ pieces st -> adjacent p q ->
     gQ ∈ groups st -> id q ∈ members gQ -> gid gQ ≠ gid mg ->
     closeEnough o mg (idealOffset p q gQ) = false) ->
  handleUp o st = Some (with_drag st None).
Proof.
  intros HI Hcat Hd Hmg Hfar. unfold handleUp. rewrite Hd, Hmg. cbn [mbind option_bind].
  pose proof (reg_get_Some _ _ _ Hmg) as [Hin _].
  assert (Hq : Forall (quiet o st mg) (members mg)).
  { apply Forall_forall. intros i Hi.
    pose proof (Inv_piece st mg i HI Hin Hi) as Hp.
    apply list_elem_of_fmap in Hp as (p & -> & Hp).
    exists p. split; [by apply pieceById_catalogue|].
    apply Forall_forall. intros q Hq.
    apply (neighbours_cell st p q Hcat) in Hq as [Hq Hadj].
    destruct (Inv_total st (id q) HI) as (gQ & HgQ & HiQ).
    { unfold pieceIds. by apply list_elem_of_fmap_2. }
    unfold snapTest. rewrite (Inv_index st gQ (id q) HI HgQ HiQ). cbn [mbind option_bind].
    destruct (decide (gid gQ = gid mg)) as [|Hne]; [done|].
    rewrite (reg_get_elem _ _ (Inv_keys st HI) HgQ). cbn [mbind option_bind].
    f_equal. by apply (Hfar p q gQ). }
  unfold trySnapAndMerge, scanFuel.
  pose proof (scanMembers_quiet o st mg (members mg) 0
                (S (sum_list (length ∘ members <$> groups st)))) as H.
  replace (length (members mg) + S (sum_list (length ∘ members <$> groups st)))
    with (S (length (members mg) + sum_list (length ∘ members <$> groups st))) in H by lia.
  rewrite H; [|done|done].
  cbn [scanMembers Nat.add].
  rewrite (proj2 (lookup_ge_None _ _)) by lia. done.
Qed.

(** X17.  After [reset], under the invariant, every piece is drawn at its
    target: the world position of each catalogue piece is its home cell's
    corner. *)
Theorem reset_solves st p :
  Inv st -> pieces st = createPieces (board st) -> p ∈ pieces st ->
  pieceWorldPos (reset st) (id p) = Some (target p).
Proof.
  intros HI Hcat Hp.
  destruct (Inv_total st (id p) HI) as (g & Hg & Hi).
  { unfold pieceIds. by apply list_elem_of_fmap_2. }
  pose proof (reset_inv st HI) as HI'.
  set (g0 := mkGroup (gid g) (members g) (mkPt 0 0)).
  assert (Hg0 : g0 ∈ groups (reset st)).
  { unfold reset. cbn [groups with_groups]. apply list_elem_of_fmap. by exists g. }
  rewrite (pieceWorldPos_intro (reset st) (id p) p g0).
  - f_equal. unfold pt_add. cbn [pos g0 px py]. destruct (target p). cbn. f_equal; lia.
  - by apply (pieceById_catalogue st).
  - by apply (Inv_index (reset st) g0 (id p) HI' Hg0).
  - by apply (reg_get_elem _ _ (Inv_keys _ HI')).
Qed.

End Release.

(** ** The registry [init] builds *)

Section InitRegistry.

Lemma init_groups (fresh : nat -> Gid) (b : Board) :
  (∀ i j, i < rows b * cols b -> j < rows b * cols b -> fresh i = fresh j -> i = j) ->
  groups (init fresh b)
  = (fun i => mkGroup (fresh i) [i] (mkPt 0 0)) <$> seq 0 (rows b * cols b).
Proof.
  intros Hinj. unfold init, createGroups. cbn [pieces].
  set (l := imap pair (createPieces b)).
  assert (Hlen : length l = rows b * cols b).
  { unfold l. by rewrite length_imap, createPieces_length. }
  assert (Hl : ∀ j kp, l !! j = Some kp -> kp.1 = j ∧ id kp.2 = j).
  { intros j kp. unfold l. rewrite list_lookup_imap.
    destruct (createPieces b !! j) as [p|] eqn:Hp; [|done]. intros [= <-]. cbn.
    by apply createPieces_lookup in Hp as [-> _]. }
  assert (Hkeys : NoDup ((fresh ∘ fst) <$> l)).
  { apply NoDup_alt. intros i j k. rewrite !list_lookup_fmap.
    destruct (l !! i) as [x|] eqn:Hi; [|done]. destruct (l !! j) as [y|] eqn:Hj; [|done].
    cbn. intros [= <-] [= E].
    pose proof (lookup_lt_Some _ _ _ Hi). pose proof (lookup_lt_Some _ _ _ Hj).
    apply Hl in Hi as [Hi _]. apply Hl in Hj as [Hj _].
    rewrite Hi, Hj in E. apply Hinj in E; lia. }
  rewrite createGroups_fold by done. cbn [fst snd groups with_registry].
  apply list_eq. intros j. rewrite !list_lookup_fmap.
  destruct (l !! j) as [kp|] eqn:Hj.
  - pose proof (lookup_lt_Some _ _ _ Hj) as Hlt. rewrite Hlen in Hlt.
    rewrite lookup_seq_lt by done. apply Hl in Hj as [H1 H2]. cbn. by rewrite H1, H2.
  - apply lookup_ge_None in Hj. rewrite Hlen in Hj.
    rewrite (proj2 (lookup_ge_None _ _)); [done|]. rewrite length_seq. lia.
Qed.

(** X18.  [_createGroups] with identifiers that are pairwise distinct over
    the pieces: the registry holds one singleton cluster per piece, in piece
    order, at offset [(0,0)]; the index sends piece [i] to the [i]-th
    identifier drawn and has no entry past the last piece; no drag is in
    progress. *)
Theorem init_registry (fresh : nat -> Gid) (b : Board) :
  (∀ i j, i < rows b * cols b -> j < rows b * cols b -> fresh i = fresh j -> i = j) ->
  groups (init fresh b)
  = (fun i => mkGroup (fresh i) [i] (mkPt 0 0)) <$> seq 0 (rows b * cols b)
  ∧ (∀ i, pieceToGroup (init fresh b) !! i
          = if decide (i < rows b * cols b) then Some (fresh i) else None)
  ∧ drag (init fresh b) = None.
Proof.
  intros Hinj. split; [by apply init_groups|]. split; [|done].
  unfold init, createGroups. cbn [pieces].
  set (l := imap pair (createPieces b)).
  assert (Hlen : length l = rows b * cols b).
  { unfold l. by rewrite length_imap, createPieces_length. }
  assert (Hl : ∀ j kp, l !! j = Some kp -> kp.1 = j ∧ id kp.2 = j).
  { intros j kp. unfold l. rewrite list_lookup_imap.
    destruct (createPieces b !! j) as [p|] eqn:Hp; [|done]. intros [= <-]. cbn.
    by apply createPieces_lookup in Hp as [-> _]. }
  assert (Hkeys : NoDup ((fresh ∘ fst) <$> l)).
  { apply NoDup_alt. intros i j k. rewrite !list_lookup_fmap.
    destruct (l !! i) as [x|] eqn:Hi; [|done]. destruct (l !! j) as [y|] eqn:Hj; [|done].
    cbn. intros [= <-] [= E].
    pose proof (lookup_lt_Some _ _ _ Hi). pose proof (lookup_lt_Some _ _ _ Hj).
    apply Hl in Hi as [Hi _]. apply Hl in Hj as [Hj _].
    rewrite Hi, Hj in E. apply Hinj in E; lia. }
  assert (Hids : NoDup ((id ∘ snd) <$> l)).
  { apply NoDup_alt. intros i j k. rewrite !list_lookup_fmap.
    destruct (l !! i) as [x|] eqn:Hi; [|done]. destruct (l !! j) as [y|] eqn:Hj; [|done].
    cbn. intros [= <-] [= E]. apply Hl in Hi as [_ Hi]. apply Hl in Hj as [_ Hj].
    congruence. }
  rewrite createGroups_fold by done. cbn [fst snd pieceToGroup with_registry].
  intros i. case_decide as Hi.
  - assert (is_Some (l !! i)) as [kp Hkp] by (apply lookup_lt_is_Some; lia).
    pose proof (Hl i kp Hkp) as [H1 H2].
    pose proof (index_fold_lookup fresh l kp Hids (list_elem_of_lookup_2 _ _ _ Hkp)) as H.
    by rewrite H1, H2 in H.
  - assert (Hnone : ∀ (l' : list (nat * Piece)),
              (∀ kp, kp ∈ l' -> id kp.2 ≠ i) ->
              foldl (fun (m : gmap nat Gid) kp => <[id kp.2 := fresh kp.1]> m) ∅ l' !! i = None).
    { induction l' as [|x l' IH] using rev_ind; intros Hne; [done|].
      rewrite foldl_app. cbn [foldl]. rewrite lookup_insert_ne.
      - apply IH. intros kp Hkp. apply Hne. apply elem_of_app. by left.
      - apply Hne. apply elem_of_app. right. by left. }
    apply Hnone. intros kp Hkp. apply list_elem_of_lookup_1 in Hkp as [j Hj].
    pose proof (lookup_lt_Some _ _ _ Hj) as Hlt. apply Hl in Hj as [_ ->]. lia.
Qed.

End InitRegistry.

Lemma release_merges_at_most_once_witness :
  ∃ st', handleUp defaultOptions (stateOf pairDragged) = Some st' ∧ drag st' = None.
Proof.
  assert (H : ∃ st', handleUp defaultOptions (stateOf pairDragged) = Some st')
    by (eexists; reflexivity).
  destruct H as [st' Hup]. exists st'. split; [done|].
  apply (release_merges_at_most_once defaultOptions (stateOf pairDragged) st').
  - reflexivity.
  - apply (bool_decide_unpack _). vm_compute. exact I.
  - exact Hup.
Defined.

(** A row of two: piece 1 is released 300 pixels below its place. *)
Lemma release_without_snap_witness :
  handleUp defaultOptions (stateOf (dragTo "g1" (mkPt 0 300) (rowPuzzle 2)))
  = Some (with_drag (stateOf (dragTo "g1" (mkPt 0 300) (rowPuzzle 2))) None).
Proof.
  apply (release_without_snap defaultOptions
           (stateOf (dragTo "g1" (mkPt 0 300) (rowPuzzle 2)))
           (mkDrag "g1" 0 0 (mkPt 0 300)) (mkGroup "g1" [1] (mkPt 0 300))).
  - apply (bool_decide_unpack _). vm_compute. exact I.
  - reflexivity.
  - reflexivity.
  - reflexivity.
  - intros p q gQ Hp Hip Hq Hadj HgQ HiQ Hne.
    cbn in Hip. apply list_elem_of_singleton in Hip.
    change (groups (stateOf (dragTo "g1" (mkPt 0 300) (rowPuzzle 2))))
      with [mkGroup "g0" [0] (mkPt 0 0); mkGroup "g1" [1] (mkPt 0 300)] in HgQ.
    change (pieces (stateOf (dragTo "g1" (mkPt 0 300) (rowPuzzle 2))))
      with [mkPiece 0 0 0 (mkPt 0 0) 100 100; mkPiece 1 0 1 (mkPt 100 0) 100 100] in Hp, Hq.
    apply elem_of_cons in HgQ as [-> | HgQ].
    + cbn in HiQ. apply list_elem_of_singleton in HiQ.
      apply elem_of_cons in Hp as [-> | Hp]; [done|].
      apply list_elem_of_singleton in Hp as ->.
      apply elem_of_cons in Hq as [-> | Hq]; [reflexivity|].
      apply list_elem_of_singleton in Hq as ->. done.
    + apply list_elem_of_singleton in HgQ as ->. done.
Defined.

Lemma reset_solves_witness :
  pieceWorldPos (reset (stateOf pairDragged)) 1 = Some (mkPt 100 0).
Proof.
  apply (reset_solves (stateOf pairDragged) (mkPiece 1 0 1 (mkPt 100 0) 100 100)).
  - apply (bool_decide_unpack _). vm_compute. exact I.
  - reflexivity.
  - apply (list_elem_of_lookup_2 _ 1). reflexivity.
Defined.

Lemma init_registry_witness :
  groups (init sampleId (rowBoard 3))
  = (fun i => mkGroup (sampleId i) [i] (mkPt 0 0)) <$> seq 0 (1 * 3).
Proof.
  apply (init_registry sampleId (rowBoard 3)).
  intros i j Hi Hj. cbn in Hi, Hj.
  destruct i as [|[|[|i]]]; destruct j as [|[|[|j]]]; try lia; done.
Defined.

(** ** [shuffle] and [_separateGroups] *)

Section Scatter.
Implicit Types (st : Puzzle) (g : Group) (arr : list Group) (cv : Canvas).

Lemma firstPiece_shape st g g' :
  members g' = members g -> firstPiece st g' = firstPiece st g.
Proof. unfold firstPiece. by intros ->. Qed.

Lemma shape_length arr arr' :
  clusterShape <$> arr' = clusterShape <$> arr -> length arr' = length arr.
Proof. intros H. apply (f_equal length) in H. by rewrite !length_fmap in H. Qed.

Lemma shape_lookup arr arr' (i : nat) g :
  clusterShape <$> arr' = clusterShape <$> arr -> arr !! i = Some g ->
  ∃ g', arr' !! i = Some g' ∧ gid g' = gid g ∧ members g' = members g.
Proof.
  intros H Hg. apply (f_equal (fun l => l !! i)) in H. rewrite !list_lookup_fmap, Hg in H.
  destruct (arr' !! i) as [g'|]; [|done]. cbn in H. injection H as H1 H2. by exists g'.
Qed.

Lemma shape_first st arr arr' :
  clusterShape <$> arr' = clusterShape <$> arr ->
  Forall (fun g => is_Some (firstPiece st g)) arr ->
  Forall (fun g => is_Some (firstPiece st g)) arr'.
Proof.
  intros H Hf. apply Forall_lookup. intros i g' Hg'.
  destruct (shape_lookup arr' arr i g' (eq_sym H) Hg') as (g & Hg & _ & Hm).
  rewrite <- (firstPiece_shape st g' g Hm). by apply (Forall_lookup_1 _ _ _ _ Hf Hg).
Qed.

Lemma pushPair_keeps st arr (i j : nat) arr' :
  pushPair st arr i j = Some arr' -> clusterShape <$> arr' = clusterShape <$> arr.
Proof.
  unfold pushPair.
  destruct (arr !! i) as [g1|] eqn:H1; [|done]. cbn [mbind option_bind].
  destruct (arr !! j) as [g2|] eqn:H2; [|done]. cbn [mbind option_bind].
  destruct (firstPiece st g1) as [p1|]; [|done]. cbn [mbind option_bind].
  destruct (firstPiece st g2) as [p2|]; [|done]. cbn [mbind option_bind].
  destruct (Rlt_dec _ _); [|by intros [= <-]].
  destruct (Rlt_dec _ _); [|by intros [= <-]].
  intros [= <-]. rewrite !list_fmap_insert. unfold clusterShape at 1 3. cbn [gid members].
  rewrite (list_insert_id (clusterShape <$> arr) i); [|by rewrite list_lookup_fmap, H1].
  rewrite list_insert_id; [done | by rewrite list_lookup_fmap, H2].
Qed.

Lemma pushPair_returns st arr (i j : nat) :
  i < length arr -> j < length arr ->
  Forall (fun g => is_Some (firstPiece st g)) arr ->
  is_Some (pushPair st arr i j).
Proof.
  intros Hi Hj Hf. unfold pushPair.
  destruct (lookup_lt_is_Some_2 arr i Hi) as [g1 H1].
  destruct (lookup_lt_is_Some_2 arr j Hj) as [g2 H2].
  rewrite H1, H2. cbn [mbind option_bind].
  destruct (Forall_lookup_1 _ _ _ _ Hf H1) as [p1 ->].
  destruct (Forall_lookup_1 _ _ _ _ Hf H2) as [p2 ->]. cbn [mbind option_bind].
  destruct (Rlt_dec _ _); [|done]. destruct (Rlt_dec _ _); done.
Qed.

Lemma Pt_ext (a b : Pt) : px a = px b -> py a = py b -> a = b.
Proof. destruct a, b. cbn. by intros -> ->. Qed.

Lemma offsetSum_cons g arr : offsetSum (g :: arr) = pt_add (pos g) (offsetSum arr).
Proof. reflexivity. Qed.

Lemma offsetSum_insert arr (i : nat) g g' :
  arr !! i = Some g ->
  px (offsetSum (<[i := g']> arr)) = (px (offsetSum arr) - px (pos g) + px (pos g'))%Z
  ∧ py (offsetSum (<[i := g']> arr)) = (py (offsetSum arr) - py (pos g) + py (pos g'))%Z.
Proof.
  revert i. induction arr as [|h arr IH]; intros i Hi; [done|].
  destruct i as [|i].
  - injection Hi as ->. change (<[0 := g']> (g :: arr)) with (g' :: arr).
    rewrite !offsetSum_cons. unfold pt_add. cbn [px py]. lia.
  - change (<[S i := g']> (h :: arr)) with (h :: <[i := g']> arr).
    destruct (IH i Hi) as [Hx Hy].
    rewrite !offsetSum_cons. unfold pt_add. cbn [px py]. lia.
Qed.

Lemma pushPair_sum st arr (i j : nat) arr' :
  i ≠ j -> pushPair st arr i j = Some arr' -> offsetSum arr' = offsetSum arr.
Proof.
  intros Hij. unfold pushPair.
  destruct (arr !! i) as [g1|] eqn:H1; [|done]. cbn [mbind option_bind].
  destruct (arr !! j) as [g2|] eqn:H2; [|done]. cbn [mbind option_bind].
  destruct (firstPiece st g1) as [p1|]; [|done]. cbn [mbind option_bind].
  destruct (firstPiece st g2) as [p2|]; [|done]. cbn [mbind option_bind].
  destruct (Rlt_dec _ _); [|by intros [= <-]].
  destruct (Rlt_dec _ _); [|by intros [= <-]].
  intros [= <-].
  match goal with |- offsetSum (<[j := ?b]> (<[i := ?a]> arr)) = _ =>
    set (g1' := a); set (g2' := b) end.
  assert (H2' : <[i := g1']> arr !! j = Some g2) by (by rewrite list_lookup_insert_ne).
  destruct (offsetSum_insert _ j g2 g2' H2') as [Hx Hy].
  destruct (offsetSum_insert arr i g1 g1' H1) as [Hx1 Hy1].
  apply Pt_ext; [rewrite Hx, Hx1 | rewrite Hy, Hy1];
    unfold g1', g2', pt_add, pt_sub; cbn [pos px py]; lia.
Qed.

Lemma separatePairs_elem (n : nat) (ij : nat * nat) :
  ij ∈ separatePairs n -> ij.1 < ij.2 ∧ ij.2 < n.
Proof.
  unfold separatePairs. intros H.
  apply list_elem_of_In, in_flat_map in H as (i & Hi & Hj).
  apply list_elem_of_In, list_elem_of_fmap in Hj as (j & -> & Hj).
  apply elem_of_seq in Hj. cbn. lia.
Qed.

Lemma pushAll st (ps : list (nat * nat)) arr :
  (∀ ij, ij ∈ ps -> ij.1 < ij.2 ∧ ij.2 < length arr) ->
  Forall (fun g => is_Some (firstPiece st g)) arr ->
  ∃ arr',
    foldl (fun acc ij => acc ≫= fun a => pushPair st a ij.1 ij.2) (Some arr) ps = Some arr'
    ∧ clusterShape <$> arr' = clusterShape <$> arr
    ∧ offsetSum arr' = offsetSum arr.
Proof.
  revert arr. induction ps as [|ij ps IH]; intros arr Hps Hf; [by exists arr|].
  cbn [foldl mbind option_bind].
  assert (Hin : ij ∈ ij :: ps) by (by left).
  destruct (Hps ij Hin) as [H1 H2].
  assert (H0 : ij.1 < length arr) by lia.
  assert (Hne : ij.1 ≠ ij.2) by lia.
  destruct (pushPair_returns st arr ij.1 ij.2 H0 H2 Hf) as [arr1 Harr1].
  rewrite Harr1.
  pose proof (pushPair_keeps st arr _ _ arr1 Harr1) as Hk.
  pose proof (pushPair_sum st arr _ _ arr1 Hne Harr1) as Hs.
  destruct (IH arr1) as (arr' & H3 & H4 & H5).
  - intros kl Hkl. rewrite (shape_length _ _ Hk). apply Hps. by right.
  - by apply (shape_first st arr).
  - exists arr'. split; [done|]. split; congruence.
Qed.

Lemma separateLoop_keeps st (iter : nat) arr :
  Forall (fun g => is_Some (firstPiece st g)) arr ->
  ∃ arr',
    separateLoop iter st arr = Some arr'
    ∧ clusterShape <$> arr' = clusterShape <$> arr
    ∧ offsetSum arr' = offsetSum arr.
Proof.
  revert arr. induction iter as [|k IH]; intros arr Hf; [by exists arr|].
  cbn [separateLoop]. unfold separatePass.
  destruct (pushAll st (separatePairs (length arr)) arr) as (arr1 & H1 & H2 & H3);
    [apply separatePairs_elem | done |].
  rewrite H1. cbn [mbind option_bind].
  destruct (IH arr1) as (arr' & H4 & H5 & H6); [by apply (shape_first st arr)|].
  exists arr'. split; [done|]. split; congruence.
Qed.

(** X19.  [_separateGroups] only moves clusters: when every cluster has a
    first piece in the catalogue it returns, identifiers, member sets, the
    registry order and the index are as before, and so is the sum of all
    cluster offsets (each push is taken from one cluster and given to the
    other). *)
Theorem separateGroups_conserves st (iter : nat) :
  Forall (fun g => is_Some (firstPiece st g)) (groups st) ->
  ∃ st',
    separateGroups iter st = Some st'
    ∧ clusterShape <$> groups st' = clusterShape <$> groups st
    ∧ offsetSum (groups st') = offsetSum (groups st)
    ∧ pieceToGroup st' = pieceToGroup st
    ∧ drag st' = drag st.
Proof.
  intros Hf. unfold separateGroups.
  destruct (separateLoop_keeps st iter (groups st) Hf) as (arr' & -> & H2 & H3).
  cbn [mbind option_bind]. eexists. split; [reflexivity|]. done.
Qed.

(** X20.  A push never brings two clusters closer: on each axis the gap
    between their first pieces keeps its sign and does not shrink. *)
Theorem pushPair_apart st arr (i j : nat) arr' g1 g2 p1 p2 :
  i ≠ j ->
  arr !! i = Some g1 -> arr !! j = Some g2 ->
  firstPiece st g1 = Some p1 -> firstPiece st g2 = Some p2 ->
  pushPair st arr i j = Some arr' ->
  ∃ g1' g2',
    arr' !! i = Some g1' ∧ arr' !! j = Some g2'
    ∧ (0 <= px (firstGap p1 p2 g1 g2) -> px (firstGap p1 p2 g1 g2) <= px (firstGap p1 p2 g1' g2'))%Z
    ∧ (px (firstGap p1 p2 g1 g2) <= 0 -> px (firstGap p1 p2 g1' g2') <= px (firstGap p1 p2 g1 g2))%Z
    ∧ (0 <= py (firstGap p1 p2 g1 g2) -> py (firstGap p1 p2 g1 g2) <= py (firstGap p1 p2 g1' g2'))%Z
    ∧ (py (firstGap p1 p2 g1 g2) <= 0 -> py (firstGap p1 p2 g1' g2') <= py (firstGap p1 p2 g1 g2))%Z.
Proof.
  intros Hij H1 H2 Hp1 Hp2. unfold pushPair. rewrite H1, H2. cbn [mbind option_bind].
  rewrite Hp1, Hp2. cbn [mbind option_bind].
  set (dx := ((px (target p2) + px (pos g2)) - (px (target p1) + px (pos g1)))%Z).
  set (dy := ((py (target p2) + py (pos g2)) - (py (target p1) + py (pos g1)))%Z).
  set (d := sqrt (IZR dx * IZR dx + IZR dy * IZR dy)).
  set (minD := (IZR (Z.min (cellW (board st)) (cellH (board st))) * (8 / 10))%R).
  destruct (Rlt_dec d minD) as [Hlt|_];
    [|intros [= <-]; exists g1, g2; repeat split; (done || lia)].
  destruct (Rlt_dec 0 d) as [Hpos|_];
    [|intros [= <-]; exists g1, g2; repeat split; (done || lia)].
  intros [= <-]. eexists _, _.
  split; [rewrite list_lookup_insert_ne by done; apply list_lookup_insert_eq;
          by apply lookup_lt_Some in H1|].
  split; [apply list_lookup_insert_eq; rewrite length_insert; by apply lookup_lt_Some in H2|].
  unfold firstGap, pt_add, pt_sub. cbn [px py pos]. fold dx dy.
  set (push := ((minD - d) / 2)%R).
  assert (Hpush : (0 < push)%R) by (unfold push; lra).
  assert (Hinv : (0 < / d)%R) by (by apply Rinv_0_lt_compat).
  assert (Hsign : ∀ a : Z, ((0 <= a)%Z -> (0 <= js_round (IZR a / d * push))%Z)
                           ∧ ((a <= 0)%Z -> (js_round (IZR a / d * push) <= 0)%Z)).
  { intros a. split; intros Ha; apply IZR_le in Ha.
    - apply js_round_lb. unfold Rdiv. apply Rmult_le_pos; [|lra]. apply Rmult_le_pos; lra.
    - apply js_round_ub. unfold Rdiv.
      assert (0 <= - IZR a * / d * push)%R by (apply Rmult_le_pos; [|lra]; apply Rmult_le_pos; lra).
      lra. }
  destruct (Hsign dx) as [Hx1 Hx2]. destruct (Hsign dy) as [Hy1 Hy2].
  repeat split; intros H; lia.
Qed.







End Scatter.

Lemma rowPuzzle_first :
  Forall (fun g => is_Some (firstPiece (rowPuzzle 2) g)) (groups (rowPuzzle 2)).
Proof. repeat (constructor; [eexists; reflexivity|]). constructor. Qed.

Lemma closePair_first :
  Forall (fun g => is_Some (firstPiece closePair g)) (groups closePair).
Proof. repeat (constructor; [eexists; reflexivity|]). constructor. Qed.

(** The push of the two clusters of [closePair]: their first pieces are 50
    pixels apart, [minD] is 80, each cluster is moved by 15 pixels. *)
Lemma closePair_push :
  pushPair closePair (groups closePair) 0 1
  = Some [mkGroup "g0" [0] (mkPt (-15) 0); mkGroup "g1" [1] (mkPt (-35) 0)].
Proof.
  unfold pushPair.
  change (groups closePair !! 0) with (Some (mkGroup "g0" [0] (mkPt 0 0))).
  change (groups closePair !! 1) with (Some (mkGroup "g1" [1] (mkPt (-50) 0))).
  cbn [mbind option_bind].
  change (firstPiece closePair (mkGroup "g0" [0] (mkPt 0 0)))
    with (Some (mkPiece 0 0 0 (mkPt 0 0) 100 100)).
  change (firstPiece closePair (mkGroup "g1" [1] (mkPt (-50) 0)))
    with (Some (mkPiece 1 0 1 (mkPt 100 0) 100 100)).
  cbn [mbind option_bind target pos px py gid members].
  change (100 + -50 - (0 + 0))%Z with 50%Z. change (0 + 0 - (0 + 0))%Z with 0%Z.
  change (Z.min (cellW (board closePair)) (cellH (board closePair))) with 100%Z.
  assert (Hd : sqrt (IZR 50 * IZR 50 + IZR 0 * IZR 0) = 50%R).
  { replace (IZR 50 * IZR 50 + IZR 0 * IZR 0)%R with (50 * 50)%R by lra.
    apply sqrt_square. lra. }
  rewrite Hd.
  destruct (Rlt_dec 50 (IZR 100 * (8 / 10))) as [_|H]; [|exfalso; lra].
  destruct (Rlt_dec 0 50) as [_|H]; [|exfalso; lra].
  replace (IZR 50 / 50 * ((IZR 100 * (8 / 10) - 50) / 2))%R with (IZR 15) by lra.
  replace (IZR 0 / 50 * ((IZR 100 * (8 / 10) - 50) / 2))%R with (IZR 0) by lra.
  rewrite !js_round_IZR. reflexivity.
Qed.

(** After the push the first pieces are 80 pixels apart and the next round
    leaves the two clusters where they are. *)
Lemma closePair_rest :
  pushPair closePair
    [mkGroup "g0" [0] (mkPt (-15) 0); mkGroup "g1" [1] (mkPt (-35) 0)] 0 1
  = Some [mkGroup "g0" [0] (mkPt (-15) 0); mkGroup "g1" [1] (mkPt (-35) 0)].
Proof.
  unfold pushPair.
  cbn [lookup list_lookup mbind option_bind].
  change (firstPiece closePair (mkGroup "g0" [0] (mkPt (-15) 0)))
    with (Some (mkPiece 0 0 0 (mkPt 0 0) 100 100)).
  change (firstPiece closePair (mkGroup "g1" [1] (mkPt (-35) 0)))
    with (Some (mkPiece 1 0 1 (mkPt 100 0) 100 100)).
  cbn [mbind option_bind target pos px py gid members].
  change (100 + -35 - (0 + -15))%Z with 80%Z. change (0 + 0 - (0 + 0))%Z with 0%Z.
  change (Z.min (cellW (board closePair)) (cellH (board closePair))) with 100%Z.
  assert (Hd : sqrt (IZR 80 * IZR 80 + IZR 0 * IZR 0) = 80%R).
  { replace (IZR 80 * IZR 80 + IZR 0 * IZR 0)%R with (80 * 80)%R by lra.
    apply sqrt_square. lra. }
  rewrite Hd.
  destruct (Rlt_dec 80 (IZR 100 * (8 / 10))) as [H|_]; [exfalso; lra | reflexivity].
Qed.

Lemma closePair_separated :
  separateGroups 2 closePair
  = Some (with_groups closePair
            [mkGroup "g0" [0] (mkPt (-15) 0); mkGroup "g1" [1] (mkPt (-35) 0)]).
Proof.
  unfold separateGroups, separateLoop, separatePass.
  change (separatePairs (length (groups closePair))) with [(0, 1)].
  cbn [foldl mbind option_bind fst snd]. rewrite closePair_push.
  cbn [mbind option_bind].
  change (separatePairs (length [mkGroup "g0" [0] (mkPt (-15) 0);
                                 mkGroup "g1" [1] (mkPt (-35) 0)])) with [(0, 1)].
  cbn [foldl mbind option_bind fst snd]. rewrite closePair_rest. reflexivity.
Qed.

Lemma separateGroups_conserves_witness :
  ∃ st', separateGroups 2 closePair = Some st'
         ∧ groups closePair
           = [mkGroup "g0" [0] (mkPt 0 0); mkGroup "g1" [1] (mkPt (-50) 0)]
         ∧ groups st'
           = [mkGroup "g0" [0] (mkPt (-15) 0); mkGroup "g1" [1] (mkPt (-35) 0)]
         ∧ offsetSum (groups st') = offsetSum (groups closePair).
Proof.
  destruct (separateGroups_conserves closePair 2)
    as (st' & H1 & _ & H2 & _).
  - repeat (constructor; [eexists; reflexivity|]). constructor.
  - exists st'. split; [exact H1|]. split; [reflexivity|]. split; [|exact H2].
    rewrite closePair_separated in H1. by injection H1 as <-.
Defined.

Lemma pushPair_apart_witness :
  ∃ arr' g1' g2',
    pushPair closePair (groups closePair) 0 1 = Some arr'
    ∧ arr' = [mkGroup "g0" [0] (mkPt (-15) 0); mkGroup "g1" [1] (mkPt (-35) 0)]
    ∧ arr' !! 0 = Some g1' ∧ arr' !! 1 = Some g2'
    ∧ px (firstGap (mkPiece 0 0 0 (mkPt 0 0) 100 100)
            (mkPiece 1 0 1 (mkPt 100 0) 100 100)
            (mkGroup "g0" [0] (mkPt 0 0)) (mkGroup "g1" [1] (mkPt (-50) 0))) = 50%Z
    ∧ (50 <= px (firstGap (mkPiece 0 0 0 (mkPt 0 0) 100 100)
                   (mkPiece 1 0 1 (mkPt 100 0) 100 100) g1' g2'))%Z.
Proof.
  destruct (pushPair_apart closePair (groups closePair) 0 1
              [mkGroup "g0" [0] (mkPt (-15) 0); mkGroup "g1" [1] (mkPt (-35) 0)]
              (mkGroup "g0" [0] (mkPt 0 0)) (mkGroup "g1" [1] (mkPt (-50) 0))
              (mkPiece 0 0 0 (mkPt 0 0) 100 100) (mkPiece 1 0 1 (mkPt 100 0) 100 100))
    as (g1' & g2' & H1 & H2 & H3 & _); try reflexivity; [lia | exact closePair_push |].
  eexists _, g1', g2'. split; [exact closePair_push|]. split; [reflexivity|].
  do 2 (split; [done|]). split; [reflexivity|].
  cbn in H3. apply H3. lia.
Defined.


(** ** A whole session *)

Section Safety.
Variable isPointInPath : Pt -> list Pt -> Q -> Q -> bool.
Variables (o : Options) (e : Easing) (cv : Canvas) (img : Image) (noOverlap : bool).
Implicit Types (st : Puzzle) (g : Group) (gs : list Group).



















End Safety.



(** ** The first version: easing without rounding, edges without sharing *)

Section LegacyFacts.
Local Open Scope R_scope.
Implicit Types (e : Easing) (st : Legacy.State) (d : Legacy.Drag) (g : Legacy.Group).

Lemma legacy_get_Some (k : Gid) (gs : list Legacy.Group) g :
  Legacy.get k gs = Some g -> Legacy.gid g = k.
Proof.
  unfold Legacy.get. intros H. apply find_some in H as [_ H].
  by apply bool_decide_eq_true in H.
Qed.

Lemma legacy_get_store (k : Gid) (gs : list Legacy.Group) g g' :
  Legacy.get k gs = Some g -> Legacy.gid g' = k ->
  Legacy.get k (Legacy.store g' gs) = Some g'.
Proof.
  intros Hg Hk. unfold Legacy.get, Legacy.store in *.
  induction gs as [|h gs IH]; [done|]. cbn in Hg |- *.
  destruct (decide (Legacy.gid h = Legacy.gid g')) as [E|E].
  - rewrite bool_decide_eq_true_2 by done. done.
  - rewrite bool_decide_eq_false_2 in Hg by congruence.
    rewrite bool_decide_eq_false_2 by congruence. by apply IH.
Qed.

Lemma legacy_update_eq e st d g :
  Legacy.drag st = Some d ->
  Legacy.get (Legacy.groupId d) (Legacy.groups st) = Some g ->
  Legacy.update e st
  = Some (Legacy.mkState
            (Legacy.store
               (Legacy.mkGroup (Legacy.gid g) (Legacy.members g)
                  ((Legacy.pos g).1 + (Legacy.step e (Legacy.pos g) (Legacy.target d)).1,
                   (Legacy.pos g).2 + (Legacy.step e (Legacy.pos g) (Legacy.target d)).2))
               (Legacy.groups st))
            (Legacy.drag st)).
Proof. intros Hd Hg. unfold Legacy.update. by rewrite Hd, Hg. Qed.

Lemma legacy_step_clamped e (p t : R * R) :
  let dx := (t.1 - p.1) * dragLerp e in
  let dy := (t.2 - p.2) * dragLerp e in
  0 <= maxStepPerFrame e ->
  maxStepPerFrame e < sqrt (dx * dx + dy * dy) ->
  (Legacy.step e p t).1 * (Legacy.step e p t).1
  + (Legacy.step e p t).2 * (Legacy.step e p t).2
  = maxStepPerFrame e * maxStepPerFrame e.
Proof.
  intros dx dy Hm Hlen. unfold Legacy.step. fold dx dy.
  set (len := sqrt (dx * dx + dy * dy)) in *.
  destruct (Rlt_dec (maxStepPerFrame e) len) as [_|H]; [|done].
  destruct (Req_EM_T len 0) as [E|Hne]; [lra|]. cbn [fst snd].
  assert (Hsq : len * len = dx * dx + dy * dy) by (unfold len; apply sqrt_sqrt; nra).
  transitivity ((dx * dx + dy * dy) * (maxStepPerFrame e / len) * (maxStepPerFrame e / len));
    [ring|].
  rewrite <- Hsq. field. lra.
Qed.

Lemma legacy_step_eased e (p t : R * R) :
  let dx := (t.1 - p.1) * dragLerp e in
  let dy := (t.2 - p.2) * dragLerp e in
  sqrt (dx * dx + dy * dy) <= maxStepPerFrame e ->
  Legacy.step e p t = (dx, dy).
Proof.
  intros dx dy Hlen. unfold Legacy.step. fold dx dy.
  destruct (Rlt_dec _ _) as [H|_]; [lra | done].
Qed.

(** X23.  In the first version [_update] does not round: when the eased
    step is longer than [maxStepPerFrame] the dragged cluster moves by
    exactly [maxStepPerFrame], and otherwise the vector from the cluster to
    the drag target shrinks by the factor [1 - dragLerp] on both axes. *)
Theorem legacy_update_step e st d g :
  let dx := ((Legacy.target d).1 - (Legacy.pos g).1) * dragLerp e in
  let dy := ((Legacy.target d).2 - (Legacy.pos g).2) * dragLerp e in
  Legacy.drag st = Some d ->
  Legacy.get (Legacy.groupId d) (Legacy.groups st) = Some g ->
  0 <= maxStepPerFrame e ->
  ∃ st' g',
    Legacy.update e st = Some st'
    ∧ Legacy.drag st' = Some d
    ∧ Legacy.get (Legacy.groupId d) (Legacy.groups st') = Some g'
    ∧ Legacy.members g' = Legacy.members g
    ∧ (maxStepPerFrame e < sqrt (dx * dx + dy * dy) ->
       ((Legacy.pos g').1 - (Legacy.pos g).1) * ((Legacy.pos g').1 - (Legacy.pos g).1)
       + ((Legacy.pos g').2 - (Legacy.pos g).2) * ((Legacy.pos g').2 - (Legacy.pos g).2)
       = maxStepPerFrame e * maxStepPerFrame e)
    ∧ (sqrt (dx * dx + dy * dy) <= maxStepPerFrame e ->
       Legacy.gap (Legacy.pos g') (Legacy.target d)
       = ((1 - dragLerp e) * (Legacy.gap (Legacy.pos g) (Legacy.target d)).1,
          (1 - dragLerp e) * (Legacy.gap (Legacy.pos g) (Legacy.target d)).2)).
Proof.
  intros dx dy Hd Hg Hm. pose proof (legacy_get_Some _ _ _ Hg) as Hk.
  rewrite (legacy_update_eq e st d g Hd Hg).
  eexists _, (Legacy.mkGroup (Legacy.gid g) (Legacy.members g) _).
  split; [reflexivity|]. cbn [Legacy.drag Legacy.groups]. split; [done|].
  split; [by apply (legacy_get_store _ _ g)|]. cbn [Legacy.members Legacy.pos fst snd].
  split; [done|]. split.
  - intros Hlen. pose proof (legacy_step_clamped e (Legacy.pos g) (Legacy.target d) Hm Hlen) as H.
    rewrite <- H. ring.
  - intros Hlen. rewrite (legacy_step_eased e (Legacy.pos g) (Legacy.target d) Hlen).
    unfold Legacy.gap. cbn [fst snd]. f_equal; ring.
Qed.

Lemma sin_below : sin (8 * PI / 5) < 0.
Proof.
  pose proof PI_lower. pose proof PI_upper. apply sin_lt_0; lra.
Qed.

Lemma sin_above : 0 < sin (1 / 5 * PI * 2 + 13).
Proof.
  pose proof PI_lower. pose proof PI_upper.
  replace (1 / 5 * PI * 2 + 13) with ((13 - 18 * PI / 5) + 2 * INR 2 * PI)
    by (cbn [INR]; field).
  rewrite sin_period. apply sin_gt_0; lra.
Qed.

(** X25.  In the first version neighbouring pieces do not share their
    common edge.  For every cell size, the bottom side of piece [(0,0)] and
    the top side of piece [(1,0)], which lies one cell height lower, both
    have a vertex one fifth of the width along, and the vertex of the lower
    piece is strictly below that of the upper piece. *)
Theorem legacy_edges_differ (w h : Z) :
  ∃ p q,
    Legacy.pathFn w h 0 0 !! 14%nat = Some p
    ∧ Legacy.pathFn w h 1 0 !! 1%nat = Some q
    ∧ p = Legacy.bottomPoint w h 0 0 4
    ∧ q = Legacy.topPoint w h 1 0 1
    ∧ p.1 = q.1
    ∧ p.2 < IZR h + q.2.
Proof.
  eexists _, _. split; [reflexivity|]. split; [reflexivity|].
  split; [reflexivity|]. split; [reflexivity|].
  unfold Legacy.bottomPoint, Legacy.topPoint, Legacy.wave, Legacy.N. cbn [fst snd].
  replace (INR 4 / INR 5) with (4 / 5) by (cbn [INR]; field).
  replace (INR 1 / INR 5) with (1 / 5) by (cbn [INR]; field).
  split; [field|].
  replace (4 / 5 * PI * 2 + INR (0 * 19 + 0 * 5)) with (8 * PI / 5) by (cbn [INR Nat.mul Nat.add]; field).
  replace (INR (1 * 13 + 0 * 7)) with 13
    by (rewrite INR_IZR_INZ; replace (Z.of_nat (1 * 13 + 0 * 7)) with 13%Z by reflexivity; lra).
  pose proof sin_below. pose proof sin_above. lra.
Qed.

End LegacyFacts.

(** A cluster at the origin dragged towards [(30,40)] with the default
    easing: the eased step has length 10, the cap. *)
Lemma legacy_update_step_witness :
  ∃ st' g',
    Legacy.update defaultEasing
      (Legacy.mkState [Legacy.mkGroup "g0" [0] (0%R, 0%R)]
         (Some (Legacy.mkDrag "g0" 0 0 (30%R, 40%R)))) = Some st'
    ∧ Legacy.get "g0" (Legacy.groups st') = Some g'
    ∧ Legacy.members g' = [0].
Proof.
  destruct (legacy_update_step defaultEasing
              (Legacy.mkState [Legacy.mkGroup "g0" [0] (0%R, 0%R)]
                 (Some (Legacy.mkDrag "g0" 0 0 (30%R, 40%R))))
              (Legacy.mkDrag "g0" 0 0 (30%R, 40%R))
              (Legacy.mkGroup "g0" [0] (0%R, 0%R)) eq_refl eq_refl)
    as (st' & g' & H1 & _ & H2 & H3 & _).
  - cbn. lra.
  - by exists st', g'.
Defined.


(** ** A miss, the speed limit of a drag, an idle separation *)

Section Miss.
Variable isPointInPath : Pt -> list Pt -> Q -> Q -> bool.
Implicit Types (st : Puzzle) (g : Group) (p : Piece) (x y : Q).

Lemma hitMembers_miss st g (ms : list nat) x y :
  (∀ i, i ∈ ms ->
        ∃ p, pieceById st i = Some p
             ∧ outsideBox x y (pt_add (target p) (pos g)) p = true) ->
  hitMembers isPointInPath st g ms x y = Some None.
Proof.
  induction ms as [|i ms IH]; intros H; [done|]. cbn [hitMembers].
  destruct (H i ltac:(by left)) as (p & -> & Hbox). cbn [mbind option_bind].
  rewrite Hbox. apply IH. intros j Hj. apply H. by right.
Qed.

Lemma hitGroups_miss st (gs : list Group) x y :
  (∀ g i, g ∈ gs -> i ∈ members g ->
          ∃ p, pieceById st i = Some p
               ∧ outsideBox x y (pt_add (target p) (pos g)) p = true) ->
  hitGroups isPointInPath st gs x y = Some None.
Proof.
  induction gs as [|g gs IH]; intros H; [done|]. cbn [hitGroups].
  rewrite hitMembers_miss.
  - cbn [mbind option_bind]. apply IH. intros h i Hh Hi. apply (H h i); [by right | done].
  - intros i Hi. rewrite elem_of_reverse in Hi. apply (H g i); [by left | done].
Qed.

(** X26.  A pointer-down outside the bounding box of every piece, wherever
    the clusters lie, finds nothing and starts no drag: the state is
    unchanged, and neither [pathFn] nor [isPointInPath] is consulted. *)
Theorem handleDown_miss st x y :
  (∀ g i, g ∈ groups st -> i ∈ members g ->
          ∃ p, pieceById st i = Some p
               ∧ outsideBox x y (pt_add (target p) (pos g)) p = true) ->
  hitTest isPointInPath st x y = Some None
  ∧ handleDown isPointInPath st x y = Some st.
Proof.
  intros H.
  assert (Hhit : hitTest isPointInPath st x y = Some None).
  { unfold hitTest. apply hitGroups_miss. intros g i Hg Hi.
    rewrite elem_of_reverse in Hg. by apply H. }
  split; [done|]. unfold handleDown. by rewrite Hhit.
Qed.

End Miss.

Section SpeedLimit.
Local Open Scope R_scope.

Lemma easedStep_bound (e : Easing) (p t : Pt) :
  0 <= maxStepPerFrame e ->
  Rabs (easedStep e p t).1 <= maxStepPerFrame e
  ∧ Rabs (easedStep e p t).2 <= maxStepPerFrame e.
Proof.
  intros Hm.
  set (dx := IZR (px t - px p) * dragLerp e).
  set (dy := IZR (py t - py p) * dragLerp e).
  set (len := sqrt (dx * dx + dy * dy)).
  assert (Hsq : len * len = dx * dx + dy * dy) by (unfold len; apply sqrt_sqrt; nra).
  assert (Hlen0 : 0 <= len) by apply sqrt_pos.
  destruct (Rlt_dec (maxStepPerFrame e) len) as [Hlt|Hle].
  - destruct (easedStep_clamped e p t Hm Hlt) as (s & Hs & E & Hq).
    rewrite E. cbn [fst snd]. fold dx dy in Hq |- *. split; apply Rabs_le; split; nra.
  - unfold easedStep. fold dx dy len.
    destruct (Rlt_dec (maxStepPerFrame e) len) as [Hlt|_]; [done|]. cbn [fst snd].
    split; apply Rabs_le; split; nra.
Qed.

Lemma round_step (a : Z) (s m : R) :
  Rabs s <= m -> Rabs (IZR (js_round (IZR a + s) - a)) <= m + / 2.
Proof.
  intros Hs. unfold js_round. pose proof (Zfloor_bound (IZR a + s + / 2)) as [H1 H2].
  rewrite minus_IZR.
  assert (- m <= s <= m).
  { split.
    - pose proof (Rle_abs (- s)) as H. rewrite Rabs_Ropp in H. lra.
    - pose proof (Rle_abs s). lra. }
  apply Rabs_le. split; lra.
Qed.

(** X27.  The speed limit of a drag: in one frame the dragged cluster moves
    by at most [maxStepPerFrame + 1/2] pixels on each axis, whatever the
    distance to the drag target and whatever [dragLerp]. *)
Theorem update_speed_limit (e : Easing) (st : Puzzle) (d : Drag) (g : Group) :
  drag st = Some d ->
  reg_get (groupId d) (groups st) = Some g ->
  0 <= maxStepPerFrame e ->
  ∃ st' g',
    update e st = Some st'
    ∧ reg_get (groupId d) (groups st') = Some g'
    ∧ Rabs (IZR (px (pos g') - px (pos g))) <= maxStepPerFrame e + / 2
    ∧ Rabs (IZR (py (pos g') - py (pos g))) <= maxStepPerFrame e + / 2.
Proof.
  intros Hd Hg Hm. pose proof (reg_get_Some _ _ _ Hg) as [Hin Hid].
  rewrite (update_easedPos e st d g Hd Hg).
  eexists _, (mkGroup (gid g) (members g) _). split; [reflexivity|].
  cbn [groups with_groups pos]. split.
  { rewrite <- Hid at 1. apply (reg_get_store_eq (mkGroup (gid g) _ _)). cbn [gid].
    by apply list_elem_of_fmap_2. }
  destruct (easedStep_bound e (pos g) (dragTarget d) Hm) as [Hx Hy].
  unfold easedPos. cbn [px py]. split; by apply round_step.
Qed.

End SpeedLimit.

Section Idle.
Implicit Types (st : Puzzle) (g : Group) (arr : list Group).

Lemma pushAll_idle st (ps : list (nat * nat)) arr :
  (∀ ij, ij ∈ ps -> pushPair st arr ij.1 ij.2 = Some arr) ->
  foldl (fun acc ij => acc ≫= fun a => pushPair st a ij.1 ij.2) (Some arr) ps = Some arr.
Proof.
  induction ps as [|ij ps IH]; intros H; [done|]. cbn [foldl mbind option_bind].
  rewrite (H ij) by (by left). apply IH. intros kl Hkl. apply H. by right.
Qed.

Lemma separateLoop_idle st (iter : nat) arr :
  separatePass st arr = Some arr -> separateLoop iter st arr = Some arr.
Proof.
  intros H. induction iter as [|k IH]; [done|]. cbn [separateLoop]. by rewrite H.
Qed.

(** X28.  [_separateGroups] is idle on a layout in which every two
    clusters are either at least [minD] apart or exactly on the same spot
    (first piece on first piece): clusters that coincide are never pushed
    apart, and the state is returned as it was. *)
Theorem separateGroups_idle st (iter : nat) :
  Forall (fun g => is_Some (firstPiece st g)) (groups st) ->
  (∀ i j g1 g2 p1 p2,
     i < j ->
     groups st !! i = Some g1 -> groups st !! j = Some g2 ->
     firstPiece st g1 = Some p1 -> firstPiece st g2 = Some p2 ->
     let v := firstGap p1 p2 g1 g2 in
     let d := sqrt (IZR (px v) * IZR (px v) + IZR (py v) * IZR (py v)) in
     d = 0%R ∨ (minGap (board st) <= d)%R) ->
  separateGroups iter st = Some st.
Proof.
  intros Hf Hfar. unfold separateGroups.
  rewrite separateLoop_idle; [cbn; by destruct st|].
  unfold separatePass. apply pushAll_idle. intros [i j] Hij.
  apply separatePairs_elem in Hij as [Hlt Hj]. cbn [fst snd] in *.
  destruct (lookup_lt_is_Some_2 (groups st) i ltac:(lia)) as [g1 H1].
  destruct (lookup_lt_is_Some_2 (groups st) j Hj) as [g2 H2].
  destruct (Forall_lookup_1 _ _ _ _ Hf H1) as [p1 Hp1].
  destruct (Forall_lookup_1 _ _ _ _ Hf H2) as [p2 Hp2].
  specialize (Hfar i j g1 g2 p1 p2 Hlt H1 H2 Hp1 Hp2). cbn zeta in Hfar.
  unfold pushPair. rewrite H1, H2. cbn [mbind option_bind]. rewrite Hp1, Hp2.
  cbn [mbind option_bind]. unfold firstGap, minGap in Hfar. cbn [px py] in Hfar.
  destruct (Rlt_dec _ _) as [Hlt1|_]; [|done].
  destruct (Rlt_dec _ _) as [Hlt2|_]; [|done].
  exfalso. destruct Hfar as [E | Hge]; lra.
Qed.

End Idle.

Lemma handleDown_miss_witness :
  hitTest (fun _ _ _ _ => true) (rowPuzzle 2) 250 50 = Some None
  ∧ handleDown (fun _ _ _ _ => true) (rowPuzzle 2) 250 50 = Some (rowPuzzle 2).
Proof.
  apply (handleDown_miss (fun _ _ _ _ => true) (rowPuzzle 2) 250 50).
  intros g i Hg Hi.
  change (groups (rowPuzzle 2))
    with [mkGroup "g0" [0] (mkPt 0 0); mkGroup "g1" [1] (mkPt 0 0)] in Hg.
  apply elem_of_cons in Hg as [-> | Hg].
  - cbn in Hi. apply list_elem_of_singleton in Hi as ->. eexists. split; reflexivity.
  - apply list_elem_of_singleton in Hg as ->.
    cbn in Hi. apply list_elem_of_singleton in Hi as ->. eexists. split; reflexivity.
Defined.

Lemma update_speed_limit_witness :
  ∃ st' g',
    update defaultEasing pulledDiagonally = Some st'
    ∧ reg_get "g0" (groups st') = Some g'
    ∧ (Rabs (IZR (px (pos g') - 0)) <= 10 + / 2)%R.
Proof.
  destruct (update_speed_limit defaultEasing pulledDiagonally
              (mkDrag "g0" 0 0 (mkPt 100 100)) (mkGroup "g0" [0] (mkPt 0 0))
              eq_refl eq_refl)
    as (st' & g' & H1 & H2 & H3 & _).
  - cbn. lra.
  - by exists st', g'.
Defined.

Lemma separateGroups_idle_witness :
  separateGroups 2 (rowPuzzle 2) = Some (rowPuzzle 2).
Proof.
  apply (separateGroups_idle (rowPuzzle 2) 2).
  - apply rowPuzzle_first.
  - intros i j g1 g2 p1 p2 Hij H1 H2 Hp1 Hp2.
    destruct i as [|[|i]]; destruct j as [|[|j]]; try lia; try done.
    injection H1 as <-. injection H2 as <-.
    injection Hp1 as <-. injection Hp2 as <-.
    right. unfold minGap, firstGap. cbn [px py target pos board rowPuzzle init createGroups
      with_registry rowBoard cellW cellH].
    change (0 + Z.of_nat 1 * 100 + 0 - (0 + Z.of_nat 0 * 100 + 0))%Z with 100%Z.
    change (0 + Z.of_nat 0 * 100 + 0 - (0 + Z.of_nat 0 * 100 + 0))%Z with 0%Z.
    change (Z.min 100 100) with 100%Z.
    replace (100 * 100 + 0 * 0)%R with (100 * 100)%R by lra.
    rewrite sqrt_square; lra.
Defined.
(** ** Where the shared edges meet the cell corners *)

Section Corners.
Import Edges EdgeFacts.
Local Open Scope Z_scope.

Lemma PI_tight : (31415 / 10000 < PI < 31423 / 10000)%R.
Proof.
  destruct (PI_2_3_7_ineq 1) as [Hlo Hhi].
  unfold sum_f_R0, tg_alt, PI_2_3_7_tg, Ratan_seq in Hlo, Hhi. simpl in Hlo, Hhi. lra.
Qed.

(** [37 = 12 PI - a] with [a] between 0.698 and 0.708, where the sine lies
    between its Taylor polynomials of degree three and five. *)
Lemma sin_37 : (- (11 / 16) <= sin 37 < - (9 / 16))%R.
Proof.
  pose proof PI_tight as [H1 H2].
  set (a := (12 * PI - 37)%R).
  assert (Ha : (698 / 1000 <= a <= 708 / 1000)%R) by (unfold a; lra).
  assert (E : sin 37 = (- sin a)%R).
  { rewrite <- sin_neg, <- (sin_period (- a) 6). f_equal. unfold a. simpl. ring. }
  rewrite E.
  destruct (pre_sin_bound a 0) as [Hlo Hhi]; [lra | lra |].
  unfold sin_approx, sum_f_R0, sin_term in Hlo, Hhi. simpl in Hlo, Hhi.
  assert (H3 : (a * a <= 708 * 708 / 1000000)%R) by nra.
  assert (H4 : (698 * 698 / 1000000 <= a * a)%R) by nra.
  assert (H5 : (a * (a * a) <= 708 * 708 * 708 / 1000000000)%R) by nra.
  assert (H6 : (698 * 698 * 698 / 1000000000 <= a * (a * a))%R) by nra.
  assert (H7 : (a * a * (a * (a * a)) <= 708 * 708 * 708 * 708 * 708 / 1000000000000000)%R)
    by nra.
  assert (H8 : (0 <= a * a * (a * (a * a)))%R) by nra.
  split; nra.
Qed.

Lemma amp_100 : amp 100 = 8.
Proof.
  unfold amp, js_floor. rewrite (Zfloor_eq 8); [reflexivity | lra].
Qed.

(** The sample [round(8 * sin 37)] that opens the interior edge
    [vEdges[1][0]] of a row of 100-pixel cells. *)
Lemma wave_37_first : wave (param 0) 37 8 = -5.
Proof.
  unfold wave, js_round. rewrite param_0.
  replace (0 * 2 * PI + INR 37)%R with 37%R.
  - pose proof sin_37. apply Zfloor_eq. lra.
  - rewrite INR_IZR_INZ. replace (Z.of_nat 37) with 37 by reflexivity. lra.
Qed.

Lemma wave_37_last : wave (param N) 37 8 = -5.
Proof. rewrite wave_ends. apply wave_37_first. Qed.

Lemma along_11 : js_round (param 11 * IZR 100) = 92.
Proof.
  unfold js_round, param, N. apply Zfloor_eq. simpl. lra.
Qed.

Lemma along_le_92 (i : nat) : (i ≤ 11)%nat -> js_round (param i * IZR 100) <= 92.
Proof.
  intros Hi. rewrite <- along_11. apply js_round_mono.
  apply Rmult_le_compat_r; [lra | by apply param_mono].
Qed.

#[local] Abbreviation b := (rowBoard 2).

(** The two ends of [vEdges[1][0]]. *)
Lemma shared_first : vPoint b 1 0 0 = mkPt (-5) 0.
Proof.
  unfold vPoint. cbn [rowBoard cols cellW cellH Nat.eqb orb].
  change (1 * 37 + 0 * 19)%nat with 37%nat.
  by rewrite amp_100, wave_37_first, along_0.
Qed.

Lemma shared_last : vPoint b 1 0 N = mkPt (-5) 100.
Proof.
  unfold vPoint. cbn [rowBoard cols cellW cellH Nat.eqb orb].
  change (1 * 37 + 0 * 19)%nat with 37%nat.
  by rewrite amp_100, wave_37_last, along_N.
Qed.

(** The points of the two outlines, side by side. *)
Lemma top_point (c i : nat) : py (hPoint b 0 c i) = 0.
Proof. reflexivity. Qed.

Lemma bottom_point (c i : nat) :
  (i ≤ N)%nat ->
  py (hPoint b 1 c i) = 0 ∧ 0 <= px (hPoint b 1 c i) <= 100
  ∧ ((i ≤ 11)%nat -> px (hPoint b 1 c i) <= 92).
Proof.
  intros Hi. split; [reflexivity|].
  split; [apply (hPoint_bound b 1 c i Hi); cbn; lia|].
  intros Hi'. unfold hPoint. cbn [px rowBoard cellW]. by apply along_le_92.
Qed.

Lemma side_point (c r i : nat) :
  (i ≤ N)%nat ->
  0 <= py (vPoint b c r i) <= 100
  ∧ ((i ≤ 11)%nat -> py (vPoint b c r i) <= 92).
Proof.
  intros Hi. split; [apply (vPoint_bound b c r i Hi); cbn; lia|].
  intros Hi'. unfold vPoint. cbn [py rowBoard cellH]. by apply along_le_92.
Qed.

Lemma border_side_point (r i : nat) :
  px (vPoint b 0 r i) = 0 ∧ px (vPoint b 2 r i) = 0.
Proof. split; reflexivity. Qed.

(** A segment whose end points lie on or above the horizontal line through
    [q], and to the left of [q] where they lie on it, does not contain
    [q]; likewise with the end points to the right. *)
Lemma onSegment_left (a c q : Pt) :
  py a <= py q -> py c <= py q ->
  (py a = py q -> px a < px q) -> (py c = py q -> px c < px q) ->
  onSegment a c q = false.
Proof.
  intros Ha Hc Hax Hcx. unfold onSegment.
  apply not_true_is_false. intros H.
  repeat (apply andb_prop in H as [H ?]).
  apply Z.eqb_eq in H.
  repeat match goal with K : (_ <=? _) = true |- _ => apply Z.leb_le in K end.
  destruct (Z.eq_dec (py a) (py q)) as [Ea|Na], (Z.eq_dec (py c) (py q)) as [Ec|Nc].
  - specialize (Hax Ea). specialize (Hcx Ec). lia.
  - specialize (Hax Ea). nia.
  - specialize (Hcx Ec). nia.
  - lia.
Qed.

Lemma onSegment_right (a c q : Pt) :
  py a <= py q -> py c <= py q ->
  (py a = py q -> px q < px a) -> (py c = py q -> px q < px c) ->
  onSegment a c q = false.
Proof.
  intros Ha Hc Hax Hcx. unfold onSegment.
  apply not_true_is_false. intros H.
  repeat (apply andb_prop in H as [H ?]).
  apply Z.eqb_eq in H.
  repeat match goal with K : (_ <=? _) = true |- _ => apply Z.leb_le in K end.
  destruct (Z.eq_dec (py a) (py q)) as [Ea|Na], (Z.eq_dec (py c) (py q)) as [Ec|Nc].
  - specialize (Hax Ea). specialize (Hcx Ec). lia.
  - specialize (Hax Ea). nia.
  - specialize (Hcx Ec). nia.
  - lia.
Qed.

Lemma onOutline_false (P : Pt -> Prop) (path : list Pt) (origin q : Pt) :
  (∀ a c, P a -> P c -> onSegment (pt_add origin a) (pt_add origin c) q = false) ->
  Forall P path ->
  onOutline path origin q = false.
Proof.
  intros Hseg Hall. unfold onOutline. apply not_true_is_false. intros H.
  apply existsb_exists in H as ([a c] & Hin & Hon).
  apply list_elem_of_In in Hin. unfold outlineEdges in Hin.
  pose proof (elem_of_zip_l _ _ _ _ Hin) as Ha.
  pose proof (elem_of_zip_r _ _ _ _ Hin) as Hc.
  rewrite Forall_forall in Hall.
  assert (Hc' : c ∈ path).
  { apply elem_of_app in Hc as [Hc|Hc];
      [by apply (subseteq_drop 1) | by apply (subseteq_take 1)]. }
  cbn [fst snd] in Hon. rewrite (Hseg a c) in Hon; [done | by apply Hall | by apply Hall].
Qed.

(** The outline of the left piece: no point lies below the bottom border
    [y = 100], and those on it have [x <= 95]. *)
Lemma left_outline :
  Forall (fun v => py v <= 100 ∧ (py v = 100 -> px v <= 95))
         (pathTop (hPoly b 0 0) ++ pathRight b (vPoly b 1 0)
            ++ pathBottom b (hPoly b 1 0) ++ pathLeft (vPoly b 0 0)).
Proof.
  rewrite Forall_forall. intros v Hv.
  unfold pathTop, pathRight, pathBottom, pathLeft in Hv.
  rewrite !elem_of_app in Hv. destruct Hv as [H | [H | [H | H]]].
  - apply hPoly_elem in H as (i & Hi & ->). rewrite top_point. lia.
  - apply list_elem_of_fmap in H as (q & -> & Hq).
    apply (subseteq_drop 1) in Hq. apply vPoly_elem in Hq as (i & Hi & ->).
    cbn [px py]. destruct (side_point 1 0 i Hi) as [H1 H2].
    destruct (decide (i = N)) as [->|Hne].
    + rewrite shared_last. cbn. lia.
    + assert (Hi' : (i ≤ 11)%nat) by (unfold N in *; lia). specialize (H2 Hi'). lia.
  - apply list_elem_of_fmap in H as (q & -> & Hq).
    rewrite elem_of_reverse in Hq. apply elem_of_take in Hq as (i & Hq & Hi).
    apply hPoly_inv in Hq as [Hi' ->]. rewrite hPoly_length in Hi.
    destruct (bottom_point 0 i Hi') as (H1 & H2 & H3). cbn [px py]. rewrite H1.
    assert (Hi'' : (i ≤ 11)%nat) by (unfold N in *; lia). specialize (H3 Hi''). cbn [rowBoard cellH]. lia.
  - rewrite elem_of_reverse in H. apply subseteq_take in H.
    apply vPoly_elem in H as (i & Hi & ->).
    destruct (side_point 0 0 i Hi) as [H1 _].
    destruct (border_side_point 0 i) as [H2 _]. lia.
Qed.

(** The outline of the right piece, in its own frame: no point lies below
    [y = 100], and those on that line have [x >= 0]. *)
Lemma right_outline :
  Forall (fun v => py v <= 100 ∧ (py v = 100 -> 0 <= px v))
         (pathTop (hPoly b 0 1) ++ pathRight b (vPoly b 2 0)
            ++ pathBottom b (hPoly b 1 1) ++ pathLeft (vPoly b 1 0)).
Proof.
  rewrite Forall_forall. intros v Hv.
  unfold pathTop, pathRight, pathBottom, pathLeft in Hv.
  rewrite !elem_of_app in Hv. destruct Hv as [H | [H | [H | H]]].
  - apply hPoly_elem in H as (i & Hi & ->). rewrite top_point. lia.
  - apply list_elem_of_fmap in H as (q & -> & Hq).
    apply (subseteq_drop 1) in Hq. apply vPoly_elem in Hq as (i & Hi & ->).
    cbn [px py]. destruct (side_point 2 0 i Hi) as [H1 _].
    destruct (border_side_point 0 i) as [_ H2]. rewrite H2. cbn [rowBoard cellW]. lia.
  - apply list_elem_of_fmap in H as (q & -> & Hq).
    rewrite elem_of_reverse in Hq. apply subseteq_take in Hq.
    apply hPoly_elem in Hq as (i & Hi & ->).
    destruct (bottom_point 1 i Hi) as (H1 & H2 & _). cbn [px py]. rewrite H1. cbn [rowBoard cellH]. lia.
  - rewrite elem_of_reverse in H. apply elem_of_take in H as (i & Hq & Hi).
    apply vPoly_inv in Hq as [Hi' ->]. rewrite vPoly_length in Hi.
    destruct (side_point 1 0 i Hi') as [H1 H2].
    assert (Hi'' : (i ≤ 11)%nat) by (unfold N in *; lia). specialize (H2 Hi''). lia.
Qed.

#[local] Abbreviation leftPath :=
  (pathTop (hPoly b 0 0) ++ pathRight b (vPoly b 1 0)
     ++ pathBottom b (hPoly b 1 0) ++ pathLeft (vPoly b 0 0)).
#[local] Abbreviation rightPath :=
  (pathTop (hPoly b 0 1) ++ pathRight b (vPoly b 2 0)
     ++ pathBottom b (hPoly b 1 1) ++ pathLeft (vPoly b 1 0)).

(** Where the sides of the two outlines end. *)
Lemma leftPath_top_end : leftPath !! 12%nat = Some (mkPt 100 0).
Proof.
  change (leftPath !! 12%nat) with (Some (hPoint b 0 0 N)).
  unfold hPoint. cbn [rowBoard rows cellW Nat.eqb orb]. by rewrite along_N.
Qed.

Lemma leftPath_right_end : leftPath !! 24%nat = Some (mkPt 95 100).
Proof.
  change (leftPath !! 24%nat)
    with (Some (mkPt (cellW b + px (vPoint b 1 0 N)) (py (vPoint b 1 0 N)))).
  by rewrite shared_last.
Qed.

Lemma leftPath_bottom_start : leftPath !! 25%nat = Some (mkPt 92 100).
Proof.
  change (leftPath !! 25%nat)
    with (Some (mkPt (px (hPoint b 1 0 11)) (cellH b + py (hPoint b 1 0 11)))).
  unfold hPoint. cbn [px py rowBoard rows cellW cellH Nat.eqb orb]. by rewrite along_11.
Qed.

Lemma rightPath_bottom_end : rightPath !! 36%nat = Some (mkPt 0 100).
Proof.
  change (rightPath !! 36%nat)
    with (Some (mkPt (px (hPoint b 1 1 0)) (cellH b + py (hPoint b 1 1 0)))).
  unfold hPoint. cbn [px py rowBoard rows cellW cellH Nat.eqb orb]. by rewrite along_0.
Qed.

Lemma rightPath_left_end : rightPath !! 48%nat = Some (mkPt (-5) 0).
Proof.
  change (rightPath !! 48%nat) with (Some (vPoint b 1 0 0)).
  by rewrite shared_first.
Qed.

(** C6, at the failing input.  A row of two with 100-pixel cells.  The one
    interior polyline, [vEdges[1][0]], is the right edge of piece 0 and the
    left edge of piece 1; its first and last points are [(-5,0)] and
    [(-5,100)], five pixels off the two cell corners it joins, so the
    lateral offset is not 0 at [t = 0] and at [t = 1].  [pathFn] joins the
    sides of an outline as if each polyline ended on the corners: it leaves
    out the first point of the right side and the last point of the left
    side.  The two pieces therefore trace the edge they share between
    different end points: piece 0 from the corner [(100,0)], where its top
    side ends, to [(95,100)]; piece 1, drawn at [(100,0)], from the corner
    [(100,100)], where its bottom side ends, to [(95,0)]. *)
Theorem shared_edge_ends_off_corner :
  let e := buildSharedEdges b in
  ∃ poly path0 path1,
    target <$> createPieces b = [mkPt 0 0; mkPt 100 0]
    ∧ readRight e 0 0 = Some poly
    ∧ readLeft e 0 1 = Some poly
    ∧ poly !! 0%nat = Some (mkPt (-5) 0)
    ∧ poly !! N = Some (mkPt (-5) 100)
    ∧ ¬ lateralPinned px poly
    ∧ pathFn b e 0 0 = Some path0
    ∧ pathFn b e 0 1 = Some path1
    ∧ path0 !! 12%nat = Some (mkPt 100 0)
    ∧ path0 !! 24%nat = Some (mkPt 95 100)
    ∧ pt_add (mkPt 100 0) <$> path1 !! 36%nat = Some (mkPt 100 100)
    ∧ pt_add (mkPt 100 0) <$> path1 !! 48%nat = Some (mkPt 95 0).
Proof.
  intros e. exists (vPoly b 1 0), leftPath, rightPath.
  split; [reflexivity|].
  split; [unfold readRight, e; apply at2_vEdges; cbn; lia|].
  split; [unfold readLeft, e; apply at2_vEdges; cbn; lia|].
  assert (H0 : vPoly b 1 0 !! 0%nat = Some (mkPt (-5) 0)).
  { rewrite vPoly_lookup by (unfold N; lia). by rewrite shared_first. }
  assert (HN : vPoly b 1 0 !! N = Some (mkPt (-5) 100)).
  { rewrite vPoly_lookup by lia. by rewrite shared_last. }
  split; [exact H0|]. split; [exact HN|].
  split.
  { intros (a & z & Ha & _ & Hlat & _). rewrite H0 in Ha. injection Ha as <-. done. }
  split; [unfold e; apply pathFn_catalogue; cbn; lia|].
  split; [unfold e; apply pathFn_catalogue; cbn; lia|].
  split; [apply leftPath_top_end|]. split; [apply leftPath_right_end|].
  split; [by rewrite rightPath_bottom_end | by rewrite rightPath_left_end].
Qed.

(** C8, at the failing input.  The same row of two, assembled: piece 0
    drawn at [(0,0)], piece 1 at [(100,0)].  The two polylines of the
    bottom border are straight, and so is every other perimeter polyline.
    But the right side of piece 0 ends on the border at [(95,100)], five
    pixels short of the corner [(100,100)] at which the bottom side of
    piece 1 ends, and its bottom side starts at [(92,100)].  No point of
    either outline lies below the line [y = 100], so a point of that line
    belongs to a piece only if it lies on the outline of the piece; the
    point [(97,100)] of the bottom border lies on neither outline.  The
    border of the assembled board has a notch there. *)
Theorem border_notch :
  let e := buildSharedEdges b in
  let q := mkPt 97 (boundsY b + Z.of_nat (rows b) * cellH b) in
  ∃ bottom0 bottom1 path0 path1,
    target <$> createPieces b = [mkPt 0 0; mkPt 100 0]
    ∧ readBottom e 0 0 = Some bottom0 ∧ Forall (fun p => py p = 0) bottom0
    ∧ readBottom e 0 1 = Some bottom1 ∧ Forall (fun p => py p = 0) bottom1
    ∧ pathFn b e 0 0 = Some path0
    ∧ pathFn b e 0 1 = Some path1
    ∧ path0 !! 24%nat = Some (mkPt 95 100)
    ∧ path0 !! 25%nat = Some (mkPt 92 100)
    ∧ pt_add (mkPt 100 0) <$> path1 !! 36%nat = Some (mkPt 100 100)
    ∧ q = mkPt 97 100
    ∧ boundsX b <= px q <= boundsX b + Z.of_nat (cols b) * cellW b
    ∧ Forall (fun v => py (pt_add (mkPt 0 0) v) <= py q) path0
    ∧ Forall (fun v => py (pt_add (mkPt 100 0) v) <= py q) path1
    ∧ onOutline path0 (mkPt 0 0) q = false
    ∧ onOutline path1 (mkPt 100 0) q = false.
Proof.
  intros e q. exists (hPoly b 1 0), (hPoly b 1 1), leftPath, rightPath.
  split; [reflexivity|].
  split; [unfold readBottom, e; apply at2_hEdges; cbn; lia|].
  split.
  { rewrite Forall_forall. intros p Hp. apply hPoly_elem in Hp as (i & Hi & ->).
    by destruct (bottom_point 0 i Hi) as [-> _]. }
  split; [unfold readBottom, e; apply at2_hEdges; cbn; lia|].
  split.
  { rewrite Forall_forall. intros p Hp. apply hPoly_elem in Hp as (i & Hi & ->).
    by destruct (bottom_point 1 i Hi) as [-> _]. }
  split; [unfold e; apply pathFn_catalogue; cbn; lia|].
  split; [unfold e; apply pathFn_catalogue; cbn; lia|].
  split; [apply leftPath_right_end|]. split; [apply leftPath_bottom_start|].
  split; [by rewrite rightPath_bottom_end|].
  split; [reflexivity|].
  split; [cbn; lia|].
  change (py q) with 100. change (px q) with 97.
  split.
  { eapply Forall_impl; [apply left_outline|]. intros v [Hv _]. cbn [pt_add px py]. lia. }
  split.
  { eapply Forall_impl; [apply right_outline|]. intros v [Hv _]. cbn [pt_add px py]. lia. }
  split.
  - apply (onOutline_false (fun v => py v <= 100 ∧ (py v = 100 -> px v <= 95)));
      [|apply left_outline].
    intros a c [Ha1 Ha2] [Hc1 Hc2].
    apply onSegment_left; unfold q; cbn [pt_add px py rowBoard boundsY rows cellH]; lia.
  - apply (onOutline_false (fun v => py v <= 100 ∧ (py v = 100 -> 0 <= px v)));
      [|apply right_outline].
    intros a c [Ha1 Ha2] [Hc1 Hc2].
    apply onSegment_right; unfold q; cbn [pt_add px py rowBoard boundsY rows cellH]; lia.
Qed.

End Corners.
